(** * Entity resolution and co-occurrence network of the e-mail corpus

    A shallow embedding of the consolidation passes
    ([scripts/final/run_name_consolidation*.py]), of the occurrence table
    ([scripts/final/create_unique_names.py]) and of the two network
    builders ([scripts/final/build_network.py] and the earlier
    [scripts/build_network.py]), with the properties their specification
    states about them.

    Conventions of the embedding:
    - a Python [str] is a [string]; names are taken to be ASCII, the order
      on strings is the code point order that Python's [<] uses;
    - a [dict] used only as a map is a [gmap], a [set] is a [gset]; a
      [dict] whose iteration order is observed ([all_changes],
      [potential_groups], [normalized_groups]) is an insertion-ordered
      association list;
    - the SQLite table [FINAL_3_unique_names] is a list of rows, one record
      field per column, [None] for SQL [NULL];
    - the answers of the language model are inputs of the functions. *)

From Stdlib Require Import Ascii String OrderedTypeEx.
From stdpp Require Import gmap strings list sorting.

(* [set_solver] clears hypotheses that an earlier step has already used. *)
Set Warnings "-clear-no-such-hyp".

(** ** Python strings *)

Module PyStr.

(** [s < t] on [str]: [String.ltb], the lexicographic order on code
    points. *)
Definition lt (s t : string) : Prop := String.ltb s t = true.
Definition le (s t : string) : Prop := String.leb s t = true.

#[global] Instance le_dec : RelDecision le :=
  λ s t, decide (String.leb s t = true).
#[global] Instance lt_dec : RelDecision lt :=
  λ s t, decide (String.ltb s t = true).

(** [bool(s)]: a string is truthy when it is not empty. *)
Definition truthy (s : string) : bool :=
  match s with EmptyString => false | String _ _ => true end.

Definition code (c : ascii) : nat := nat_of_ascii c.

(** [c.isspace()] on the ASCII range. *)
Definition is_space (c : ascii) : bool :=
  let n := code c in
  ((9 <=? n) && (n <=? 13)) || ((28 <=? n) && (n <=? 32)).

Definition is_upper (c : ascii) : bool :=
  let n := code c in (65 <=? n) && (n <=? 90).

Definition is_lower (c : ascii) : bool :=
  let n := code c in (97 <=? n) && (n <=? 122).

Definition is_digit (c : ascii) : bool :=
  let n := code c in (48 <=? n) && (n <=? 57).

(** The class [\w] of [re]: letters, digits and the underscore; a byte
    above the ASCII range is kept as a letter. *)
Definition is_word (c : ascii) : bool :=
  is_upper c || is_lower c || is_digit c || (code c =? 95) || (128 <=? code c).

Definition lower_char (c : ascii) : ascii :=
  if is_upper c then ascii_of_nat (code c + 32) else c.

(** [s.lower()] *)
Fixpoint lower (s : string) : string :=
  match s with
  | EmptyString => EmptyString
  | String c s' => String (lower_char c) (lower s')
  end.

Definition chars (s : string) : list ascii := list_ascii_of_string s.
Definition of_chars (l : list ascii) : string := string_of_list_ascii l.

Fixpoint drop_while (p : ascii → bool) (l : list ascii) : list ascii :=
  match l with
  | [] => []
  | c :: l' => if p c then drop_while p l' else l
  end.

(** [s.strip(chars)], [p] telling the characters to remove at both ends. *)
Definition strip_where (p : ascii → bool) (s : string) : string :=
  of_chars (drop_while p (rev (drop_while p (rev (chars s))))).

(** [s.strip()] *)
Definition strip (s : string) : string := strip_where is_space s.

(** [c in s] for a character [c] *)
Definition contains (c : ascii) (s : string) : bool :=
  existsb (Ascii.eqb c) (chars s).

(** [s.split(c)[0]]: the text before the first [c]. *)
Fixpoint before (c : ascii) (s : string) : string :=
  match s with
  | EmptyString => EmptyString
  | String c' s' => if Ascii.eqb c' c then EmptyString else String c' (before c s')
  end.

(** [s.endswith(suffix)] *)
Definition endswith (s suffix : string) : bool :=
  let n := String.length s in
  let k := String.length suffix in
  (k <=? n) && String.eqb (String.substring (n - k) k s) suffix.

(** [s[:-k]] for [0 < k] *)
Definition drop_last (k : nat) (s : string) : string :=
  String.substring 0 (String.length s - k) s.

(** [re.sub(r'[^\w\s]', '', s)] *)
Definition remove_punctuation (s : string) : string :=
  of_chars (List.filter (λ c, is_word c || is_space c) (chars s)).

(** [s.split()]: the maximal runs of characters that are not white space;
    [cur] is the word being read, last character first. *)
Fixpoint split_aux (cur : list ascii) (l : list ascii) : list string :=
  match l with
  | [] => match cur with [] => [] | _ => [of_chars (rev cur)] end
  | c :: l' =>
      if is_space c then
        match cur with
        | [] => split_aux [] l'
        | _ => of_chars (rev cur) :: split_aux [] l'
        end
      else split_aux (c :: cur) l'
  end.

Definition split (s : string) : list string := split_aux [] (chars s).

(** [s.find(c)] for a character [c]: the index of its first occurrence,
    [-1] without one; [i] is the index of the head of [l]. *)
Fixpoint find_from (c : ascii) (i : Z) (l : list ascii) : Z :=
  match l with
  | [] => (-1)%Z
  | c' :: l' => if Ascii.eqb c' c then i else find_from c (i + 1)%Z l'
  end.

Definition find (c : ascii) (s : string) : Z := find_from c 0%Z (chars s).

(** [s.rfind(c)]: the index of the last occurrence, [-1] without one;
    [best] is the last occurrence seen so far. *)
Fixpoint rfind_from (c : ascii) (i best : Z) (l : list ascii) : Z :=
  match l with
  | [] => best
  | c' :: l' => rfind_from c (i + 1)%Z (if Ascii.eqb c' c then i else best) l'
  end.

Definition rfind (c : ascii) (s : string) : Z := rfind_from c 0%Z (-1)%Z (chars s).

(** [s[i:j]] for [0 <= i <= j <= len(s)] *)
Definition slice (i j : Z) (s : string) : string :=
  String.substring (Z.to_nat i) (Z.to_nat (j - i)) s.

End PyStr.

(** ** The table [FINAL_3_unique_names] *)

Module Table.

(** One row: the extracted name and the canonical name of each
    generation.  A column that no pass has added yet is held as [NULL] in
    every row, which is what [ALTER TABLE ... ADD COLUMN] makes of it when
    a pass adds it; what a [SELECT] of a column yields, also on a table
    that does not have it, is [select] below. *)
Record row := mkRow {
  name_extracted : string;
  canonical_F2 : option string;
  canonical_F2c : option string;
  canonical_F2d : option string
}.

Inductive column := F2 | F2c | F2d.

Definition get (c : column) (r : row) : option string :=
  match c with
  | F2 => canonical_F2 r
  | F2c => canonical_F2c r
  | F2d => canonical_F2d r
  end.

Definition set (c : column) (v : option string) (r : row) : row :=
  match c with
  | F2 => mkRow (name_extracted r) v (canonical_F2c r) (canonical_F2d r)
  | F2c => mkRow (name_extracted r) (canonical_F2 r) v (canonical_F2d r)
  | F2d => mkRow (name_extracted r) (canonical_F2 r) (canonical_F2c r) v
  end.

(** The name of a column, as the scripts write it in their statements. *)
Definition column_name (c : column) : string :=
  match c with
  | F2 => "canonical_name [F2]"
  | F2c => "canonical_name [F2c]"
  | F2d => "canonical_name [F2d]"
  end.

(** What [SELECT "<column>"] yields for a row.  On a table that has the
    column it is the cell.  On a table that does not have it, SQLite takes
    the double-quoted name for a string literal, and the statement yields
    the name of the column, as a text, for every row. *)
Definition select (has_column : bool) (c : column) (r : row) : option string :=
  if has_column then get c r else Some (column_name c).

Abbreviation table := (list row).

(** [UPDATE t SET c = new WHERE c = old]; a [NULL] cell never matches. *)
Definition update_where (c : column) (new old : string) (t : table) : table :=
  (λ r, if decide (get c r = Some old) then set c (Some new) r else r) <$> t.

(** [UPDATE t SET dst = src WHERE dst IS NULL] *)
Definition copy_where_null (dst src : column) (t : table) : table :=
  (λ r, if decide (get dst r = None) then set dst (get src r) r else r) <$> t.

(** The generation held by column [c]: the canonical value of a raw
    name, read from the first row that carries the name. *)
Definition generation (c : column) (t : table) (raw : string)
  : option (option string) :=
  get c <$> List.find (λ r, bool_decide (name_extracted r = raw)) t.

End Table.


(** ** Insertion-ordered dictionaries *)

Module PyDict.

(** The items of a [dict] in iteration order; the keys of a well-formed
    dictionary are pairwise distinct. *)
Abbreviation t K V := (list (K * V)).

Section ops.
Context {K V : Type} `{EqDecision K}.

(** [d[k] = v]: a key already present keeps its place. *)
Fixpoint set (d : t K V) (k : K) (v : V) : t K V :=
  match d with
  | [] => [(k, v)]
  | (k', v') :: d' =>
      if decide (k' = k) then (k', v) :: d' else (k', v') :: set d' k v
  end.

(** [d.get(k)] *)
Fixpoint get (d : t K V) (k : K) : option V :=
  match d with
  | [] => None
  | (k', v') :: d' => if decide (k' = k) then Some v' else get d' k
  end.

(** [d.update(other)], and [dict(pairs)] when [d] is empty: what
    [json.loads] builds from the members of a JSON object, a repeated key
    keeping its last value. *)
Definition update (d : t K V) (other : list (K * V)) : t K V :=
  foldl (λ acc kv, set acc kv.1 kv.2) d other.

Definition keys (d : t K V) : list K := d.*1.
Definition values (d : t K V) : list V := d.*2.
End ops.

End PyDict.


(** ** Candidate matchers *)

Module CandidateMatcher.

(** *** Token overlap, [run_name_consolidation_v3.py] *)

(** [re.findall(r'[a-z]+', s)]: the maximal runs of lower-case letters, from
    left to right; [cur] is the run being read, last character first. *)
Fixpoint findall_lower (cur : list ascii) (l : list ascii) : list string :=
  match l with
  | [] => match cur with [] => [] | _ => [PyStr.of_chars (rev cur)] end
  | c :: l' =>
      if PyStr.is_lower c then findall_lower (c :: cur) l'
      else match cur with
           | [] => findall_lower [] l'
           | _ => PyStr.of_chars (rev cur) :: findall_lower [] l'
           end
  end.

Definition stopwords : gset string :=
  list_to_set ["jr"; "sr"; "ii"; "iii"; "iv"; "dr"; "mr"; "ms"; "mrs"; "prof"].

Definition meaningful (t : string) : bool :=
  (1 <? String.length t) && negb (bool_decide (t ∈ stopwords)).

Definition tokenize_name (name : string) : gset string :=
  let name_lower := PyStr.lower name in
  let tokens := findall_lower [] (PyStr.chars name_lower) in
  list_to_set (List.filter meaningful tokens).

(** [potential_groups], a [defaultdict(set)] keyed by [frozenset]s. *)
Abbreviation groups_dict := (PyDict.t (gset string) (gset string)).

(** [potential_groups[group_key].add(name)] *)
Definition group_add (pg : groups_dict) (group_key : gset string)
    (name : string) : groups_dict :=
  PyDict.set pg group_key ({[name]} ∪ default ∅ (PyDict.get pg group_key)).

(** A stable sort by a key in [nat], largest key first: what
    [sorted(items, key=lambda x: -len(x[1]))] does. *)
Fixpoint insert_desc {A} (key : A → nat) (x : A) (l : list A) : list A :=
  match l with
  | [] => [x]
  | y :: l' => if key y <=? key x then x :: y :: l' else y :: insert_desc key x l'
  end.

Definition sorted_desc {A} (key : A → nat) (l : list A) : list A :=
  foldr (insert_desc key) [] l.

Section token_overlap.
(** The order in which a [set] of strings is iterated; Python leaves it
    unspecified. *)
Variable iter : gset string → list string.

(** First loop: [name_tokens] and [token_to_names]. *)
Definition index_name (st : gmap string (gset string) * gmap string (gset string))
    (name : string) : gmap string (gset string) * gmap string (gset string) :=
  let tokens := tokenize_name name in
  (<[name := tokens]> st.1,
   foldl (λ token_to_names token,
            <[token := {[name]} ∪ default ∅ (token_to_names !! token)]> token_to_names)
         st.2 (iter tokens)).

Definition build_index (names : list string)
  : gmap string (gset string) * gmap string (gset string) :=
  foldl index_name (∅, ∅) names.

Record pairs_state := mkPairs {
  potential_groups : groups_dict;
  processed_pairs : gset (string * string)
}.

(** The body of [for name2 in token_to_names[token]]. *)
Definition consider_pair (name_tokens : gmap string (gset string))
    (name1 : string) (tokens1 : gset string) (st : pairs_state)
    (name2 : string) : pairs_state :=
  if String.leb name2 name1 then st
  else if bool_decide ((name1, name2) ∈ processed_pairs st) then st
  else
    let processed := {[(name1, name2)]} ∪ processed_pairs st in
    let tokens2 := default ∅ (name_tokens !! name2) in
    let shared := tokens1 ∩ tokens2 in
    if 2 <=? size shared then
      mkPairs (group_add (group_add (potential_groups st) shared name1)
                 shared name2) processed
    else mkPairs (potential_groups st) processed.

(** The body of [for name1 in names]. *)
Definition scan_name (name_tokens token_to_names : gmap string (gset string))
    (st : pairs_state) (name1 : string) : pairs_state :=
  let tokens1 := default ∅ (name_tokens !! name1) in
  if size tokens1 <? 2 then st
  else
    foldl (λ st' token,
             foldl (consider_pair name_tokens name1 tokens1) st'
                   (iter (default ∅ (token_to_names !! token))))
          st (iter tokens1).

(** The last loop: a group keeps the names no earlier group has taken. *)
Definition emit_group (st : list (list string) * gset string)
    (item : gset string * gset string) : list (list string) * gset string :=
  let new_names := List.filter (λ n, negb (bool_decide (n ∈ st.2))) (iter item.2) in
  if 2 <=? length new_names then (st.1 ++ [new_names], list_to_set new_names ∪ st.2)
  else st.

Definition find_potential_duplicates (names : list string) : list (list string) :=
  let '(name_tokens, token_to_names) := build_index names in
  let st := foldl (scan_name name_tokens token_to_names) (mkPairs [] ∅) names in
  (foldl emit_group ([], ∅)
     (sorted_desc (λ item, size item.2) (potential_groups st))).1.
End token_overlap.

(** *** Suffixes, [run_name_consolidation_v4.py] *)

Definition suffixes : list string :=
  [" jr."; " jr"; " sr."; " sr"; " iii"; " ii"; " iv"; " esq."; " esq"; " phd"; " md"].

Definition normalize_name (name : string) : string :=
  let name := PyStr.strip (PyStr.lower name) in
  let name := foldl (λ name suffix,
                       if PyStr.endswith name suffix
                       then PyStr.drop_last (String.length suffix) name
                       else name) name suffixes in
  PyStr.strip (PyStr.remove_punctuation name).

(** [normalized_groups[norm].append(name)] on a [defaultdict(list)]. *)
Definition group_append (normalized_groups : PyDict.t string (list string))
    (name : string) : PyDict.t string (list string) :=
  let norm := normalize_name name in
  PyDict.set normalized_groups norm
    (default [] (PyDict.get normalized_groups norm) ++ [name]).

Definition find_suffix_duplicates (names : list string) : list (list string) :=
  List.filter (λ group, 2 <=? length group)
    (PyDict.values (foldl group_append [] names)).

End CandidateMatcher.

(** ** The consolidation passes *)

Module Consolidation.
Import Table.

(** An answer of the model in the later passes: the members
    [old_name: new_canonical_name] of the JSON object, in the order of the
    text; [[]] stands for the empty object and for every failed call. *)
Abbreviation response := (list (string * string)).

(** The loop over the batches, [if changes: all_changes.update(changes)]
    ([run_name_consolidation_v2.py], [_v3.py], [_v4.py]). *)
Definition collect_changes (responses : list response) : PyDict.t string string :=
  foldl (λ all_changes changes,
           match PyDict.update [] changes with
           | [] => all_changes
           | parsed => PyDict.update all_changes parsed
           end) [] responses.

(** [for old_name, new_name in all_changes.items(): UPDATE ... SET c = new_name
    WHERE c = old_name] *)
Definition apply_changes (c : column) (all_changes : PyDict.t string string)
    (t : table) : table :=
  foldl (λ acc kv, update_where c kv.2 kv.1 acc) t all_changes.

(** [[l[i:i + n] for i in range(0, len(l), n)]]; [fuel] bounds the number
    of slices, [length l] is enough. *)
Fixpoint batches_aux {A} (fuel n : nat) (l : list A) : list (list A) :=
  match fuel, l with
  | S fuel', _ :: _ => take n l :: batches_aux fuel' n (drop n l)
  | _, _ => []
  end.

Definition batches {A} (n : nat) (l : list A) : list (list A) :=
  batches_aux (length l) n l.

(** [SELECT DISTINCT c FROM t WHERE c IS NOT NULL AND c != 'None'], in the
    order of first occurrence. *)
Definition get_canonical_names (c : column) (t : table) : list string :=
  remove_dups (List.filter (λ n, negb (bool_decide (n = "None")))
                 (omap (get c) t)).

(** Second pass (run F2b), [run_name_consolidation_v2.py]: the names are
    sent in batches of 300 and the changes are written over column F2. *)
Definition run_consolidation_v2 (call_sonnet : list string → response)
    (t : table) : table :=
  let canonical_names := get_canonical_names F2 t in
  let all_changes := collect_changes (call_sonnet <$> batches 300 canonical_names) in
  apply_changes F2 all_changes t.

(** The writing half of the third pass: column F2c is filled from F2
    where it is still [NULL], then the changes are applied to F2c. *)
Definition write_v3 (all_changes : PyDict.t string string) (t : table) : table :=
  apply_changes F2c all_changes (copy_where_null F2c F2 t).

(** Third pass (run F2c), [run_name_consolidation_v3.py]: the candidate
    groups are sent ten at a time; without a group the pass returns before
    it touches the table. *)
Definition run_consolidation_v3 (iter : gset string → list string)
    (call_sonnet : list (list string) → response) (t : table) : table :=
  let canonical_names := get_canonical_names F2 t in
  match CandidateMatcher.find_potential_duplicates iter canonical_names with
  | [] => t
  | groups => write_v3 (collect_changes (call_sonnet <$> batches 10 groups)) t
  end.

(** The writing half of the fourth pass, from F2c to F2d. *)
Definition write_v4 (all_changes : PyDict.t string string) (t : table) : table :=
  apply_changes F2d all_changes (copy_where_null F2d F2c t).

(** Fourth pass (run F2d), [run_name_consolidation_v4.py]: one call with
    all the suffix groups. *)
Definition run_consolidation_v4 (call_sonnet : list (list string) → response)
    (t : table) : table :=
  let canonical_names := get_canonical_names F2c t in
  match CandidateMatcher.find_suffix_duplicates canonical_names with
  | [] => t
  | groups => write_v4 (collect_changes [call_sonnet groups]) t
  end.

(** *** First pass (run F2), [run_name_consolidation.py] *)

(** An answer of the model in the first pass, [canonical: [variant, ...]];
    [[]] for a failed call. *)
Abbreviation grouping := (list (string * list string)).

(** [consolidation_map[canonical].extend(variants)] or
    [consolidation_map[canonical] = variants] *)
Definition merge_result (consolidation_map : PyDict.t string (list string))
    (result : grouping) : PyDict.t string (list string) :=
  foldl (λ acc cv,
           match PyDict.get acc cv.1 with
           | Some old => PyDict.set acc cv.1 (old ++ cv.2)
           | None => PyDict.set acc cv.1 cv.2
           end) consolidation_map (PyDict.update [] result).

Definition build_consolidation_map (results : list grouping)
  : PyDict.t string (list string) :=
  foldl merge_result [] results.

(** The reverse mapping [variant_to_canonical]. *)
Definition reverse_mapping (consolidation_map : PyDict.t string (list string))
  : gmap string string :=
  foldl (λ m cv, foldl (λ m' variant, <[variant := cv.1]> m') m cv.2)
        ∅ consolidation_map.

(** [canonical = variant_to_canonical.get(name, name)], written to F2 of
    every row; nothing is written when no call succeeded. *)
Definition run_consolidation (results : list grouping) (t : table) : table :=
  match build_consolidation_map results with
  | [] => t
  | consolidation_map =>
      let variant_to_canonical := reverse_mapping consolidation_map in
      (λ r, set F2 (Some (default (name_extracted r)
                            (variant_to_canonical !! name_extracted r))) r) <$> t
  end.

(** *** The helpers of [call_sonnet] and of the first pass *)

(** The text handed to [json.loads] in the third and the fourth pass: the
    stripped answer, cut from its first opening brace to its last closing
    brace when there is such a span. *)
Definition json_text (text : string) : string :=
  let text := PyStr.strip text in
  let start_idx := PyStr.find "{" text in
  let end_idx := (PyStr.rfind "}" text + 1)%Z in
  if (0 <=? start_idx)%Z && (start_idx <? end_idx)%Z
  then PyStr.slice start_idx end_idx text
  else text.

(** The first loop of [find_lastname_matches]: [single_words] and
    [multi_words]. *)
Definition classify (st : list string * list string) (name : string)
  : list string * list string :=
  let clean := PyStr.strip name in
  let words := PyStr.split clean in
  if length words =? 1 then (st.1 ++ [clean], st.2)
  else if 2 <=? length words then (st.1, st.2 ++ [clean])
  else st.

(** [multi.split()[-1].lower()]; the names of [multi_words] have two words
    at least. *)
Definition last_name (multi : string) : string :=
  PyStr.lower (default "" (last (PyStr.split multi))).

(** [matches[single].append(multi)] for every full name whose last word is
    [single], whatever the case. *)
Definition match_single (multi_words : list string)
    (matches : PyDict.t string (list string)) (single : string)
  : PyDict.t string (list string) :=
  let single_lower := PyStr.lower single in
  foldl (λ matches multi,
           if bool_decide (single_lower = last_name multi)
           then PyDict.set matches single
                  (default [] (PyDict.get matches single) ++ [multi])
           else matches) matches multi_words.

Definition find_lastname_matches (names : list string)
  : PyDict.t string (list string) :=
  let '(single_words, multi_words) := foldl classify ([], []) names in
  foldl (match_single multi_words) [] single_words.

(** [batch_matches = {k: v for k, v in matches.items() if k in batch}] *)
Definition batch_matches (matches : PyDict.t string (list string))
    (batch : list string) : PyDict.t string (list string) :=
  List.filter (λ kv, bool_decide (kv.1 ∈ batch)) matches.

End Consolidation.

(** ** The table [FINAL_2_CLASSIFIER_name_extraction] *)

Module Corpus.

(** One row per discussion: [thread_id] is the primary key of the table.
    [names_mentioned] is the column [names_mentioned [F1]] once decoded:
    [None] when the cell is [NULL], empty or not the JSON text of a list
    of strings. *)
Record email := mkEmail {
  thread_id : string;
  body : option string;
  names_mentioned : option (list string)
}.

End Corpus.

(** ** Occurrences of the raw names, [create_unique_names.py] *)

Module CreateUniqueNames.
Import Corpus.

(** [name_threads[name].add(thread_id)] under
    [if name and name.strip(): name = name.strip()] *)
Definition add_name (thread : string) (name_threads : gmap string (gset string))
    (name : string) : gmap string (gset string) :=
  if PyStr.truthy name && PyStr.truthy (PyStr.strip name) then
    let name := PyStr.strip name in
    <[name := {[thread]} ∪ default ∅ (name_threads !! name)]> name_threads
  else name_threads.

Definition add_row (name_threads : gmap string (gset string)) (row : email)
  : gmap string (gset string) :=
  match names_mentioned row with
  | Some names => foldl (add_name (thread_id row)) name_threads names
  | None => name_threads
  end.

Definition name_threads (rows : list email) : gmap string (gset string) :=
  foldl add_row ∅ rows.

(** [name_counts = Counter({name: len(threads) ...})]; a [Counter] reads
    [0] at a missing key. *)
Definition name_counts (rows : list email) (name : string) : nat :=
  default 0 (size <$> name_threads rows !! name).

End CreateUniqueNames.

(** ** The co-occurrence network, [build_network.py] *)

Module BuildNetwork.
Import Corpus.

(** [EXCLUDED_NAMES] *)
Definition EXCLUDED_NAMES : gset string :=
  list_to_set
    [ "Jeffrey Epstein"; "Jeffrey E."; "Jeffrey E"; "Jeffrey"; "E. Jeffrey";
      "Epstein"; "Jeff Epstein"; "J. Epstein"; "JE"; "J.E."; "jeffrey E.";
      "jeffrey"; "JEFFREY"; "Jeff"; "jeff" ].

(** [name_mapping = {row[0]: row[1] for row in cursor.fetchall()}] over
    [SELECT name_extracted, "canonical_name [F2d]"], on a table that has
    the column, that is, once the fourth pass has run. *)
Definition load_name_mapping (t : Table.table) : gmap string (option string) :=
  foldl (λ m r, <[Table.name_extracted r := Table.canonical_F2d r]> m) ∅ t.

(** The same statement on any table; [has_F2d] tells whether the table has
    the column.  [run_pipeline.py] runs the builder right after the first
    pass, on a table that does not have it. *)
Definition read_name_mapping (has_F2d : bool) (t : Table.table)
  : gmap string (option string) :=
  foldl (λ m r, <[Table.name_extracted r := Table.select has_F2d Table.F2d r]> m)
        ∅ t.

(** A [Counter]: [c[k] += 1] and [c[k]]. *)
Definition incr {K} `{Countable K} (k : K) (c : gmap K nat) : gmap K nat :=
  <[k := S (default 0 (c !! k))]> c.

Definition count {K} `{Countable K} (c : gmap K nat) (k : K) : nat :=
  default 0 (c !! k).

(** [itertools.combinations(l, 2)] *)
Fixpoint combinations2 {A} (l : list A) : list (A * A) :=
  match l with
  | [] => []
  | x :: l' => (pair x <$> l') ++ combinations2 l'
  end.

(** [sorted(s)] on a set of strings. *)
Definition sorted (s : gset string) : list string :=
  merge_sort PyStr.le (elements s).

(** [(body or "")[:80].replace("\n", " ")] *)
Definition excerpt_of (body : option string) : string :=
  PyStr.of_chars
    ((λ c, if Ascii.eqb c "010"%char then " "%char else c)
       <$> PyStr.chars (String.substring 0 80 (default "" body))).

(** *** The graph of [networkx] *)

Record graph := mkGraph {
  nodes : gset string;
  adj : gmap string (gmap string nat)
}.

Definition empty_graph : graph := mkGraph ∅ ∅.

Definition neighbours (G : graph) (n : string) : gmap string nat :=
  default ∅ (adj G !! n).

Definition adj_set (u v : string) (w : nat) (a : gmap string (gmap string nat))
  : gmap string (gmap string nat) :=
  <[u := <[v := w]> (default ∅ (a !! u))]> a.

(** [G.add_edge(u, v, weight=w)]: both end points become nodes and the
    weight is stored in both directions. *)
Definition add_edge (u v : string) (w : nat) (G : graph) : graph :=
  mkGraph ({[u]} ∪ ({[v]} ∪ nodes G)) (adj_set v u w (adj_set u v w (adj G))).

(** [G.degree(n)]: a self-loop counts twice. *)
Definition degree (G : graph) (n : string) : nat :=
  size (neighbours G n) + (if bool_decide (n ∈ dom (neighbours G n)) then 1 else 0).

(** [nx.isolates(G)] *)
Definition isolates (G : graph) : gset string :=
  filter (λ n, degree G n = 0) (nodes G).

(** [G.remove_nodes_from(ns)] *)
Definition remove_nodes_from (ns : gset string) (G : graph) : graph :=
  mkGraph (nodes G ∖ ns)
    ((λ nb : gmap string nat, filter (λ kv, kv.1 ∉ ns) nb)
       <$> filter (λ kv, kv.1 ∉ ns) (adj G)).

(** [G[u][v]["weight"]], when the edge exists. *)
Definition weight (G : graph) (u v : string) : option nat :=
  neighbours G u !! v.


(** *** [main] *)

Section main.
Variable name_mapping : gmap string (option string).
(** The two thresholds, which the script fixes at [4] and [1]. *)
Variables (min_occurrences min_edge_weight : nat).

(** [name_mapping.get(name)]: [None] for a missing key and for a key bound
    to [NULL]. *)
Definition mapping_get (name : string) : option string :=
  mjoin (name_mapping !! name).

Definition consolidate_name (name : string) : option string :=
  if negb (PyStr.truthy name) then None
  else
    match mapping_get name with
    | None => None
    | Some canonical =>
        if bool_decide (canonical = "None") then None
        else if bool_decide (canonical ∈ EXCLUDED_NAMES)
                || bool_decide (name ∈ EXCLUDED_NAMES) then None
        else Some canonical
    end.

(** [if consolidated and consolidated != "Jeffrey Epstein":
    all_persons.add(consolidated)] *)
Definition add_person (all_persons : gset string) (name : string) : gset string :=
  match consolidate_name name with
  | Some consolidated =>
      if PyStr.truthy consolidated
         && negb (bool_decide (consolidated = "Jeffrey Epstein"))
      then {[consolidated]} ∪ all_persons
      else all_persons
  | None => all_persons
  end.

(** The set [all_persons] of one e-mail. *)
Definition persons_of (e : email) : gset string :=
  match names_mentioned e with
  | Some names => foldl add_person ∅ names
  | None => ∅
  end.

(** [email_persons] *)
Definition email_persons (emails : list email)
  : list (string * option string * gset string) :=
  (λ e, (thread_id e, body e, persons_of e)) <$> emails.

(** [person_counts]: [for p in all_persons: person_counts[p] += 1] for
    every e-mail. *)
Definition person_counts (emails : list email) : gmap string nat :=
  foldl (λ counts e, set_fold incr counts (persons_of e)) ∅ emails.

(** [valid_persons = {p for p, count in person_counts.items()
    if count >= min_occurrences}] *)
Definition valid_persons (emails : list email) : gset string :=
  dom (filter (λ pc, min_occurrences ≤ pc.2) (person_counts emails)).

Record edge_state := mkEdges {
  edges : gmap (string * string) nat;
  edge_examples : gmap (string * string) (list string)
}.

(** The body of [for p1, p2 in combinations(persons_list, 2)]. *)
Definition add_pair (excerpt : string) (st : edge_state) (p : string * string)
  : edge_state :=
  mkEdges (incr p (edges st))
    (if PyStr.truthy excerpt
        && (length (default [] (edge_examples st !! p)) <? 3)
     then <[p := default [] (edge_examples st !! p) ++ [excerpt]]> (edge_examples st)
     else edge_examples st).

(** The body of [for thread_id, body, all_persons in email_persons]. *)
Definition add_email (valid : gset string) (st : edge_state)
    (item : string * option string * gset string) : edge_state :=
  let persons_in_email := filter (λ p, p ∈ valid) item.2 in
  let persons_list := sorted persons_in_email in
  foldl (add_pair (excerpt_of item.1.2)) st (combinations2 persons_list).

Definition build_edges (emails : list email) : edge_state :=
  foldl (add_email (valid_persons emails)) (mkEdges ∅ ∅) (email_persons emails).

(** [for (p1, p2), weight in edges.items():
    if weight >= min_edge_weight: G.add_edge(p1, p2, weight=weight)] *)
Definition graph_of_edges (es : gmap (string * string) nat) : graph :=
  map_fold (λ p w G, if min_edge_weight <=? w then add_edge p.1 p.2 w G else G)
    empty_graph es.

(** The graph after [G.remove_nodes_from(list(nx.isolates(G)))]. *)
Definition build_graph (emails : list email) : graph :=
  let G := graph_of_edges (edges (build_edges emails)) in
  remove_nodes_from (isolates G) G.
End main.

(** The thresholds of the script. *)
Definition main (name_mapping : gmap string (option string)) (emails : list email)
  : graph := build_graph name_mapping 4 1 emails.

(** *** The tables [FINAL_5_network_edges] and [FINAL_5_network_nodes] *)

(** The rows of the edge table, by pair: the weight and the joined
    examples of every pair of the counter whose two ends are nodes of the
    graph.  The script writes the two tables under
    [if G.number_of_nodes() > 0]; without a node there is no row to
    write. *)
Definition edge_rows (G : graph) (st : edge_state)
  : gmap (string * string) (nat * string) :=
  map_imap (λ p w,
              if bool_decide (p.1 ∈ nodes G ∧ p.2 ∈ nodes G)
              then Some (w, String.concat " | " (default [] (edge_examples st !! p)))
              else None) (edges st).

(** The rows of the node table, by name: [person_counts[node]] and
    [G.degree(node)] (the community is computed outside). *)
Definition node_rows (counts : gmap string nat) (G : graph)
  : gmap string (nat * nat) :=
  set_to_map (λ node, (node, (count counts node, degree G node))) (nodes G).

End BuildNetwork.

(** ** The earlier builder, [scripts/build_network.py] *)

Module LegacyNetwork.
Import BuildNetwork.

(** One discussion of [epstein_discussions_filtered.json]; a missing key
    reads as the empty list or the empty string. *)
Record discussion := mkDiscussion {
  senders : list string;
  receivers : list string;
  people_mentioned : list string;
  subject : string
}.

Section main.
(** [name_matching_table.json] and [names_to_remove.json] *)
Variable name_mapping : gmap string string.
Variable exclude : gset string.
Variables (min_occurrences min_edge_weight : nat).

Definition consolidate_name (name : string) : option string :=
  if negb (PyStr.truthy name) then None
  else
    let cleaned := name in
    let cleaned := if PyStr.contains "<" cleaned
                   then PyStr.strip (PyStr.before "<" cleaned) else cleaned in
    let cleaned := if PyStr.contains "[" cleaned
                   then PyStr.strip (PyStr.before "[" cleaned) else cleaned in
    (* the double quote, code 34, then the single quote *)
    let cleaned := PyStr.strip (PyStr.strip_where (Ascii.eqb "034") cleaned) in
    let quote := Ascii.eqb "'" in
    match List.find (λ variant, bool_decide (is_Some (name_mapping !! variant)))
            [name; cleaned; PyStr.strip_where quote cleaned;
             PyStr.strip_where quote name] with
    | Some variant =>
        match name_mapping !! variant with
        | Some m => if bool_decide (m = "GARBAGE") then None else Some m
        | None => None
        end
    | None => if PyStr.truthy cleaned then Some cleaned else None
    end.

Definition mentioned (disc : discussion) : list string :=
  senders disc ++ receivers disc ++ people_mentioned disc.

(** [all_persons] of the first loop. *)
Definition persons_of (disc : discussion) : gset string :=
  foldl (λ all_persons p,
           match consolidate_name p with
           | Some consolidated =>
               if PyStr.truthy consolidated then {[consolidated]} ∪ all_persons
               else all_persons
           | None => all_persons
           end) ∅ (mentioned disc).

Definition person_counts (data : list discussion) : gmap string nat :=
  foldl (λ counts disc, set_fold incr counts (persons_of disc)) ∅ data.

Definition valid_persons (data : list discussion) : gset string :=
  dom (filter (λ pc, min_occurrences ≤ pc.2 ∧ (pc.1 ∉ exclude)
                     ∧ 2 < String.length pc.1) (person_counts data)).

(** [all_persons] of the second loop, restricted to [valid_persons]. *)
Definition valid_persons_of (valid : gset string) (disc : discussion) : gset string :=
  foldl (λ all_persons p,
           match consolidate_name p with
           | Some consolidated =>
               if PyStr.truthy consolidated && bool_decide (consolidated ∈ valid)
               then {[consolidated]} ∪ all_persons
               else all_persons
           | None => all_persons
           end) ∅ (mentioned disc).

Definition add_discussion (valid : gset string) (st : edge_state)
    (disc : discussion) : edge_state :=
  let persons_list := sorted (valid_persons_of valid disc) in
  foldl (add_pair (String.substring 0 80 (subject disc))) st
        (combinations2 persons_list).

Definition build_edges (data : list discussion) : edge_state :=
  foldl (add_discussion (valid_persons data)) (mkEdges ∅ ∅) data.

Definition build_graph (data : list discussion) : graph :=
  let G := graph_of_edges min_edge_weight (edges (build_edges data)) in
  remove_nodes_from (isolates G) G.
End main.

(** The thresholds of the script. *)
Definition main (name_mapping : gmap string string) (exclude : gset string)
    (data : list discussion) : graph :=
  build_graph name_mapping exclude 3 2 data.

End LegacyNetwork.

(** ** The table written by [create_unique_names.py] *)

Module UniqueNamesTable.
Import Corpus.

(** A row of [FINAL_3_unique_names] with its column [occurrences]. *)
Record counted_row := mkCounted {
  base : Table.row;
  occurrences : option nat
}.

(** [UPDATE t SET occurrences = count WHERE name_extracted = name] *)
Definition update_occurrences (name : string) (count : nat)
    (t : list counted_row) : list counted_row :=
  (λ r, if decide (Table.name_extracted (base r) = name)
        then mkCounted (base r) (Some count) else r) <$> t.

(** The writing half of [main]: when the table exists its rows are
    updated in place, otherwise it is created from the sorted names. *)
Definition main (existing : option (list counted_row)) (rows : list email)
  : list counted_row :=
  let name_threads := CreateUniqueNames.name_threads rows in
  match existing with
  | Some t =>
      map_fold (λ name threads t, update_occurrences name (size threads) t)
        t name_threads
  | None =>
      (λ name, mkCounted (Table.mkRow name None None None)
                 (Some (CreateUniqueNames.name_counts rows name)))
        <$> BuildNetwork.sorted (dom name_threads)
  end.

End UniqueNamesTable.

(** ** [enrich_network_tables.py] *)

Module EnrichNetwork.
Import Corpus.

(** [SELECT name_extracted ... WHERE "canonical_name [F2d]" = ?] *)
Definition variants_of (canonical_name : string) (t : Table.table) : list string :=
  Table.name_extracted
    <$> List.filter (λ r, bool_decide (Table.canonical_F2d r = Some canonical_name)) t.

(** [if any(v in names for v in variants): thread_ids.add(thread_id)] *)
Definition add_thread (variants : list string) (thread_ids : gset string)
    (row : email) : gset string :=
  match names_mentioned row with
  | Some names =>
      if existsb (λ v, bool_decide (v ∈ names)) variants
      then {[thread_id row]} ∪ thread_ids
      else thread_ids
  | None => thread_ids
  end.

Definition get_discussion_ids_for_person (canonical_name : string)
    (t : Table.table) (emails : list email) : list string :=
  match variants_of canonical_name t with
  | [] => []
  | variants => BuildNetwork.sorted (foldl (add_thread variants) ∅ emails)
  end.

(** [all_members[:10]] of [create_community_table] *)
Definition top_10 (all_members : list string) : list string := take 10 all_members.

End EnrichNetwork.

(** ** [run_pipeline.py] *)

Module Pipeline.

(** [steps] of [main]: the name of a step and its script. *)
Definition steps : list (string * string) :=
  [ ("F1: Name Extraction", "run_name_extraction.py");
    ("Create Unique Names", "create_unique_names.py");
    ("F2: Name Consolidation", "run_name_consolidation.py");
    ("Build Network", "build_network.py");
    ("F3: Relationship Description", "run_relationship_description.py");
    ("F4: Cluster Analysis", "analyze_clusters.py") ].

(** The loop of [main] over the steps, with its [break]: [results] gets
    the name and the outcome of every step that was run.  [run_script]
    tells whether the script returned the code 0. *)
Fixpoint run_steps (run_script : string → string → bool)
    (steps : list (string * string)) : list (string * bool) :=
  match steps with
  | [] => []
  | (name, script) :: rest =>
      if run_script name script
      then (name, true) :: run_steps run_script rest
      else [(name, false)]
  end.

Definition main (run_script : string → string → bool) : list (string * bool) :=
  run_steps run_script steps.

End Pipeline.

(** ** Notions of the specification *)

Module Spec.

(** What the sequence of [UPDATE]s of [Consolidation.apply_changes] does to
    one cell: every pair whose old name is the current value renames it. *)
Definition rename (all_changes : PyDict.t string string) (v : string) : string :=
  foldl (λ v kv, if decide (v = kv.1) then kv.2 else v) v all_changes.

(** No new name of the changes is an old name that the changes rename to
    something else. *)
Definition chain_free (all_changes : PyDict.t string string) : Prop :=
  ∀ old new new', (old, new) ∈ all_changes → (new, new') ∈ all_changes → new' = new.

(** The last new name given to [old] in a sequence of assignments. *)
Definition last_assignment (old : string) (pairs : list (string * string))
  : option string :=
  snd <$> last (List.filter (λ kv, bool_decide (kv.1 = old)) pairs).

(** The names of a list that have the normal form [norm], in the order of
    the list. *)
Definition with_normal_form (norm : string) (names : list string) : list string :=
  List.filter (λ n, bool_decide (CandidateMatcher.normalize_name n = norm)) names.

(** The distinct threads among the rows that satisfy [P]. *)
Definition threads_where (P : Corpus.email → bool) (rows : list Corpus.email)
  : gset string :=
  list_to_set (Corpus.thread_id <$> List.filter P rows).

(** The row lists a raw name that [create_unique_names.py] counts under
    [name]: a non-blank name whose stripped text is [name]. *)
Definition mentions_raw (name : string) (row : Corpus.email) : bool :=
  match Corpus.names_mentioned row with
  | Some names =>
      existsb (λ raw, PyStr.truthy raw && PyStr.truthy (PyStr.strip raw)
                      && bool_decide (PyStr.strip raw = name)) names
  | None => false
  end.

(** The row lists a variant mapped to the entity [p]: a raw name that the
    mapping binds to [p]. *)
Definition mentions_entity (name_mapping : gmap string (option string))
    (p : string) (row : Corpus.email) : bool :=
  match Corpus.names_mentioned row with
  | Some names =>
      existsb (λ raw, bool_decide (name_mapping !! raw = Some (Some p))) names
  | None => false
  end.

(** The row lists a variant mapped to [p] that is itself not empty and not
    one of [EXCLUDED_NAMES]. *)
Definition mentions_kept_variant (name_mapping : gmap string (option string))
    (p : string) (row : Corpus.email) : bool :=
  match Corpus.names_mentioned row with
  | Some names =>
      existsb (λ raw, PyStr.truthy raw
                      && negb (bool_decide (raw ∈ BuildNetwork.EXCLUDED_NAMES))
                      && bool_decide (name_mapping !! raw = Some (Some p))) names
  | None => false
  end.

(** An entity that the builder can count: a canonical name that is not
    empty, not the sentinel ["None"] and not one of [EXCLUDED_NAMES]. *)
Definition countable_entity (p : string) : Prop :=
  p ≠ "" ∧ p ≠ "None" ∧ p ∉ BuildNetwork.EXCLUDED_NAMES.

(** What the loops of [find_potential_duplicates] keep true of
    [potential_groups]: a key has at least two tokens, and every name
    filed under it has all the tokens of the key. *)
Definition groups_sound (pg : CandidateMatcher.groups_dict) : Prop :=
  ∀ key grp, (key, grp) ∈ pg →
    2 ≤ size key ∧ ∀ n, n ∈ grp → key ⊆ CandidateMatcher.tokenize_name n.


End Spec.

(** ** Invariants of the code *)

Module Inv.

(** The list does not begin with a character that [p] removes. *)
Definition no_lead (p : ascii → bool) (l : list ascii) : Prop :=
  match l with [] => True | x :: _ => p x = false end.

(** What holds of every entry of [name_threads]: the key is a non-empty
    stripped name and its set of threads is not empty. *)
Definition key_ok (m : gmap string (gset string)) : Prop :=
  ∀ name threads, m !! name = Some threads →
    name ≠ "" ∧ PyStr.strip name = name ∧ threads ≠ ∅.

(** What holds of every entry of [edge_examples]: at most three
    excerpts, not more than the weight of the pair, each of them true
    (not empty) and with the property [Q] of the excerpts added. *)
Definition examples_ok (Q : string → Prop) (st : BuildNetwork.edge_state) : Prop :=
  ∀ p l, BuildNetwork.edge_examples st !! p = Some l →
    l ≠ [] ∧ length l ≤ 3
    ∧ length l ≤ BuildNetwork.count (BuildNetwork.edges st) p
    ∧ ∀ x, x ∈ l → x ≠ "" ∧ Q x.

(** What the loops of [find_potential_duplicates] keep true of
    [potential_groups], besides [Spec.groups_sound]: every group has two
    names at least, all of them taken from the input. *)
Definition groups_ok (names : list string) (pg : CandidateMatcher.groups_dict)
  : Prop :=
  ∀ key grp, (key, grp) ∈ pg → 2 ≤ size grp ∧ ∀ n, n ∈ grp → n ∈ names.

(** A processed pair with two shared tokens has left a group. *)
Definition pairs_ok (name_tokens : gmap string (gset string))
    (st : CandidateMatcher.pairs_state) : Prop :=
  ∀ x y, (x, y) ∈ CandidateMatcher.processed_pairs st →
    2 ≤ size (default ∅ (name_tokens !! x) ∩ default ∅ (name_tokens !! y)) →
    CandidateMatcher.potential_groups st ≠ [].

End Inv.

(** * Properties *)

(** ** The order on strings *)

Lemma str_lt_iff (s t : string) : PyStr.lt s t ↔ String_as_OT.lt s t.
Proof.
  unfold PyStr.lt, String.ltb. rewrite <- String_as_OT.cmp_lt.
  unfold String_as_OT.cmp. destruct (String.compare s t); naive_solver.
Qed.

Lemma str_le_iff (s t : string) : PyStr.le s t ↔ s = t ∨ PyStr.lt s t.
Proof.
  unfold PyStr.le, PyStr.lt, String.leb, String.ltb.
  destruct (String.compare s t) eqn:Hc.
  - apply String.compare_eq_iff in Hc. naive_solver.
  - naive_solver.
  - split; [done|]. intros [->|?]; [|done].
    pose proof (proj2 (String_as_OT.cmp_eq t t) eq_refl) as Heq.
    unfold String_as_OT.cmp in Heq. congruence.
Qed.

Lemma str_lt_irrefl (s : string) : ¬ PyStr.lt s s.
Proof. rewrite str_lt_iff. intros H. by apply String_as_OT.lt_not_eq in H. Qed.

Lemma str_lt_trans (s t u : string) : PyStr.lt s t → PyStr.lt t u → PyStr.lt s u.
Proof. rewrite !str_lt_iff. apply String_as_OT.lt_trans. Qed.

Lemma str_lt_asym (s t : string) : PyStr.lt s t → ¬ PyStr.lt t s.
Proof. intros H1 H2. exact (str_lt_irrefl s (str_lt_trans _ _ _ H1 H2)). Qed.

#[global] Instance str_le_total : Total PyStr.le.
Proof. intros s t. apply String.leb_total. Qed.

#[global] Instance str_le_trans : Transitive PyStr.le.
Proof.
  intros s t u. rewrite !str_le_iff.
  intros [->|H1] [->|H2]; eauto using str_lt_trans.
Qed.

(** ** The exclusion set of the network build *)

Section consolidate_name_facts.
Import BuildNetwork.
Variable name_mapping : gmap string (option string).

Lemma consolidate_name_None_person (name : string) (s : gset string) :
  consolidate_name name_mapping name = None →
  add_person name_mapping s name = s.
Proof. unfold add_person. by intros ->. Qed.

Lemma consolidate_name_excluded_raw (name : string) :
  name ∈ EXCLUDED_NAMES → consolidate_name name_mapping name = None.
Proof.
  intros Hin. unfold consolidate_name.
  destruct (negb (PyStr.truthy name)); [done|].
  destruct (mapping_get name_mapping name) as [canonical|]; [|done].
  case_bool_decide; [done|].
  rewrite (bool_decide_true (name ∈ EXCLUDED_NAMES)) by done.
  by rewrite orb_true_r.
Qed.

Lemma consolidate_name_excluded_canonical (name canonical : string) :
  mapping_get name_mapping name = Some canonical →
  canonical ∈ EXCLUDED_NAMES → consolidate_name name_mapping name = None.
Proof.
  intros Hget Hin. unfold consolidate_name. rewrite Hget.
  destruct (negb (PyStr.truthy name)); [done|].
  case_bool_decide; [done|].
  by rewrite (bool_decide_true (canonical ∈ EXCLUDED_NAMES)) by done.
Qed.

Lemma consolidate_name_absent (name : string) :
  name_mapping !! name = None → consolidate_name name_mapping name = None.
Proof.
  intros Hnone. unfold consolidate_name, mapping_get. rewrite Hnone. simpl.
  by destruct (negb (PyStr.truthy name)).
Qed.
End consolidate_name_facts.

(** C10: in the final network build, [consolidate_name] returns no entity
    as soon as the raw name or the canonical name it is mapped to belongs
    to [EXCLUDED_NAMES], whatever the other of the two is; the mention then
    adds nothing to the persons of its e-mail. *)
Theorem consolidate_name_exclusion
    (name_mapping : gmap string (option string)) (name : string) :
  name ∈ BuildNetwork.EXCLUDED_NAMES
  ∨ (∃ canonical, name_mapping !! name = Some (Some canonical)
                  ∧ canonical ∈ BuildNetwork.EXCLUDED_NAMES) →
  BuildNetwork.consolidate_name name_mapping name = None
  ∧ ∀ all_persons, BuildNetwork.add_person name_mapping all_persons name = all_persons.
Proof.
  intros H.
  assert (BuildNetwork.consolidate_name name_mapping name = None) as Hnone.
  { destruct H as [Hraw|(canonical & Hget & Hin)].
    - by apply consolidate_name_excluded_raw.
    - apply (consolidate_name_excluded_canonical _ _ canonical); [|done].
      unfold BuildNetwork.mapping_get. by rewrite Hget. }
  split; [done|]. intros s. by apply consolidate_name_None_person.
Qed.

Lemma consolidate_name_exclusion_witness :
  BuildNetwork.consolidate_name {["JE" := Some "Bill Gates"]} "JE" = None
  ∧ BuildNetwork.consolidate_name {["Mr. E" := Some "Jeff Epstein"]} "Mr. E" = None.
Proof.
  split.
  - apply (consolidate_name_exclusion {["JE" := Some "Bill Gates"]} "JE").
    left. compute_done.
  - apply (consolidate_name_exclusion {["Mr. E" := Some "Jeff Epstein"]} "Mr. E").
    right. exists "Jeff Epstein". split.
    + compute_done.
    + compute_done.
Defined.

(** ** Names without an entry in the mapping *)

Lemma run_consolidation_written (results : list Consolidation.grouping)
    (t : Table.table) :
  Consolidation.build_consolidation_map results ≠ [] →
  Consolidation.run_consolidation results t
  = (λ r, Table.set Table.F2
            (Some (default (Table.name_extracted r)
                     (Consolidation.reverse_mapping
                        (Consolidation.build_consolidation_map results)
                      !! Table.name_extracted r))) r) <$> t.
Proof.
  intros Hne. unfold Consolidation.run_consolidation.
  by destruct (Consolidation.build_consolidation_map results).
Qed.

(** The claim C3 fails in the network build: a name without a row in the
    mapping is dropped, it does not stand for itself. *)
Lemma absent_name_dropped_by_build_network :
  let name_mapping : gmap string (option string) := {["Bob" := Some "Bob"]} in
  let e := Corpus.mkEmail "T1" None (Some ["Alice"; "Bob"]) in
  name_mapping !! "Alice" = None
  ∧ BuildNetwork.consolidate_name name_mapping "Alice" ≠ Some "Alice"
  ∧ "Alice" ∉ BuildNetwork.persons_of name_mapping e.
Proof. repeat split; compute_done. Qed.

(** C3, as the code has it: the first consolidation pass, once a call of
    the model has succeeded, gives a raw name that no answer lists as a
    variant its own text as canonical name; the network build gives no
    entity to a raw name that has no entry in the loaded mapping, and the
    mention adds nothing to the persons of its e-mail.  Neither raises an
    error. *)
Theorem absent_name_identity_in_first_pass_dropped_in_build
    (results : list Consolidation.grouping) (t : Table.table) (i : nat)
    (r : Table.row) (name_mapping : gmap string (option string)) (name : string) :
  Consolidation.build_consolidation_map results ≠ [] →
  t !! i = Some r →
  Consolidation.reverse_mapping (Consolidation.build_consolidation_map results)
    !! Table.name_extracted r = None →
  name_mapping !! name = None →
  (∃ r', Consolidation.run_consolidation results t !! i = Some r'
         ∧ Table.name_extracted r' = Table.name_extracted r
         ∧ Table.canonical_F2 r' = Some (Table.name_extracted r))
  ∧ BuildNetwork.consolidate_name name_mapping name = None
  ∧ ∀ all_persons, BuildNetwork.add_person name_mapping all_persons name = all_persons.
Proof.
  intros Hne Hi Hvar Hnone. split; [|split].
  - rewrite run_consolidation_written by done.
    rewrite list_lookup_fmap, Hi. simpl. eexists; split; [done|].
    by rewrite Hvar.
  - by apply consolidate_name_absent.
  - intros s. by apply consolidate_name_None_person, consolidate_name_absent.
Qed.

Lemma absent_name_identity_in_first_pass_dropped_in_build_witness :
  let results := [[("Ghislaine Maxwell", ["Maxwell"; "G. Maxwell"])]] in
  let t := [Table.mkRow "Maxwell" None None None; Table.mkRow "Alice" None None None] in
  (∃ r', Consolidation.run_consolidation results t !! 1 = Some r'
         ∧ Table.name_extracted r' = "Alice"
         ∧ Table.canonical_F2 r' = Some "Alice")
  ∧ BuildNetwork.consolidate_name ∅ "Alice" = None
  ∧ ∀ all_persons, BuildNetwork.add_person ∅ all_persons "Alice" = all_persons.
Proof.
  intros results t.
  apply (absent_name_identity_in_first_pass_dropped_in_build
           results t 1 (Table.mkRow "Alice" None None None) ∅ "Alice").
  - vm_compute. discriminate.
  - reflexivity.
  - vm_compute. reflexivity.
  - reflexivity.
Defined.

(** ** Columns and generations *)

Section table_facts.
Import Table.

Lemma get_set (c : column) (v : option string) (r : row) : get c (set c v r) = v.
Proof. by destruct c. Qed.

Lemma get_set_ne (c c' : column) (v : option string) (r : row) :
  c ≠ c' → get c' (set c v r) = get c' r.
Proof. by destruct c, c'. Qed.

Lemma set_get (c : column) (r : row) : set c (get c r) r = r.
Proof. by destruct c, r. Qed.

Lemma set_set (c : column) (v v' : option string) (r : row) :
  set c v (set c v' r) = set c v r.
Proof. by destruct c. Qed.

Lemma name_extracted_set (c : column) (v : option string) (r : row) :
  name_extracted (set c v r) = name_extracted r.
Proof. by destruct c. Qed.

(** A pass that rewrites the rows one by one, keeping the names and the
    cells of column [c], leaves the generation of [c] as it was. *)
Lemma generation_fmap (c : column) (f : row → row) (t : table) (raw : string) :
  (∀ r, name_extracted (f r) = name_extracted r) →
  (∀ r, get c (f r) = get c r) →
  generation c (f <$> t) raw = generation c t raw.
Proof.
  intros Hname Hget. unfold generation.
  induction t as [|r t IH]; [done|]. simpl. rewrite Hname.
  case_bool_decide; simpl; [by rewrite Hget|done].
Qed.

(** The effect of the sequence of [UPDATE]s on one row. *)
Lemma apply_changes_rows (c : column) (all_changes : PyDict.t string string)
    (t : table) :
  Consolidation.apply_changes c all_changes t
  = (λ r, set c (Spec.rename all_changes <$> get c r) r) <$> t.
Proof.
  unfold Consolidation.apply_changes, Spec.rename.
  revert t. induction all_changes as [|[old new] R IH]; intros t; simpl.
  - rewrite <- (list_fmap_id t) at 1. apply list_fmap_ext. intros _ r _.
    simpl. destruct (get c r) eqn:Hget; simpl; by rewrite <- Hget, set_get.
  - rewrite IH. unfold update_where. rewrite <- list_fmap_compose.
    apply list_fmap_ext. intros _ r _. simpl.
    destruct (decide (get c r = Some old)) as [Heq|Hne].
    + rewrite get_set, set_set, Heq. simpl. by rewrite decide_True.
    + destruct (get c r) as [v|]; simpl; [|done].
      rewrite decide_False; [done|congruence].
Qed.

Lemma copy_where_null_rows (dst src : column) (t : table) :
  copy_where_null dst src t
  = (λ r, set dst (if decide (get dst r = None) then get src r else get dst r) r) <$> t.
Proof.
  unfold copy_where_null. apply list_fmap_ext. intros _ r _.
  destruct (decide (get dst r = None)); [done|]. by rewrite set_get.
Qed.

Lemma generation_apply_changes (c c' : column)
    (all_changes : PyDict.t string string) (t : table) (raw : string) :
  c ≠ c' →
  generation c' (Consolidation.apply_changes c all_changes t) raw
  = generation c' t raw.
Proof.
  intros Hne. rewrite apply_changes_rows. apply generation_fmap; intros r.
  - apply name_extracted_set.
  - by apply get_set_ne.
Qed.

Lemma generation_copy_where_null (dst src c' : column) (t : table) (raw : string) :
  dst ≠ c' →
  generation c' (copy_where_null dst src t) raw = generation c' t raw.
Proof.
  intros Hne. rewrite copy_where_null_rows. apply generation_fmap; intros r.
  - apply name_extracted_set.
  - by apply get_set_ne.
Qed.
End table_facts.

(** The claim C2 fails for the second pass, which writes its changes over
    the column of the generation it reads. *)
Lemma second_pass_overwrites_its_input :
  let t := [Table.mkRow "Bill" (Some "Bill Gates") None None;
            Table.mkRow "William Gates" (Some "William Gates") None None] in
  let call_sonnet := λ _ : list string, [("William Gates", "Bill Gates")] in
  Table.generation Table.F2 (Consolidation.run_consolidation_v2 call_sonnet t)
    "William Gates"
  ≠ Table.generation Table.F2 t "William Gates".
Proof. vm_compute. discriminate. Qed.

(** C2, as the code has it: the third and the fourth pass write a column
    of their own (F2c, F2d) and leave every earlier generation as it was,
    for every raw name and whatever the model answers; the second pass
    rewrites column F2 in place. *)
Theorem later_passes_keep_their_input_generation
    (iter : gset string → list string)
    (call_sonnet : list (list string) → Consolidation.response)
    (t : Table.table) (raw : string) :
  Table.generation Table.F2 (Consolidation.run_consolidation_v3 iter call_sonnet t) raw
  = Table.generation Table.F2 t raw
  ∧ Table.generation Table.F2c (Consolidation.run_consolidation_v4 call_sonnet t) raw
    = Table.generation Table.F2c t raw
  ∧ Table.generation Table.F2 (Consolidation.run_consolidation_v4 call_sonnet t) raw
    = Table.generation Table.F2 t raw
  ∧ Table.name_extracted <$> Consolidation.run_consolidation_v3 iter call_sonnet t
    = Table.name_extracted <$> t
  ∧ Table.name_extracted <$> Consolidation.run_consolidation_v4 call_sonnet t
    = Table.name_extracted <$> t.
Proof.
  unfold Consolidation.run_consolidation_v3, Consolidation.run_consolidation_v4,
    Consolidation.write_v3, Consolidation.write_v4.
  repeat split.
  - destruct (CandidateMatcher.find_potential_duplicates _ _); [done|].
    by rewrite generation_apply_changes, generation_copy_where_null.
  - destruct (CandidateMatcher.find_suffix_duplicates _); [done|].
    by rewrite generation_apply_changes, generation_copy_where_null.
  - destruct (CandidateMatcher.find_suffix_duplicates _); [done|].
    by rewrite generation_apply_changes, generation_copy_where_null.
  - destruct (CandidateMatcher.find_potential_duplicates _ _); [done|].
    rewrite apply_changes_rows, copy_where_null_rows, <- !list_fmap_compose.
    apply list_fmap_ext. intros _ r _. simpl.
    by rewrite ?name_extracted_set.
  - destruct (CandidateMatcher.find_suffix_duplicates _); [done|].
    rewrite apply_changes_rows, copy_where_null_rows, <- !list_fmap_compose.
    apply list_fmap_ext. intros _ r _. simpl.
    by rewrite ?name_extracted_set.
Qed.

(** ** Insertion-ordered dictionaries *)

Section pydict_facts.
Context {K V : Type} `{EqDecision K}.
Implicit Types (d : PyDict.t K V) (k : K) (v : V).

Lemma pydict_get_set d k v k' :
  PyDict.get (PyDict.set d k v) k' = if decide (k = k') then Some v else PyDict.get d k'.
Proof.
  induction d as [|[k0 v0] d IH]; simpl.
  - by destruct (decide (k = k')).
  - destruct (decide (k0 = k)) as [->|Hne]; simpl.
    + by destruct (decide (k = k')).
    + rewrite IH. destruct (decide (k0 = k')) as [->|]; [|done].
      by rewrite decide_False.
Qed.

Lemma pydict_keys_set d k v :
  PyDict.keys (PyDict.set d k v)
  = if decide (k ∈ PyDict.keys d) then PyDict.keys d else PyDict.keys d ++ [k].
Proof.
  unfold PyDict.keys. induction d as [|[k0 v0] d IH].
  - destruct (decide (k ∈ ([] : list (K * V)).*1)) as [Hin|_]; [|done].
    by apply elem_of_nil in Hin.
  - csimpl. destruct (decide (k0 = k)) as [->|Hne]; csimpl.
    + destruct (decide (k ∈ k :: d.*1)) as [|Hnin]; [done|].
      destruct Hnin. apply elem_of_cons; auto.
    + rewrite IH. destruct (decide (k ∈ d.*1)) as [Hin|Hnin];
        destruct (decide (k ∈ k0 :: d.*1)) as [Hin'|Hnin']; try done.
      * destruct Hnin'. apply elem_of_cons; auto.
      * apply elem_of_cons in Hin' as [->|?]; [by destruct Hne|done].
Qed.

Lemma pydict_set_NoDup d k v :
  NoDup (PyDict.keys d) → NoDup (PyDict.keys (PyDict.set d k v)).
Proof.
  intros Hnd. rewrite pydict_keys_set. case_decide; [done|].
  apply NoDup_app. split_and!; [done| |apply NoDup_singleton].
  intros x Hx Hx'. apply list_elem_of_singleton in Hx'. by subst.
Qed.

Lemma pydict_update_NoDup d (other : list (K * V)) :
  NoDup (PyDict.keys d) → NoDup (PyDict.keys (PyDict.update d other)).
Proof.
  unfold PyDict.update. revert d.
  induction other as [|[k v] other IH]; intros d Hnd; simpl; [done|].
  by apply IH, pydict_set_NoDup.
Qed.

(** In a dictionary, [get] finds the one pair with the key. *)
Lemma pydict_get_Some d k v :
  NoDup (PyDict.keys d) → PyDict.get d k = Some v ↔ (k, v) ∈ d.
Proof.
  unfold PyDict.keys. induction d as [|[k0 v0] d IH]; simpl; intros Hnd.
  - split; [done|]. by intros ?%elem_of_nil.
  - apply NoDup_cons in Hnd as [Hnin Hnd]. rewrite elem_of_cons.
    destruct (decide (k0 = k)) as [->|Hne].
    + split; [intros [= ->]; by left|]. intros [[= ->]|Hin]; [done|].
      destruct Hnin. apply list_elem_of_fmap. by exists (k, v).
    + rewrite IH by done. split; [by right|]. intros [?|?]; [congruence|done].
Qed.

Lemma pydict_get_None d k : PyDict.get d k = None ↔ k ∉ PyDict.keys d.
Proof.
  unfold PyDict.keys. induction d as [|[k0 v0] d IH]; simpl.
  - split; [intros _; apply not_elem_of_nil|done].
  - rewrite not_elem_of_cons.
    destruct (decide (k0 = k)) as [->|Hne]; [split; [done|by intros [? _]]|].
    rewrite IH. split; [intros ?; split; [congruence|done]|by intros [_ ?]].
Qed.

Lemma pydict_get_elem_of d k v : PyDict.get d k = Some v → (k, v) ∈ d.
Proof.
  induction d as [|[k0 v0] d IH]; simpl; [done|].
  destruct (decide (k0 = k)) as [->|Hne].
  - intros [= ->]. apply elem_of_cons; auto.
  - intros ?. apply elem_of_cons; auto.
Qed.

Lemma pydict_get_perm d d' k :
  NoDup (PyDict.keys d) → d ≡ₚ d' → PyDict.get d' k = PyDict.get d k.
Proof.
  intros Hnd Hperm.
  assert (NoDup (PyDict.keys d')) as Hnd'.
  { unfold PyDict.keys in *. by rewrite <- Hperm. }
  destruct (PyDict.get d k) as [v|] eqn:Hget.
  - apply pydict_get_Some; [done|]. rewrite <- Hperm. by apply pydict_get_Some.
  - apply pydict_get_None. apply pydict_get_None in Hget.
    unfold PyDict.keys in *. by rewrite <- Hperm.
Qed.
End pydict_facts.

(** ** Collecting the answers *)

Lemma last_assignment_nil (old : string) : Spec.last_assignment old [] = None.
Proof. done. Qed.

Lemma last_assignment_app (old : string) (l1 l2 : list (string * string)) :
  Spec.last_assignment old (l1 ++ l2)
  = match Spec.last_assignment old l2 with
    | Some new => Some new
    | None => Spec.last_assignment old l1
    end.
Proof.
  unfold Spec.last_assignment. rewrite List.filter_app.
  destruct (List.filter _ l2) as [|kv l] using rev_ind.
  - by rewrite app_nil_r.
  - by rewrite app_assoc, !last_snoc.
Qed.

Lemma last_assignment_cons (old : string) (kv : string * string)
    (l : list (string * string)) :
  Spec.last_assignment old (kv :: l)
  = match Spec.last_assignment old l with
    | Some new => Some new
    | None => if decide (kv.1 = old) then Some kv.2 else None
    end.
Proof.
  change (kv :: l) with ([kv] ++ l). rewrite last_assignment_app.
  destruct (Spec.last_assignment old l); [done|].
  unfold Spec.last_assignment. simpl.
  case_bool_decide; by case_decide.
Qed.

Lemma pydict_get_update (d : PyDict.t string string)
    (other : list (string * string)) (old : string) :
  PyDict.get (PyDict.update d other) old
  = match Spec.last_assignment old other with
    | Some new => Some new
    | None => PyDict.get d old
    end.
Proof.
  unfold PyDict.update. revert d.
  induction other as [|[k v] other IH]; intros d; simpl; [done|].
  rewrite IH, last_assignment_cons, pydict_get_set. simpl.
  destruct (Spec.last_assignment old other); [done|]. by case_decide.
Qed.

(** On a dictionary the last assignment of a key is its only one. *)
Lemma last_assignment_dict (d : PyDict.t string string) (old : string) :
  NoDup (PyDict.keys d) → Spec.last_assignment old d = PyDict.get d old.
Proof.
  unfold PyDict.keys. induction d as [|[k v] d IH]; csimpl; intros Hnd; [done|].
  apply NoDup_cons in Hnd as [Hnin Hnd].
  rewrite last_assignment_cons, IH by done. simpl.
  destruct (decide (k = old)) as [->|Hne]; [|by destruct (PyDict.get d old)].
  apply pydict_get_None in Hnin. by rewrite Hnin.
Qed.

Lemma collect_changes_step (all_changes : PyDict.t string string)
    (changes : list (string * string)) (old : string) :
  PyDict.get
    (match PyDict.update [] changes with
     | [] => all_changes
     | parsed => PyDict.update all_changes parsed
     end) old
  = match Spec.last_assignment old changes with
    | Some new => Some new
    | None => PyDict.get all_changes old
    end.
Proof.
  assert (PyDict.get (PyDict.update all_changes (PyDict.update [] changes)) old
          = match Spec.last_assignment old changes with
            | Some new => Some new
            | None => PyDict.get all_changes old
            end) as Hupd.
  { rewrite pydict_get_update, last_assignment_dict.
    - rewrite pydict_get_update. by destruct (Spec.last_assignment old changes).
    - apply pydict_update_NoDup. constructor. }
  destruct (PyDict.update [] changes) eqn:Hparsed; [|done].
  by rewrite <- Hupd.
Qed.

Lemma collect_changes_from (all_changes : PyDict.t string string)
    (responses : list Consolidation.response) (old : string) :
  PyDict.get
    (foldl (λ all_changes changes,
              match PyDict.update [] changes with
              | [] => all_changes
              | parsed => PyDict.update all_changes parsed
              end) all_changes responses) old
  = match Spec.last_assignment old (concat responses) with
    | Some new => Some new
    | None => PyDict.get all_changes old
    end.
Proof.
  revert all_changes.
  induction responses as [|changes responses IH]; intros all_changes; simpl; [done|].
  rewrite IH, last_assignment_app, collect_changes_step.
  by destruct (Spec.last_assignment old (concat responses)).
Qed.

(** The collected changes are a dictionary: no old name occurs twice. *)
Lemma collect_changes_NoDup (responses : list Consolidation.response) :
  NoDup (PyDict.keys (Consolidation.collect_changes responses)).
Proof.
  unfold Consolidation.collect_changes.
  induction responses as [|changes responses IH] using rev_ind; [constructor|].
  rewrite foldl_snoc. destruct (PyDict.update [] changes) eqn:Hparsed; [done|].
  by apply pydict_update_NoDup.
Qed.

(** The claim C4 fails: the second of two conflicting answers replaces the
    first, and the outcome is the one of a run that never saw the first,
    or that saw the second answer twice. *)
Lemma conflicting_answers_overwrite_silently :
  let responses := [[("Maxwell", "Ghislaine Maxwell")];
                    [("Maxwell", "Robert Maxwell")]] in
  PyDict.get (Consolidation.collect_changes responses) "Maxwell"
    = Some "Robert Maxwell"
  ∧ Consolidation.collect_changes responses
    = Consolidation.collect_changes [[("Maxwell", "Robert Maxwell")]]
  ∧ Consolidation.collect_changes responses
    = Consolidation.collect_changes
        [[("Maxwell", "Robert Maxwell")]; [("Maxwell", "Robert Maxwell")]].
Proof. split_and!; reflexivity. Qed.

(** C4, as the code has it: when the answers give the same old name
    several new names, within one answer or across the batches, the
    collected changes keep the last one; the earlier ones are overwritten
    and nothing records the conflict. *)
Theorem collect_changes_last_write_wins
    (responses : list Consolidation.response) (old : string) :
  PyDict.get (Consolidation.collect_changes responses) old
  = Spec.last_assignment old (concat responses).
Proof.
  unfold Consolidation.collect_changes. rewrite collect_changes_from. simpl.
  by destruct (Spec.last_assignment old (concat responses)).
Qed.

(** ** Applying the changes *)

Lemma chain_free_tail (kv : string * string) (R : PyDict.t string string) :
  Spec.chain_free (kv :: R) → Spec.chain_free R.
Proof.
  intros Hcf old new new' H1 H2.
  apply (Hcf old new new'); apply elem_of_cons; auto.
Qed.

Lemma chain_free_perm (R R' : PyDict.t string string) :
  R' ≡ₚ R → Spec.chain_free R → Spec.chain_free R'.
Proof.
  intros Hperm Hcf old new new' H1 H2.
  apply (Hcf old new new'); by rewrite <- Hperm.
Qed.

(** A value that the changes do not rename to anything else stays. *)
Lemma rename_fixed (R : PyDict.t string string) (v : string) :
  (∀ new, (v, new) ∈ R → new = v) → Spec.rename R v = v.
Proof.
  unfold Spec.rename. induction R as [|[old new] R IH]; intros Hfix; simpl; [done|].
  destruct (decide (v = old)) as [->|Hne].
  - rewrite (Hfix new) by (apply elem_of_cons; auto).
    apply IH. intros new' Hin. apply Hfix, elem_of_cons; auto.
  - apply IH. intros new' Hin. apply Hfix, elem_of_cons; auto.
Qed.

(** Without chains the sequence of [UPDATE]s is one simultaneous lookup. *)
Lemma rename_get (R : PyDict.t string string) (v : string) :
  Spec.chain_free R → Spec.rename R v = default v (PyDict.get R v).
Proof.
  revert v. induction R as [|[old new] R IH]; intros v Hcf; [done|].
  change (Spec.rename ((old, new) :: R) v)
    with (Spec.rename R (if decide (v = old) then new else v)).
  simpl. destruct (decide (v = old)) as [->|Hne].
  - rewrite decide_True by done. simpl. apply rename_fixed.
    intros new' Hin. apply (Hcf old new new'); apply elem_of_cons; auto.
  - rewrite decide_False by done. apply IH. by eapply chain_free_tail.
Qed.

Lemma rename_idempotent (R : PyDict.t string string) (v : string) :
  Spec.chain_free R → Spec.rename R (Spec.rename R v) = Spec.rename R v.
Proof.
  intros Hcf. rewrite (rename_get R v) by done.
  destruct (PyDict.get R v) as [new|] eqn:Hget; simpl.
  - apply rename_fixed. intros new' Hin.
    apply (Hcf v new new'); [|done]. by apply pydict_get_elem_of.
  - rewrite rename_get, Hget; done.
Qed.

Lemma rename_perm (R R' : PyDict.t string string) (v : string) :
  NoDup (PyDict.keys R) → Spec.chain_free R → R' ≡ₚ R →
  Spec.rename R' v = Spec.rename R v.
Proof.
  intros Hnd Hcf Hperm.
  rewrite !rename_get by eauto using chain_free_perm.
  by rewrite (pydict_get_perm R R').
Qed.

(** The claim C1 fails when a new name of the changes is also one of
    their old names: the outcome then depends on the order of the pairs,
    and a second application goes one step further along the chain. *)
Lemma chained_changes_not_idempotent :
  let G := [Table.mkRow "J. Smith" (Some "J. Smith") None None;
            Table.mkRow "John Smith" (Some "John Smith") None None] in
  let R := [("John Smith", "John A. Smith"); ("J. Smith", "John Smith")] in
  let R' := [("J. Smith", "John Smith"); ("John Smith", "John A. Smith")] in
  Consolidation.apply_changes Table.F2 R (Consolidation.apply_changes Table.F2 R G)
    ≠ Consolidation.apply_changes Table.F2 R G
  ∧ R' ≡ₚ R
  ∧ Consolidation.apply_changes Table.F2 R' G
    ≠ Consolidation.apply_changes Table.F2 R G.
Proof.
  intros G R R'. split_and!.
  - vm_compute. discriminate.
  - apply perm_swap.
  - vm_compute. discriminate.
Qed.

(** A pass that first fills its column from the previous one. *)
Lemma copy_apply_rows (dst src : Table.column) (R : PyDict.t string string)
    (G : Table.table) :
  Consolidation.apply_changes dst R (Table.copy_where_null dst src G)
  = (λ r, Table.set dst
            (Spec.rename R <$> (if decide (Table.get dst r = None)
                                then Table.get src r else Table.get dst r)) r) <$> G.
Proof.
  rewrite apply_changes_rows, copy_where_null_rows, <- list_fmap_compose.
  apply list_fmap_ext. intros _ r _. simpl. by rewrite get_set, set_set.
Qed.

Lemma copy_apply_idempotent (dst src : Table.column) (R : PyDict.t string string)
    (G : Table.table) :
  dst ≠ src → Spec.chain_free R →
  Consolidation.apply_changes dst R
    (Table.copy_where_null dst src
       (Consolidation.apply_changes dst R (Table.copy_where_null dst src G)))
  = Consolidation.apply_changes dst R (Table.copy_where_null dst src G).
Proof.
  intros Hne Hcf. rewrite !copy_apply_rows, <- list_fmap_compose.
  apply list_fmap_ext. intros _ r _. simpl.
  rewrite get_set, set_set, get_set_ne by done. f_equal.
  destruct (decide (Table.get dst r = None)) as [Hdst|Hdst].
  - destruct (Table.get src r) as [v|]; simpl; [|done].
    by rewrite rename_idempotent.
  - destruct (Table.get dst r) as [v|]; simpl; [|done].
    by rewrite rename_idempotent.
Qed.

Lemma copy_apply_perm (dst src : Table.column) (R R' : PyDict.t string string)
    (G : Table.table) :
  NoDup (PyDict.keys R) → Spec.chain_free R → R' ≡ₚ R →
  Consolidation.apply_changes dst R' (Table.copy_where_null dst src G)
  = Consolidation.apply_changes dst R (Table.copy_where_null dst src G).
Proof.
  intros Hnd Hcf Hperm. rewrite !copy_apply_rows.
  apply list_fmap_ext. intros _ r _. simpl. f_equal.
  destruct (if decide (Table.get dst r = None) then Table.get src r
            else Table.get dst r) as [v|]; simpl; [|done].
  by rewrite (rename_perm R R').
Qed.

(** C1, as the code has it: when no new name of the changes is an old
    name that the changes rename to something else, applying them twice
    to a generation gives what applying them once gives, and the result
    is the same for every order of the pairs.  This holds of the
    [UPDATE]s on any column, and of the writing halves of the third and
    of the fourth pass, which first fill their column. *)
Theorem apply_changes_idempotent_without_chains (c : Table.column)
    (R R' : PyDict.t string string) (G : Table.table) :
  NoDup (PyDict.keys R) → Spec.chain_free R → R' ≡ₚ R →
  (Consolidation.apply_changes c R (Consolidation.apply_changes c R G)
     = Consolidation.apply_changes c R G
   ∧ Consolidation.apply_changes c R' G = Consolidation.apply_changes c R G)
  ∧ (Consolidation.write_v3 R (Consolidation.write_v3 R G) = Consolidation.write_v3 R G
     ∧ Consolidation.write_v3 R' G = Consolidation.write_v3 R G)
  ∧ (Consolidation.write_v4 R (Consolidation.write_v4 R G) = Consolidation.write_v4 R G
     ∧ Consolidation.write_v4 R' G = Consolidation.write_v4 R G).
Proof.
  intros Hnd Hcf Hperm. split_and!.
  - rewrite !apply_changes_rows, <- list_fmap_compose.
    apply list_fmap_ext. intros _ r _. simpl.
    rewrite get_set, set_set. f_equal.
    destruct (Table.get c r) as [v|]; simpl; [|done].
    by rewrite rename_idempotent.
  - rewrite !apply_changes_rows.
    apply list_fmap_ext. intros _ r _. simpl. f_equal.
    destruct (Table.get c r) as [v|]; simpl; [|done].
    by rewrite (rename_perm R R').
  - by apply copy_apply_idempotent.
  - by apply copy_apply_perm.
  - by apply copy_apply_idempotent.
  - by apply copy_apply_perm.
Qed.

Lemma apply_changes_idempotent_without_chains_witness :
  let G := [Table.mkRow "J. Smith" (Some "J. Smith") None None;
            Table.mkRow "Bill" (Some "Bill Gates") None None] in
  let R := [("J. Smith", "John Smith"); ("Bill Gates", "William Gates")] in
  let R' := [("Bill Gates", "William Gates"); ("J. Smith", "John Smith")] in
  Consolidation.apply_changes Table.F2 R (Consolidation.apply_changes Table.F2 R G)
    = Consolidation.apply_changes Table.F2 R G
  ∧ Consolidation.apply_changes Table.F2 R' G
    = Consolidation.apply_changes Table.F2 R G.
Proof.
  intros G R R'.
  apply (apply_changes_idempotent_without_chains Table.F2 R R' G).
  - compute_done.
  - intros old new new' H1 H2.
    repeat (apply elem_of_cons in H1 as [H1|H1]);
      try (by apply elem_of_nil in H1);
      injection H1 as -> ->;
      repeat (apply elem_of_cons in H2 as [H2|H2]);
      try (by apply elem_of_nil in H2); by injection H2.
  - apply perm_swap.
Defined.

(** ** Suffix groups *)

Section suffix_groups.
Import CandidateMatcher.
#[local] Arguments normalize_name : simpl never.

Lemma with_normal_form_snoc (norm : string) (names : list string) (name : string) :
  Spec.with_normal_form norm (names ++ [name])
  = Spec.with_normal_form norm names
    ++ (if decide (normalize_name name = norm) then [name] else []).
Proof.
  unfold Spec.with_normal_form. rewrite List.filter_app. cbn [List.filter].
  case_bool_decide; by case_decide.
Qed.

Lemma elem_of_with_normal_form (norm : string) (names : list string) (n : string) :
  n ∈ Spec.with_normal_form norm names ↔ n ∈ names ∧ normalize_name n = norm.
Proof.
  unfold Spec.with_normal_form. rewrite !list_elem_of_In, List.filter_In.
  by rewrite bool_decide_eq_true.
Qed.

(** The dictionary [normalized_groups] after the loop. *)
Lemma normalized_groups_get (names : list string) (norm : string) :
  PyDict.get (foldl group_append [] names) norm
  = match Spec.with_normal_form norm names with
    | [] => None
    | group => Some group
    end.
Proof.
  induction names as [|name names IH] using rev_ind; [done|].
  rewrite foldl_snoc, with_normal_form_snoc. unfold group_append at 1.
  rewrite pydict_get_set.
  destruct (decide (normalize_name name = norm)) as [->|Hne].
  - rewrite IH. by destruct (Spec.with_normal_form _ names).
  - by rewrite IH, app_nil_r.
Qed.

Lemma normalized_groups_NoDup (names : list string) :
  NoDup (PyDict.keys (foldl group_append [] names)).
Proof.
  induction names as [|name names IH] using rev_ind; [constructor|].
  rewrite foldl_snoc. by apply pydict_set_NoDup.
Qed.

Lemma elem_of_find_suffix_duplicates (names : list string) (group : list string) :
  group ∈ find_suffix_duplicates names
  ↔ 2 ≤ length group ∧ ∃ norm, group = Spec.with_normal_form norm names.
Proof.
  unfold find_suffix_duplicates, PyDict.values.
  rewrite list_elem_of_In, List.filter_In, <- list_elem_of_In, Nat.leb_le.
  rewrite list_elem_of_fmap. split.
  - intros [([norm g] & -> & Hin) Hlen]. split; [done|]. exists norm. simpl.
    apply pydict_get_Some in Hin; [|apply normalized_groups_NoDup].
    rewrite normalized_groups_get in Hin.
    by destruct (Spec.with_normal_form norm names); simplify_eq.
  - intros [Hlen (norm & ->)]. split; [|done].
    exists (norm, Spec.with_normal_form norm names). split; [done|].
    apply pydict_get_Some; [apply normalized_groups_NoDup|].
    rewrite normalized_groups_get.
    destruct (Spec.with_normal_form norm names); [simpl in Hlen; lia|done].
Qed.
End suffix_groups.

(** ** The end-to-end scenario *)

(** The claim C6 as it is written fails on the scripts.  The builder of
    [scripts/final] takes no threshold: it fixes 4 occurrences and the
    weight 1, and on the four threads nobody occurs four times, so that it
    returns the empty graph, without the edge Alice - Bob.  And with the
    thresholds 2 and 2, Carol is not removed as an isolated node: she is
    no node of the graph built from the edges, in which no node is
    isolated and from which the removal takes nothing. *)
Lemma scenario_not_as_claimed :
  let name_mapping : gmap string (option string) :=
    list_to_map [("Alice", Some "Alice"); ("Bob", Some "Bob");
                 ("Carol", Some "Carol")] in
  let corpus :=
    [Corpus.mkEmail "T1" None (Some ["Alice"; "Bob"]);
     Corpus.mkEmail "T2" None (Some ["Alice"; "Bob"]);
     Corpus.mkEmail "T3" None (Some ["Alice"; "Carol"]);
     Corpus.mkEmail "T4" None (Some ["Bob"; "Carol"])] in
  let G0 := BuildNetwork.graph_of_edges 2
              (BuildNetwork.edges (BuildNetwork.build_edges name_mapping 2 corpus)) in
  (BuildNetwork.weight (BuildNetwork.main name_mapping corpus) "Alice" "Bob" = None
   ∧ BuildNetwork.nodes (BuildNetwork.main name_mapping corpus) = ∅
   ∧ BuildNetwork.nodes (BuildNetwork.main name_mapping corpus) ≠ {["Alice"; "Bob"]})
  ∧ (("Carol" ∉ BuildNetwork.nodes G0)
     ∧ ("Carol" ∉ BuildNetwork.isolates G0)
     ∧ BuildNetwork.remove_nodes_from (BuildNetwork.isolates G0) G0 = G0).
Proof.
  intros name_mapping corpus G0.
  assert (BuildNetwork.nodes (BuildNetwork.main name_mapping corpus) = ∅) as Hmain
    by (vm_compute; reflexivity).
  assert (BuildNetwork.nodes G0 = {["Alice"; "Bob"]}) as Hnodes
    by (vm_compute; reflexivity).
  assert (BuildNetwork.isolates G0 = ∅) as Hiso by (vm_compute; reflexivity).
  split; split_and!.
  - vm_compute. reflexivity.
  - exact Hmain.
  - rewrite Hmain. intros Heq.
    assert ("Alice" ∈ (∅ : gset string)) as Hin
      by (rewrite Heq; apply elem_of_union; left; by apply elem_of_singleton).
    by apply elem_of_empty in Hin.
  - rewrite Hnodes. intros [H|H]%elem_of_union; apply elem_of_singleton in H;
      discriminate H.
  - rewrite Hiso. apply not_elem_of_empty.
  - vm_compute. reflexivity.
Qed.

(** C6, as the code has it.  The two builders fix their thresholds: 4
    occurrences and the weight 1 in [scripts/final/build_network.py], 3
    and 2 in [scripts/build_network.py].  On the four threads T1:{Alice,
    Bob}, T2:{Alice, Bob}, T3:{Alice, Carol}, T4:{Bob, Carol} the first
    returns the empty graph and the second the single edge Alice - Bob of
    weight 2 with the nodes Alice and Bob.  With the thresholds taken as
    parameters and set to 2 and 2, the code of both gives this same graph:
    all three persons pass the occurrence filter, the pair counter gives
    (Alice, Bob) the weight 2 and the two pairs with Carol the weight 1,
    which are no edges, and the nodes are exactly Alice and Bob.  Carol is
    never a node (the nodes of the graph come from its edges), so that the
    removal of the isolated nodes has nothing to remove.  On that graph
    with Carol added as a node without an edge, Carol is the one isolated
    node and the removal takes her out and gives the same graph. *)
Theorem end_to_end_scenario :
  let name_mapping : gmap string (option string) :=
    list_to_map [("Alice", Some "Alice"); ("Bob", Some "Bob");
                 ("Carol", Some "Carol")] in
  let corpus :=
    [Corpus.mkEmail "T1" None (Some ["Alice"; "Bob"]);
     Corpus.mkEmail "T2" None (Some ["Alice"; "Bob"]);
     Corpus.mkEmail "T3" None (Some ["Alice"; "Carol"]);
     Corpus.mkEmail "T4" None (Some ["Bob"; "Carol"])] in
  let es := BuildNetwork.edges (BuildNetwork.build_edges name_mapping 2 corpus) in
  let G0 := BuildNetwork.graph_of_edges 2 es in
  let G := BuildNetwork.build_graph name_mapping 2 2 corpus in
  let data :=
    [LegacyNetwork.mkDiscussion ["Alice"] ["Bob"] [] "T1";
     LegacyNetwork.mkDiscussion ["Alice"] ["Bob"] [] "T2";
     LegacyNetwork.mkDiscussion ["Alice"] [] ["Carol"] "T3";
     LegacyNetwork.mkDiscussion [] ["Bob"] ["Carol"] "T4"] in
  let G' := LegacyNetwork.build_graph ∅ ∅ 2 2 data in
  let with_carol := BuildNetwork.mkGraph ({["Carol"]} ∪ BuildNetwork.nodes G0)
                      (BuildNetwork.adj G0) in
  (BuildNetwork.main name_mapping corpus = BuildNetwork.empty_graph
   ∧ BuildNetwork.valid_persons name_mapping 4 corpus = ∅
   ∧ BuildNetwork.nodes (LegacyNetwork.main ∅ ∅ data) = {["Alice"; "Bob"]}
   ∧ BuildNetwork.adj (LegacyNetwork.main ∅ ∅ data)
     = {["Alice" := {["Bob" := 2]}; "Bob" := {["Alice" := 2]}]}
   ∧ LegacyNetwork.valid_persons ∅ ∅ 3 data = {["Alice"; "Bob"]})
  ∧ (BuildNetwork.person_counts name_mapping corpus
     = {["Alice" := 3; "Bob" := 3; "Carol" := 2]}
   ∧ BuildNetwork.valid_persons name_mapping 2 corpus = {["Alice"; "Bob"; "Carol"]}
   ∧ es = {[("Alice", "Bob") := 2; ("Alice", "Carol") := 1; ("Bob", "Carol") := 1]}
   ∧ BuildNetwork.adj G = {["Alice" := {["Bob" := 2]}; "Bob" := {["Alice" := 2]}]}
   ∧ BuildNetwork.weight G "Alice" "Bob" = Some 2
   ∧ BuildNetwork.weight G "Alice" "Carol" = None
   ∧ BuildNetwork.weight G "Bob" "Carol" = None
   ∧ BuildNetwork.nodes G = {["Alice"; "Bob"]}
   ∧ ("Carol" ∉ BuildNetwork.nodes G))
  ∧ (BuildNetwork.nodes G0 = {["Alice"; "Bob"]}
     ∧ BuildNetwork.isolates G0 = ∅
     ∧ G = G0
     ∧ BuildNetwork.isolates with_carol = {["Carol"]}
     ∧ BuildNetwork.remove_nodes_from (BuildNetwork.isolates with_carol) with_carol
       = G0)
  ∧ (LegacyNetwork.valid_persons ∅ ∅ 2 data = {["Alice"; "Bob"; "Carol"]}
     ∧ BuildNetwork.edges (LegacyNetwork.build_edges ∅ ∅ 2 data) = es
     ∧ BuildNetwork.adj G' = BuildNetwork.adj G
     ∧ BuildNetwork.nodes G' = {["Alice"; "Bob"]}).
Proof.
  intros name_mapping corpus es G0 G data G' with_carol.
  split_and!; try (vm_compute; reflexivity).
  vm_compute. intros H. discriminate H.
Qed.

Section occurrences.
Import Corpus.
#[local] Arguments PyStr.strip : simpl never.
#[local] Arguments PyStr.truthy : simpl never.

Lemma threads_where_snoc (P : email → bool) (rows : list email) (row : email) :
  Spec.threads_where P (rows ++ [row])
  = Spec.threads_where P rows ∪ (if P row then {[thread_id row]} else ∅).
Proof.
  unfold Spec.threads_where. rewrite List.filter_app, fmap_app, list_to_set_app_L.
  cbn [List.filter]. destruct (P row); [|done]. csimpl. by rewrite union_empty_r_L.
Qed.

Lemma NoDup_fmap_filter {A B} (f : A → B) (P : A → bool) (l : list A) :
  NoDup (f <$> l) → NoDup (f <$> List.filter P l).
Proof.
  induction l as [|x l IH]; csimpl; [done|].
  intros [Hnin Hnd]%NoDup_cons. destruct (P x); csimpl; [|by apply IH].
  apply NoDup_cons. split; [|by apply IH].
  intros (y & Hy & Hin)%list_elem_of_fmap. apply Hnin, list_elem_of_fmap.
  exists y. split; [done|].
  apply list_elem_of_In. apply list_elem_of_In, List.filter_In in Hin. tauto.
Qed.

Lemma size_threads_where (P : email → bool) (rows : list email) :
  NoDup (thread_id <$> rows) →
  size (Spec.threads_where P rows) = length (List.filter P rows).
Proof.
  intros Hnd. unfold Spec.threads_where.
  rewrite size_list_to_set by by apply NoDup_fmap_filter.
  by rewrite length_fmap.
Qed.

(** *** [create_unique_names.py] *)

Lemma add_names_lookup (thread : string) (m : gmap string (gset string))
    (names : list string) (name : string) :
  default ∅ (foldl (CreateUniqueNames.add_name thread) m names !! name)
  = default ∅ (m !! name)
    ∪ (if existsb (λ raw, PyStr.truthy raw && PyStr.truthy (PyStr.strip raw)
                          && bool_decide (PyStr.strip raw = name)) names
       then {[thread]} else ∅).
Proof.
  revert m. induction names as [|raw names IH]; intros m.
  { simpl. by rewrite union_empty_r_L. }
  cbn [foldl existsb]. rewrite IH. unfold CreateUniqueNames.add_name.
  destruct (PyStr.truthy raw && PyStr.truthy (PyStr.strip raw)); simpl.
  - destruct (decide (PyStr.strip raw = name)) as [Heq|Hne].
    + rewrite Heq, lookup_insert_eq, bool_decide_true by done. simpl.
      destruct (existsb _ names); set_solver.
    + by rewrite lookup_insert_ne, bool_decide_false by done.
  - done.
Qed.

Lemma name_threads_lookup (rows : list email) (name : string) :
  default ∅ (CreateUniqueNames.name_threads rows !! name)
  = Spec.threads_where (Spec.mentions_raw name) rows.
Proof.
  unfold CreateUniqueNames.name_threads.
  induction rows as [|row rows IH] using rev_ind; [done|].
  rewrite foldl_snoc, threads_where_snoc. unfold CreateUniqueNames.add_row at 1.
  unfold Spec.mentions_raw at 2.
  destruct (names_mentioned row) as [names|].
  - by rewrite add_names_lookup, IH.
  - by rewrite IH, union_empty_r_L.
Qed.

Lemma name_counts_threads (rows : list email) (name : string) :
  CreateUniqueNames.name_counts rows name
  = size (Spec.threads_where (Spec.mentions_raw name) rows).
Proof.
  rewrite <- name_threads_lookup. unfold CreateUniqueNames.name_counts.
  by destruct (CreateUniqueNames.name_threads rows !! name).
Qed.

(** *** [build_network.py] *)

Section person_counts.
Variable name_mapping : gmap string (option string).
Import BuildNetwork.

Lemma count_incr {K} `{Countable K} (k k' : K) (c : gmap K nat) :
  count (incr k c) k' = if decide (k = k') then S (count c k) else count c k'.
Proof.
  unfold count, incr. destruct (decide (k = k')) as [->|Hne].
  - by rewrite lookup_insert_eq.
  - by rewrite lookup_insert_ne.
Qed.

Lemma count_set_fold_incr (counts : gmap string nat) (s : gset string) (p : string) :
  count (set_fold incr counts s) p
  = count counts p + (if decide (p ∈ s) then 1 else 0).
Proof.
  revert p.
  pose proof (set_fold_ind_L
    (λ r (X : gset string), ∀ p,
       count r p = count counts p + (if decide (p ∈ X) then 1 else 0))
    incr counts) as Hind.
  apply Hind; clear Hind.
  - intros p. rewrite decide_False by set_solver. lia.
  - intros x X r Hx IH p. rewrite count_incr.
    destruct (decide (x = p)) as [->|Hne].
    + rewrite IH, decide_False, decide_True by set_solver. lia.
    + rewrite IH. destruct (decide (p ∈ X)).
      * rewrite decide_True by set_solver. done.
      * rewrite decide_False by set_solver. done.
Qed.

(** Without an assumption on the rows, [person_counts] counts rows. *)
Lemma person_counts_rows (emails : list email) (p : string) :
  count (person_counts name_mapping emails) p
  = length (List.filter (λ e, bool_decide (p ∈ persons_of name_mapping e)) emails).
Proof.
  unfold person_counts.
  induction emails as [|e emails IH] using rev_ind; [done|].
  rewrite foldl_snoc, count_set_fold_incr, IH, List.filter_app, length_app.
  cbn [List.filter]. case_bool_decide.
  - by rewrite decide_True.
  - by rewrite decide_False.
Qed.

Lemma consolidate_name_Some (raw p : string) :
  consolidate_name name_mapping raw = Some p →
  name_mapping !! raw = Some (Some p) ∧ raw ≠ "" ∧ p ≠ "None"
  ∧ (p ∉ EXCLUDED_NAMES) ∧ (raw ∉ EXCLUDED_NAMES).
Proof.
  unfold consolidate_name, mapping_get.
  destruct raw as [|c raw]; [done|]. cbn [PyStr.truthy negb].
  destruct (name_mapping !! String c raw) as [[canonical|]|]; simpl; [|done..].
  case_bool_decide; [done|].
  destruct (bool_decide (canonical ∈ EXCLUDED_NAMES)) eqn:H1; [done|].
  destruct (bool_decide (String c raw ∈ EXCLUDED_NAMES)) eqn:H2; [done|].
  apply bool_decide_eq_false in H1, H2. intros [= <-]. done.
Qed.

Lemma elem_of_fold_add_person (s : gset string) (names : list string) (p : string) :
  p ∈ foldl (add_person name_mapping) s names
  ↔ p ∈ s ∨ (p ≠ "" ∧ ∃ raw, raw ∈ names ∧ consolidate_name name_mapping raw = Some p).
Proof.
  revert s. induction names as [|raw names IH]; intros s.
  { simpl. split; [by left|]. intros [?|(_ & raw & []%elem_of_nil & _)]. done. }
  cbn [foldl]. rewrite IH. unfold add_person at 1.
  setoid_rewrite elem_of_cons.
  destruct (consolidate_name name_mapping raw) as [q|] eqn:Hq.
  - destruct (PyStr.truthy q && negb (bool_decide (q = "Jeffrey Epstein"))) eqn:Hok.
    + apply andb_true_iff in Hok as [Hq1 _].
      rewrite elem_of_union, elem_of_singleton. split.
      * intros [[->|?]|(? & raw' & ? & ?)]; [|by left|right; eauto].
        right. split; [by destruct q|]. eauto.
      * intros [?|(? & raw' & [->|?] & Hc)]; [by left; right| |right; eauto].
        left. left. congruence.
    + split.
      * intros [?|(? & raw' & ? & ?)]; [by left|right; eauto].
      * intros [?|(Hp & raw' & [->|?] & Hc)]; [by left| |right; eauto].
        exfalso. assert (q = p) as -> by congruence.
        apply consolidate_name_Some in Hq as (_ & _ & _ & Hex & _).
        apply andb_false_iff in Hok as [Hok|Hok].
        -- by destruct p.
        -- apply negb_false_iff, bool_decide_eq_true in Hok as ->.
           apply Hex. compute_done.
  - split.
    + intros [?|(? & raw' & ? & ?)]; [by left|right; eauto].
    + intros [?|(Hp & raw' & [->|?] & Hc)]; [by left|congruence|right; eauto].
Qed.

(** What [consolidate_name] keeps, in terms of the mapping. *)
Lemma consolidate_name_iff (raw p : string) :
  consolidate_name name_mapping raw = Some p
  ↔ PyStr.truthy raw = true ∧ (raw ∉ EXCLUDED_NAMES)
    ∧ name_mapping !! raw = Some (Some p) ∧ p ≠ "None" ∧ (p ∉ EXCLUDED_NAMES).
Proof.
  split.
  - intros (Hm & Hraw & Hnone & Hp & Hex)%consolidate_name_Some.
    split_and!; [by destruct raw|done..].
  - intros (Htrue & Hex & Hm & Hnone & Hp).
    unfold consolidate_name, mapping_get. rewrite Htrue, Hm. cbn [negb].
    change (mjoin (Some (Some p))) with (Some p). cbv iota beta.
    rewrite (bool_decide_eq_false_2 (p = "None")) by done.
    rewrite (bool_decide_eq_false_2 (p ∈ EXCLUDED_NAMES)) by done.
    by rewrite (bool_decide_eq_false_2 (raw ∈ EXCLUDED_NAMES)) by done.
Qed.

Lemma elem_of_persons_of (e : email) (p : string) :
  p ∈ persons_of name_mapping e
  ↔ Spec.countable_entity p ∧ Spec.mentions_kept_variant name_mapping p e = true.
Proof.
  unfold persons_of, Spec.mentions_kept_variant, Spec.countable_entity.
  destruct (names_mentioned e) as [names|].
  - rewrite elem_of_fold_add_person, existsb_exists.
    setoid_rewrite consolidate_name_iff. setoid_rewrite <- list_elem_of_In.
    setoid_rewrite andb_true_iff. setoid_rewrite andb_true_iff.
    setoid_rewrite negb_true_iff. setoid_rewrite bool_decide_eq_false.
    setoid_rewrite bool_decide_eq_true.
    split.
    + intros [[]%elem_of_empty|(Hne & raw & Hin & Ht & Hex & Hm & Hnone & Hp)].
      split; [done|]. by exists raw.
    + intros ((Hne & Hnone & Hp) & raw & Hin & [[Ht Hex] Hm]). right.
      split; [done|]. by exists raw.
  - split; [intros []%elem_of_empty|by intros [_ ?]].
Qed.

Lemma person_counts_threads (emails : list email) (p : string) :
  NoDup (thread_id <$> emails) → Spec.countable_entity p →
  count (person_counts name_mapping emails) p
  = size (Spec.threads_where (Spec.mentions_kept_variant name_mapping p) emails).
Proof.
  intros Hnd Hp. rewrite person_counts_rows, size_threads_where by done.
  f_equal. apply List.filter_ext. intros e.
  destruct (Spec.mentions_kept_variant name_mapping p e) eqn:Hm.
  - apply bool_decide_eq_true, elem_of_persons_of. done.
  - apply bool_decide_eq_false. rewrite elem_of_persons_of, Hm. by intros [_ ?].
Qed.

Lemma person_counts_uncountable (emails : list email) (p : string) :
  ¬ Spec.countable_entity p → count (person_counts name_mapping emails) p = 0.
Proof.
  intros Hp. rewrite person_counts_rows.
  induction emails as [|e emails IH]; [done|]. cbn [List.filter].
  rewrite bool_decide_eq_false_2; [done|].
  rewrite elem_of_persons_of. by intros [? _].
Qed.

Lemma mentions_kept_variant_entity (p : string) (e : email) :
  Spec.mentions_kept_variant name_mapping p e = true →
  Spec.mentions_entity name_mapping p e = true.
Proof.
  unfold Spec.mentions_kept_variant, Spec.mentions_entity.
  destruct (names_mentioned e) as [names|]; [|done].
  rewrite !existsb_exists. intros (raw & Hin & [_ Hm]%andb_true_iff).
  by exists raw.
Qed.

Lemma mentions_entity_kept (p : string) (e : email) :
  (∀ raw, name_mapping !! raw = Some (Some p) →
          raw ≠ "" ∧ (raw ∉ EXCLUDED_NAMES)) →
  Spec.mentions_entity name_mapping p e
  = Spec.mentions_kept_variant name_mapping p e.
Proof.
  intros Hkept. unfold Spec.mentions_kept_variant, Spec.mentions_entity.
  destruct (names_mentioned e) as [names|]; [|done].
  induction names as [|raw names IH]; [done|]. cbn [existsb]. rewrite IH.
  f_equal. case_bool_decide as Hm; [|by rewrite andb_false_r].
  destruct (Hkept raw Hm) as [Hne Hex].
  assert (PyStr.truthy raw = true) as -> by by destruct raw.
  by rewrite bool_decide_eq_false_2 by done.
Qed.
End person_counts.
End occurrences.

(** The claim C5 as it is written fails on the builder: a thread that
    lists only a variant which is itself one of [EXCLUDED_NAMES] is not
    counted for the entity the mapping gives to that variant.  With
    "Jeffrey" mapped to "Jeffrey Sachs", two threads list a variant mapped
    to "Jeffrey Sachs" and the count is 1. *)
Lemma excluded_variant_not_counted :
  let name_mapping : gmap string (option string) :=
    {["Jeffrey Sachs" := Some "Jeffrey Sachs"; "Jeffrey" := Some "Jeffrey Sachs"]} in
  let corpus := [Corpus.mkEmail "1" None (Some ["Jeffrey Sachs"]);
                 Corpus.mkEmail "2" None (Some ["Jeffrey"])] in
  size (Spec.threads_where (Spec.mentions_entity name_mapping "Jeffrey Sachs") corpus)
  = 2
  ∧ BuildNetwork.count (BuildNetwork.person_counts name_mapping corpus)
      "Jeffrey Sachs" = 1
  ∧ BuildNetwork.count (BuildNetwork.person_counts name_mapping corpus)
      "Jeffrey Sachs"
    ≠ size (Spec.threads_where (Spec.mentions_entity name_mapping "Jeffrey Sachs")
              corpus).
Proof.
  intros name_mapping corpus.
  assert (size (Spec.threads_where
                  (Spec.mentions_entity name_mapping "Jeffrey Sachs") corpus) = 2)
    as Hthreads by (vm_compute; reflexivity).
  assert (BuildNetwork.count (BuildNetwork.person_counts name_mapping corpus)
            "Jeffrey Sachs" = 1) as Hcount by (vm_compute; reflexivity).
  split_and!; [exact Hthreads|exact Hcount|]. rewrite Hthreads, Hcount. lia.
Qed.

(** C5, as the code has it: the occurrence count of a name is a number of
    distinct threads, however often one thread repeats the name.  In
    [create_unique_names.py] the count of a raw name is the number of
    distinct threads that list it.  In [build_network.py], whose rows are
    keyed by [thread_id], the count of an entity that is not empty, not
    ["None"] and not one of [EXCLUDED_NAMES] is the number of distinct
    threads that list a variant mapped to it which is itself not empty
    and not one of [EXCLUDED_NAMES]; every other entity has the count 0.
    When no variant mapped to the entity is empty or excluded, this is the
    number of distinct threads that list a variant mapped to the entity.
    An entity listed twice in thread 1 and once in thread 2, among 3
    threads, has the count 2. *)
Theorem occurrence_count_distinct_threads
    (name_mapping : gmap string (option string)) (emails : list Corpus.email) :
  (∀ name, CreateUniqueNames.name_counts emails name
           = size (Spec.threads_where (Spec.mentions_raw name) emails))
  ∧ (NoDup (Corpus.thread_id <$> emails) →
     ∀ p,
       (Spec.countable_entity p →
        BuildNetwork.count (BuildNetwork.person_counts name_mapping emails) p
        = size (Spec.threads_where (Spec.mentions_kept_variant name_mapping p)
                  emails))
       ∧ (Spec.countable_entity p →
          (∀ raw, name_mapping !! raw = Some (Some p) →
                  raw ≠ "" ∧ (raw ∉ BuildNetwork.EXCLUDED_NAMES)) →
          BuildNetwork.count (BuildNetwork.person_counts name_mapping emails) p
          = size (Spec.threads_where (Spec.mentions_entity name_mapping p) emails)))
  ∧ (∀ p, ¬ Spec.countable_entity p →
       BuildNetwork.count (BuildNetwork.person_counts name_mapping emails) p = 0)
  ∧ (∀ p e, Spec.mentions_kept_variant name_mapping p e = true →
            Spec.mentions_entity name_mapping p e = true)
  ∧ (let corpus := [Corpus.mkEmail "1" None (Some ["X"; "X"]);
                    Corpus.mkEmail "2" None (Some ["X"]);
                    Corpus.mkEmail "3" None (Some ["Y"])] in
     CreateUniqueNames.name_counts corpus "X" = 2
     ∧ BuildNetwork.count
         (BuildNetwork.person_counts {["X" := Some "X"; "Y" := Some "Y"]} corpus) "X"
       = 2).
Proof.
  split_and!.
  - intros name. apply name_counts_threads.
  - intros Hnd p. split.
    + intros Hp. by apply person_counts_threads.
    + intros Hp Hkept. rewrite person_counts_threads by done.
      f_equal. unfold Spec.threads_where. f_equal. f_equal.
      apply List.filter_ext. intros e. symmetry. by apply mentions_entity_kept.
  - intros p. apply person_counts_uncountable.
  - intros p e. apply mentions_kept_variant_entity.
  - split; vm_compute; reflexivity.
Qed.

Lemma occurrence_count_distinct_threads_witness :
  let name_mapping : gmap string (option string) :=
    {["X" := Some "X"; "Ex" := Some "X"; "Jeff" := Some "X"]} in
  let corpus := [Corpus.mkEmail "1" None (Some ["X"; "Ex"; "X"]);
                 Corpus.mkEmail "2" None (Some ["Ex"]);
                 Corpus.mkEmail "3" None (Some ["Jeff"; "Y"])] in
  BuildNetwork.count (BuildNetwork.person_counts name_mapping corpus) "X"
  = size (Spec.threads_where (Spec.mentions_kept_variant name_mapping "X") corpus)
  ∧ size (Spec.threads_where (Spec.mentions_kept_variant name_mapping "X") corpus)
    = 2.
Proof.
  intros name_mapping corpus. split; [|vm_compute; reflexivity].
  apply (proj1 (proj1 (proj2 (occurrence_count_distinct_threads name_mapping corpus))
                  ltac:(compute_done) "X")).
  split_and!; [discriminate|discriminate|compute_done].
Defined.

(** ** The keys of the edge counter *)

Section edge_keys.
Import Corpus BuildNetwork.

Lemma sorted_elem_of (s : gset string) (p : string) : p ∈ sorted s ↔ p ∈ s.
Proof. unfold sorted. by rewrite merge_sort_Permutation, elem_of_elements. Qed.

Lemma StronglySorted_le_lt (l : list string) :
  NoDup l → StronglySorted PyStr.le l → StronglySorted PyStr.lt l.
Proof.
  induction 2 as [|x l Hsorted IH Hall]; [constructor|].
  apply NoDup_cons in H as [Hnin Hnd]. constructor; [by apply IH|].
  rewrite Forall_forall in *. intros y Hy.
  destruct (proj1 (str_le_iff x y) (Hall y Hy)) as [->|Hlt]; [done|done].
Qed.

(** [sorted] puts a set in strictly increasing order. *)
Lemma sorted_lt (s : gset string) : StronglySorted PyStr.lt (sorted s).
Proof.
  apply StronglySorted_le_lt.
  - unfold sorted. rewrite merge_sort_Permutation. apply NoDup_elements.
  - apply StronglySorted_merge_sort; apply _.
Qed.

(** The pairs of [combinations(l, 2)] keep the order of [l]. *)
Lemma combinations2_sorted {A} (R : relation A) (l : list A) (a b : A) :
  StronglySorted R l → (a, b) ∈ combinations2 l → R a b.
Proof.
  induction 1 as [|x l Hsorted IH Hall]; simpl.
  - by intros ?%elem_of_nil.
  - rewrite elem_of_app, list_elem_of_fmap.
    intros [(y & [= -> ->] & Hy)|Hin]; [|by apply IH].
    rewrite Forall_forall in Hall. by apply Hall.
Qed.

Lemma add_pair_keys (excerpt : string) (ps : list (string * string))
    (st : edge_state) (k : string * string) :
  is_Some (edges (foldl (add_pair excerpt) st ps) !! k) →
  k ∈ ps ∨ is_Some (edges st !! k).
Proof.
  revert st. induction ps as [|p ps IH]; intros st; simpl; [by right|].
  intros [Hin|Hsome]%IH.
  - left. apply elem_of_cons. by right.
  - unfold add_pair, incr in Hsome. simpl in Hsome.
    destruct (decide (p = k)) as [->|Hne].
    + left. apply elem_of_cons. by left.
    + right. by rewrite lookup_insert_ne in Hsome.
Qed.

Lemma add_email_keys (valid : gset string) (st : edge_state)
    (item : string * option string * gset string) (k : string * string) :
  is_Some (edges (add_email valid st item) !! k) →
  PyStr.lt k.1 k.2 ∨ is_Some (edges st !! k).
Proof.
  unfold add_email. intros [Hin|Hsome]%add_pair_keys; [left|by right].
  destruct k as [a b]. eapply combinations2_sorted; [apply sorted_lt|done].
Qed.

Lemma edges_keys_from (valid : gset string) (st : edge_state)
    (items : list (string * option string * gset string)) (k : string * string) :
  is_Some (edges (foldl (add_email valid) st items) !! k) →
  PyStr.lt k.1 k.2 ∨ is_Some (edges st !! k).
Proof.
  revert st. induction items as [|item items IH]; intros st; simpl; [by right|].
  intros [Hlt|Hsome]%IH; [by left|]. by apply add_email_keys in Hsome.
Qed.

(** Every key of [edges] is a strictly increasing pair. *)
Lemma build_edges_keys (name_mapping : gmap string (option string))
    (min_occurrences : nat) (emails : list email) (k : string * string) :
  is_Some (edges (build_edges name_mapping min_occurrences emails) !! k) →
  PyStr.lt k.1 k.2.
Proof.
  unfold build_edges. intros [Hlt|Hsome]%edges_keys_from; [done|].
  simpl in Hsome. rewrite lookup_empty in Hsome. by destruct Hsome.
Qed.
End edge_keys.

(** ** The graph *)

Section graph_facts.
Import BuildNetwork.

Lemma weight_adj_set (u v : string) (w : nat) (a : gmap string (gmap string nat))
    (x y : string) :
  default ∅ (adj_set u v w a !! x) !! y
  = if decide (x = u ∧ y = v) then Some w else default ∅ (a !! x) !! y.
Proof.
  unfold adj_set. destruct (decide (x = u)) as [->|Hx].
  - rewrite lookup_insert_eq. simpl. destruct (decide (y = v)) as [->|Hy].
    + by rewrite lookup_insert_eq, decide_True.
    + rewrite lookup_insert_ne by done. by rewrite decide_False by tauto.
  - rewrite lookup_insert_ne by done. by rewrite decide_False by tauto.
Qed.

Lemma weight_add_edge (u v : string) (w : nat) (G : graph) (x y : string) :
  weight (add_edge u v w G) x y
  = if decide ((x = u ∧ y = v) ∨ (x = v ∧ y = u)) then Some w else weight G x y.
Proof.
  unfold weight, neighbours, add_edge. simpl. rewrite !weight_adj_set.
  destruct (decide (x = v ∧ y = u)), (decide (x = u ∧ y = v));
    (rewrite decide_True by tauto) || (rewrite decide_False by tauto); done.
Qed.

Lemma weight_remove_nodes_from (ns : gset string) (G : graph) (x y : string) :
  weight (remove_nodes_from ns G) x y
  = if decide (x ∈ ns ∨ y ∈ ns) then None else weight G x y.
Proof.
  unfold weight, neighbours, remove_nodes_from. simpl.
  rewrite lookup_fmap, map_lookup_filter.
  destruct (adj G !! x) as [nb|] eqn:Hnb; simpl.
  - destruct (decide (x ∈ ns)) as [Hx|Hx].
    + rewrite option_guard_False by (simpl; tauto). simpl.
      rewrite lookup_empty. by rewrite decide_True by tauto.
    + rewrite option_guard_True by done. simpl. rewrite map_lookup_filter.
      destruct (nb !! y) as [w|] eqn:Hw; simpl.
      * destruct (decide (y ∈ ns)) as [Hy|Hy].
        -- rewrite option_guard_False by (simpl; tauto).
           by rewrite decide_True by tauto.
        -- rewrite option_guard_True by done. by rewrite decide_False by tauto.
      * by destruct (decide (x ∈ ns ∨ y ∈ ns)).
  - rewrite lookup_empty. by destruct (decide (x ∈ ns ∨ y ∈ ns)).
Qed.

(** A node that [nx.isolates] returns has no edge. *)
Lemma weight_isolate (G : graph) (x y : string) :
  x ∈ isolates G → weight G x y = None.
Proof.
  unfold isolates, degree, weight. rewrite elem_of_filter. intros [Hdeg _].
  assert (size (neighbours G x) = 0) as Hsize by lia.
  apply map_size_empty_iff in Hsize. rewrite Hsize. apply lookup_empty.
Qed.

Section graph_of_edges.
Variable min_edge_weight : nat.

Lemma graph_of_edges_symmetric (es : gmap (string * string) nat) (x y : string) :
  weight (graph_of_edges min_edge_weight es) x y
  = weight (graph_of_edges min_edge_weight es) y x.
Proof.
  revert x y. unfold graph_of_edges.
  apply (map_fold_weak_ind (λ G _, ∀ x y, weight G x y = weight G y x)).
  - done.
  - intros [u v] w m G _ IH x y. simpl.
    destruct (min_edge_weight <=? w); [|done].
    rewrite !weight_add_edge, IH.
    destruct (decide (x = u ∧ y = v ∨ x = v ∧ y = u));
      [rewrite decide_True by tauto|rewrite decide_False by tauto]; done.
Qed.

(** Over sorted keys, the graph holds the weight of the pair counter for
    every pair that reaches the threshold. *)
Lemma graph_of_edges_weight (es : gmap (string * string) nat) (x y : string) :
  (∀ k, is_Some (es !! k) → PyStr.lt k.1 k.2) → PyStr.lt x y →
  weight (graph_of_edges min_edge_weight es) x y
  = w ← es !! (x, y); if min_edge_weight <=? w then Some w else None.
Proof.
  intros Hkeys Hxy. revert Hkeys. unfold graph_of_edges.
  apply (map_fold_weak_ind
    (λ G (m : gmap (string * string) nat),
       (∀ k, is_Some (m !! k) → PyStr.lt k.1 k.2) →
       weight G x y = w ← m !! (x, y); if min_edge_weight <=? w then Some w else None)).
  - intros _. by rewrite lookup_empty.
  - intros [u v] w m G Hfresh IH Hkeys.
    assert (PyStr.lt u v) as Huv.
    { apply (Hkeys (u, v)). rewrite lookup_insert_eq. by eexists. }
    assert (weight G x y
            = w ← m !! (x, y); if min_edge_weight <=? w then Some w else None)
      as HG.
    { apply IH. intros k Hk. apply Hkeys.
      destruct (decide ((u, v) = k)) as [<-|Hne];
        [rewrite Hfresh in Hk; by destruct Hk|by rewrite lookup_insert_ne]. }
    simpl. destruct (decide ((u, v) = (x, y))) as [[= -> ->]|Hne].
    + rewrite lookup_insert_eq. simpl.
      destruct (min_edge_weight <=? w).
      * rewrite weight_add_edge. by rewrite decide_True by tauto.
      * by rewrite HG, Hfresh.
    + rewrite lookup_insert_ne by done.
      destruct (min_edge_weight <=? w); [|done].
      rewrite weight_add_edge, decide_False; [done|].
      intros [[-> ->]|[-> ->]]; [done|]. by eapply str_lt_asym.
Qed.

Lemma graph_of_edges_no_loop (es : gmap (string * string) nat) (x : string) :
  (∀ k, is_Some (es !! k) → PyStr.lt k.1 k.2) →
  weight (graph_of_edges min_edge_weight es) x x = None.
Proof.
  unfold graph_of_edges.
  apply (map_fold_weak_ind
    (λ G (m : gmap (string * string) nat),
       (∀ k, is_Some (m !! k) → PyStr.lt k.1 k.2) → weight G x x = None)).
  - done.
  - intros [u v] w m G Hfresh IH Hkeys.
    assert (PyStr.lt u v) as Huv.
    { apply (Hkeys (u, v)). rewrite lookup_insert_eq. by eexists. }
    assert (weight G x x = None) as HG.
    { apply IH. intros k Hk. apply Hkeys.
      destruct (decide ((u, v) = k)) as [<-|Hne];
        [rewrite Hfresh in Hk; by destruct Hk|by rewrite lookup_insert_ne]. }
    simpl. destruct (min_edge_weight <=? w); [|done].
    rewrite weight_add_edge, decide_False; [done|].
    intros [[-> ->]|[-> ->]]; by apply str_lt_irrefl in Huv.
Qed.

(** Removing the isolates removes no edge. *)
Lemma weight_remove_isolates (es : gmap (string * string) nat) (x y : string) :
  let G := graph_of_edges min_edge_weight es in
  weight (remove_nodes_from (isolates G) G) x y = weight G x y.
Proof.
  intros G. rewrite weight_remove_nodes_from.
  destruct (decide (x ∈ isolates G ∨ y ∈ isolates G)) as [[Hx|Hy]|]; [| |done].
  - by rewrite weight_isolate.
  - unfold G. rewrite graph_of_edges_symmetric. by rewrite weight_isolate.
Qed.
End graph_of_edges.
End graph_facts.

(** C7: every key of the edge counter is a pair [(a, b)] of two distinct
    entities with [a < b]; the reversed pair and the pair [(a, a)] are
    never keys, so an unordered pair has at most one entry and there is no
    self-loop, also when an e-mail lists a name twice.  In the graph the
    edge can be read in both directions, with the weight stored under the
    sorted key. *)
Theorem edge_keys_canonical (name_mapping : gmap string (option string))
    (min_occurrences min_edge_weight : nat) (emails : list Corpus.email) :
  let es := BuildNetwork.edges
              (BuildNetwork.build_edges name_mapping min_occurrences emails) in
  let G := BuildNetwork.build_graph name_mapping min_occurrences min_edge_weight
             emails in
  (∀ a b, is_Some (es !! (a, b)) → PyStr.lt a b ∧ a ≠ b ∧ es !! (b, a) = None)
  ∧ (∀ a, es !! (a, a) = None ∧ BuildNetwork.weight G a a = None)
  ∧ (∀ a b, BuildNetwork.weight G a b = BuildNetwork.weight G b a)
  ∧ (∀ a b w, PyStr.lt a b →
       BuildNetwork.weight G a b = Some w
       ↔ es !! (a, b) = Some w ∧ min_edge_weight ≤ w)
  ∧ (let listed_twice := [Corpus.mkEmail "T1" None (Some ["Bob"; "Alice"; "Bob"])] in
     BuildNetwork.edges
       (BuildNetwork.build_edges {["Alice" := Some "Alice"; "Bob" := Some "Bob"]}
          1 listed_twice)
     = {[("Alice", "Bob") := 1]}).
Proof.
  intros es G.
  assert (∀ k, is_Some (es !! k) → PyStr.lt k.1 k.2) as Hkeys.
  { intros k. apply build_edges_keys. }
  assert (∀ a b, es !! (a, b) = None ∨ PyStr.lt a b) as Hnone.
  { intros a b. destruct (es !! (a, b)) eqn:Hab; [right|by left].
    apply (Hkeys (a, b)). rewrite Hab. by eexists. }
  split_and!.
  - intros a b Hab. pose proof (Hkeys (a, b) Hab) as Hlt. simpl in Hlt.
    split_and!; [done| |].
    + intros ->. by apply str_lt_irrefl in Hlt.
    + destruct (Hnone b a) as [?|Hba]; [done|]. by apply str_lt_asym in Hba.
  - intros a. split.
    + destruct (Hnone a a) as [?|Haa]; [done|]. by apply str_lt_irrefl in Haa.
    + unfold G, BuildNetwork.build_graph.
      rewrite weight_remove_isolates. by apply graph_of_edges_no_loop.
  - intros a b. unfold G, BuildNetwork.build_graph.
    rewrite !weight_remove_isolates. apply graph_of_edges_symmetric.
  - intros a b w Hlt. unfold G, BuildNetwork.build_graph.
    rewrite weight_remove_isolates, graph_of_edges_weight by done.
    fold es. destruct (es !! (a, b)) as [w'|]; simpl.
    + destruct (min_edge_weight <=? w') eqn:Hle.
      * apply Nat.leb_le in Hle. split; [by intros [= ->]|by intros [[= ->] _]].
      * apply Nat.leb_gt in Hle. split; [done|]. intros [[= ->] ?]. lia.
    + split; [done|by intros [? _]].
  - vm_compute. reflexivity.
Qed.

Lemma edge_keys_canonical_witness :
  let name_mapping : gmap string (option string) :=
    {["Alice" := Some "Alice"; "Bob" := Some "Bob"; "Rob" := Some "Bob"]} in
  let emails := [Corpus.mkEmail "T1" None (Some ["Bob"; "Alice"; "Rob"]);
                 Corpus.mkEmail "T2" None (Some ["Rob"; "Alice"])] in
  let es := BuildNetwork.edges (BuildNetwork.build_edges name_mapping 2 emails) in
  PyStr.lt "Alice" "Bob" ∧ "Alice" ≠ "Bob" ∧ es !! ("Bob", "Alice") = None.
Proof.
  intros name_mapping emails es.
  apply (proj1 (edge_keys_canonical name_mapping 2 2 emails) "Alice" "Bob").
  compute_done.
Defined.

(** ** Token-overlap groups *)

Section token_runs.
Import CandidateMatcher.
Abbreviation lower_case := (λ c, PyStr.is_lower c = true).






End token_runs.

Section token_overlap.
Import CandidateMatcher.
#[local] Arguments tokenize_name : simpl never.
Variable iter : gset string → list string.
Hypothesis iter_perm : ∀ s, iter s ≡ₚ elements s.

Lemma elem_of_iter (s : gset string) (x : string) : x ∈ iter s ↔ x ∈ s.
Proof. by rewrite iter_perm, elem_of_elements. Qed.

Lemma NoDup_iter (s : gset string) : NoDup (iter s).
Proof. rewrite iter_perm. apply NoDup_elements. Qed.

(** [name_tokens] holds the tokens of the names it knows. *)
Lemma build_index_tokens (names : list string) (n : string) (T : gset string) :
  (build_index iter names).1 !! n = Some T → T = tokenize_name n.
Proof.
  unfold build_index. induction names as [|name names IH] using rev_ind.
  - simpl. by rewrite lookup_empty.
  - rewrite foldl_snoc. unfold index_name at 1. cbn [fst].
    destruct (decide (name = n)) as [->|Hne].
    + rewrite lookup_insert_eq. by intros [= <-].
    + by rewrite lookup_insert_ne.
Qed.

Lemma elem_of_pydict_set {K V} `{EqDecision K} (d : PyDict.t K V) (k : K) (v : V)
    (kv : K * V) :
  kv ∈ PyDict.set d k v → kv = (k, v) ∨ kv ∈ d.
Proof.
  induction d as [|[k0 v0] d IH]; simpl.
  - intros ->%list_elem_of_singleton. by left.
  - destruct (decide (k0 = k)) as [->|Hne].
    + intros [->|Hin]%elem_of_cons; [by left|]. right. apply elem_of_cons. by right.
    + intros [->|Hin]%elem_of_cons; [right; apply elem_of_cons; by left|].
      destruct (IH Hin) as [->|?]; [by left|]. right. apply elem_of_cons. by right.
Qed.

Lemma group_add_sound (pg : groups_dict) (key : gset string) (name : string) :
  Spec.groups_sound pg → 2 ≤ size key → key ⊆ tokenize_name name →
  Spec.groups_sound (group_add pg key name).
Proof.
  intros Hpg Hsize Hsub key' grp [[= -> ->]|Hin]%elem_of_pydict_set; [|by apply Hpg].
  split; [done|]. intros n [->%elem_of_singleton|Hn]%elem_of_union; [done|].
  destruct (PyDict.get pg key) as [old|] eqn:Hget; simpl in Hn.
  - apply pydict_get_elem_of in Hget. by apply (Hpg _ _ Hget).
  - by apply elem_of_empty in Hn.
Qed.

Section scan.
Variable name_tokens : gmap string (gset string).
Hypothesis name_tokens_sound :
  ∀ n T, name_tokens !! n = Some T → T = tokenize_name n.

Lemma name_tokens_subseteq (n : string) :
  default ∅ (name_tokens !! n) ⊆ tokenize_name n.
Proof.
  destruct (name_tokens !! n) as [T|] eqn:Hn; simpl.
  - by rewrite (name_tokens_sound n T).
  - apply empty_subseteq.
Qed.

Lemma consider_pair_sound (name1 : string) (st : pairs_state) (name2 : string) :
  Spec.groups_sound (potential_groups st) →
  Spec.groups_sound (potential_groups
                  (consider_pair name_tokens name1
                     (default ∅ (name_tokens !! name1)) st name2)).
Proof.
  intros Hst. unfold consider_pair.
  destruct (String.leb name2 name1); [done|].
  case_bool_decide; [done|].
  destruct (2 <=? size _) eqn:Hsize; [|done]. apply Nat.leb_le in Hsize.
  pose proof (name_tokens_subseteq name1). pose proof (name_tokens_subseteq name2).
  cbn [potential_groups].
  apply group_add_sound; [apply group_add_sound| |]; [done|done| |done|]; set_solver.
Qed.

Lemma scan_name_sound (token_to_names : gmap string (gset string))
    (st : pairs_state) (name1 : string) :
  Spec.groups_sound (potential_groups st) →
  Spec.groups_sound (potential_groups (scan_name iter name_tokens token_to_names st name1)).
Proof.
  intros Hst. unfold scan_name. destruct (size _ <? 2); [done|].
  revert st Hst. induction (iter (default ∅ (name_tokens !! name1))) as [|token tokens IH];
    intros st Hst; simpl; [done|].
  apply IH. clear IH.
  revert st Hst. induction (iter (default ∅ (token_to_names !! token))) as [|name2 l IH];
    intros st Hst; simpl; [done|].
  by apply IH, consider_pair_sound.
Qed.

Lemma scan_names_sound (token_to_names : gmap string (gset string))
    (st : pairs_state) (names : list string) :
  Spec.groups_sound (potential_groups st) →
  Spec.groups_sound
    (potential_groups (foldl (scan_name iter name_tokens token_to_names) st names)).
Proof.
  revert st. induction names as [|name names IH]; intros st Hst; simpl; [done|].
  by apply IH, scan_name_sound.
Qed.
End scan.

Lemma insert_desc_perm {A} (key : A → nat) (x : A) (l : list A) :
  insert_desc key x l ≡ₚ x :: l.
Proof.
  induction l as [|y l IH]; simpl; [done|].
  destruct (key y <=? key x); [done|]. by rewrite IH, perm_swap.
Qed.

Lemma sorted_desc_perm {A} (key : A → nat) (l : list A) : sorted_desc key l ≡ₚ l.
Proof.
  unfold sorted_desc. induction l as [|x l IH]; simpl; [done|].
  by rewrite insert_desc_perm, IH.
Qed.

(** What the last loop keeps true of [groups] and [seen_names]. *)
Lemma emit_groups_spec (items : list (gset string * gset string))
    (groups : list (list string)) (seen : gset string) :
  seen = list_to_set (concat groups) → NoDup (concat groups) →
  let out := (foldl (emit_group iter) (groups, seen) items).1 in
  NoDup (concat out)
  ∧ ∀ g, g ∈ out →
      g ∈ groups
      ∨ (2 ≤ length g ∧ ∃ item, item ∈ items ∧ ∀ n, n ∈ g → n ∈ item.2).
Proof.
  revert groups seen.
  induction items as [|item items IH]; intros groups seen Hseen Hnd; simpl.
  { split; [done|]. by left. }
  set (new_names := List.filter (λ n, negb (bool_decide (n ∈ seen))) (iter item.2)).
  assert (emit_group iter (groups, seen) item
          = if 2 <=? length new_names
            then (groups ++ [new_names], list_to_set new_names ∪ seen)
            else (groups, seen)) as -> by reflexivity.
  assert (∀ n, n ∈ new_names ↔ n ∈ item.2 ∧ n ∉ seen) as Hnew.
  { intros n. unfold new_names.
    rewrite list_elem_of_In, List.filter_In, <- list_elem_of_In, elem_of_iter.
    by rewrite negb_true_iff, bool_decide_eq_false. }
  destruct (2 <=? length new_names) eqn:Hlen.
  - apply Nat.leb_le in Hlen.
    destruct (IH (groups ++ [new_names]) (list_to_set new_names ∪ seen))
      as [Hnd' Hout].
    + rewrite concat_app, list_to_set_app_L. simpl.
      rewrite app_nil_r. rewrite Hseen. set_solver.
    + rewrite concat_app. simpl. rewrite app_nil_r.
      apply NoDup_app. split_and!; [done| |].
      * intros n Hn Hn'. apply Hnew in Hn' as [_ Hn'].
        apply Hn'. rewrite Hseen. by apply elem_of_list_to_set.
      * unfold new_names. apply NoDup_ListNoDup, List.NoDup_filter, NoDup_ListNoDup.
        apply NoDup_iter.
    + split; [done|]. intros g Hg.
      destruct (Hout g Hg) as [[Hin|Hin]%elem_of_app
                              |(Hl & item' & Hitem' & Hsub)].
      * by left.
      * apply list_elem_of_singleton in Hin as ->.
        right. split; [done|]. exists item. split; [apply elem_of_cons; by left|].
        intros n Hn. by apply Hnew in Hn as [? _].
      * right. split; [done|]. exists item'. split; [apply elem_of_cons; by right|done].
  - destruct (IH groups seen Hseen Hnd) as [Hnd' Hout]. split; [done|].
    intros g Hg. destruct (Hout g Hg) as [?|(Hl & item' & Hitem' & Hsub)]; [by left|].
    right. split; [done|]. exists item'. split; [apply elem_of_cons; by right|done].
Qed.

(** Every group comes from one entry of [potential_groups]. *)
Lemma find_potential_duplicates_spec (names : list string) :
  let out := find_potential_duplicates iter names in
  NoDup (concat out)
  ∧ ∀ g, g ∈ out →
      2 ≤ length g
      ∧ ∃ key, 2 ≤ size key ∧ ∀ n, n ∈ g → key ⊆ tokenize_name n.
Proof.
  unfold find_potential_duplicates.
  destruct (build_index iter names) as [name_tokens token_to_names] eqn:Hindex.
  set (st := foldl (scan_name iter name_tokens token_to_names) (mkPairs [] ∅) names).
  assert (Spec.groups_sound (potential_groups st)) as Hsound.
  { apply scan_names_sound.
    - intros n T Hn. apply (build_index_tokens names). by rewrite Hindex.
    - intros key grp []%elem_of_nil. }
  destruct (emit_groups_spec
              (sorted_desc (λ item, size item.2) (potential_groups st)) [] ∅)
    as [Hnd Hout]; [done|constructor|].
  split; [done|]. intros g Hg.
  destruct (Hout g Hg) as [[]%elem_of_nil|(Hlen & [key grp] & Hitem & Hsub)].
  split; [done|]. rewrite sorted_desc_perm in Hitem.
  destruct (Hsound key grp Hitem) as [Hsize Hkey].
  exists key. split; [done|]. intros n Hn. by apply Hkey, Hsub.
Qed.
End token_overlap.

Lemma NoDup_concat_disjoint {A} (l : list (list A)) (i j : nat) (g h : list A) :
  NoDup (concat l) → l !! i = Some g → l !! j = Some h → i ≠ j →
  ∀ x, x ∈ g → x ∉ h.
Proof.
  assert (∀ (l' : list (list A)) k h' x,
            l' !! k = Some h' → x ∈ h' → x ∈ concat l') as Hin.
  { intros l' k h' x Hk Hx. apply list_elem_of_In, in_concat.
    exists h'. split; apply list_elem_of_In; [|done].
    by eapply list_elem_of_lookup_2. }
  revert i j. induction l as [|g0 l IH]; intros i j Hnd Hi Hj Hij x Hg Hh.
  { by rewrite lookup_nil in Hi. }
  simpl in Hnd. apply NoDup_app in Hnd as (Hnd0 & Hdisj & Hnd').
  destruct i as [|i], j as [|j]; simpl in Hi, Hj; simplify_eq.
  - apply (Hdisj x Hg). by eapply Hin.
  - apply (Hdisj x Hh). by eapply Hin.
  - exact (IH i j Hnd' Hi Hj (λ e, Hij (f_equal S e)) x Hg Hh).
Qed.



(** * Further properties *)

(** ** Batches *)

Lemma batches_aux_spec {A} (fuel n : nat) (l : list A) :
  0 < n → length l ≤ fuel →
  concat (Consolidation.batches_aux fuel n l) = l
  ∧ Forall (λ b, b ≠ [] ∧ length b ≤ n) (Consolidation.batches_aux fuel n l).
Proof.
  intros Hn. revert l. induction fuel as [|fuel IH]; intros l Hlen.
  - destruct l; [by split|simpl in Hlen; lia].
  - destruct l as [|x l]; [by split|].
    cbn [Consolidation.batches_aux].
    destruct (IH (drop n (x :: l))) as [Hconcat Hall].
    { rewrite length_drop. simpl in *. lia. }
    split.
    + simpl concat. rewrite Hconcat. apply take_drop.
    + constructor; [|done]. split.
      * destruct n; [lia|done].
      * rewrite length_take. lia.
Qed.

(** X1: slicing a list into batches of [n > 0] loses and repeats nothing:
    the batches, put end to end, are the list; no batch is empty and
    none has more than [n] elements. *)
Theorem batches_partition {A} (n : nat) (l : list A) :
  0 < n →
  concat (Consolidation.batches n l) = l
  ∧ Forall (λ b, b ≠ [] ∧ length b ≤ n) (Consolidation.batches n l).
Proof. intros Hn. by apply batches_aux_spec. Qed.

Lemma batches_partition_witness :
  concat (Consolidation.batches 2 ["a"; "b"; "c"; "d"; "e"]) = ["a"; "b"; "c"; "d"; "e"]
  ∧ Forall (λ b, b ≠ [] ∧ length b ≤ 2)
      (Consolidation.batches 2 ["a"; "b"; "c"; "d"; "e"]).
Proof. apply (batches_partition 2 ["a"; "b"; "c"; "d"; "e"]). lia. Defined.

(** ** The names sent to the model *)

Lemma get_canonical_names_spec (c : Table.column) (t : Table.table) :
  NoDup (Consolidation.get_canonical_names c t)
  ∧ ∀ n, n ∈ Consolidation.get_canonical_names c t
         ↔ n ≠ "None" ∧ ∃ r, r ∈ t ∧ Table.get c r = Some n.
Proof.
  unfold Consolidation.get_canonical_names. split; [apply NoDup_remove_dups|].
  intros n. rewrite elem_of_remove_dups, list_elem_of_In, List.filter_In.
  rewrite <- list_elem_of_In, list_elem_of_omap, negb_true_iff, bool_decide_eq_false.
  tauto.
Qed.

(** X2: in the second pass every canonical name of column F2 other than
    the sentinel ["None"] is sent to the model exactly once, in a batch
    of at most 300 names, and nothing else is sent. *)
Theorem second_pass_batches (t : Table.table) :
  let sent := Consolidation.batches 300 (Consolidation.get_canonical_names Table.F2 t) in
  NoDup (concat sent)
  ∧ Forall (λ batch, batch ≠ [] ∧ length batch ≤ 300) sent
  ∧ ∀ n, n ∈ concat sent
         ↔ n ≠ "None" ∧ ∃ r, r ∈ t ∧ Table.canonical_F2 r = Some n.
Proof.
  intros sent.
  destruct (batches_aux_spec (length (Consolidation.get_canonical_names Table.F2 t))
              300 (Consolidation.get_canonical_names Table.F2 t)) as [Hconcat Hall];
    [lia|done|].
  destruct (get_canonical_names_spec Table.F2 t) as [Hnd Hin].
  unfold sent, Consolidation.batches. rewrite Hconcat. by split_and!.
Qed.

(** ** The collected changes *)

Lemma last_assignment_elem_of (old new : string) (pairs : list (string * string)) :
  Spec.last_assignment old pairs = Some new → (old, new) ∈ pairs.
Proof.
  unfold Spec.last_assignment. intros Hlast.
  destruct (last (List.filter _ pairs)) as [[k v]|] eqn:Hl; [|done].
  injection Hlast as ->. apply last_Some_elem_of in Hl.
  apply list_elem_of_In, List.filter_In in Hl as [Hin Hk].
  apply bool_decide_eq_true in Hk. simpl in Hk. subst. by apply list_elem_of_In.
Qed.

(** X3: the changes collected from the answers form a dictionary (no
    old name twice), hold only pairs that some answer gave, and an empty
    answer, which is also what a failed call returns, changes nothing. *)
Theorem collect_changes_sound (responses responses' : list Consolidation.response) :
  NoDup (PyDict.keys (Consolidation.collect_changes responses))
  ∧ (∀ old new, (old, new) ∈ Consolidation.collect_changes responses →
       ∃ changes, changes ∈ responses ∧ (old, new) ∈ changes)
  ∧ Consolidation.collect_changes (responses ++ [] :: responses')
    = Consolidation.collect_changes (responses ++ responses').
Proof.
  split_and!.
  - apply collect_changes_NoDup.
  - intros old new Hin.
    apply pydict_get_Some in Hin; [|apply collect_changes_NoDup].
    unfold Consolidation.collect_changes in Hin.
    rewrite collect_changes_from in Hin. simpl in Hin.
    destruct (Spec.last_assignment old (concat responses)) as [new'|] eqn:Hlast; [|done].
    injection Hin as ->. apply last_assignment_elem_of in Hlast.
    apply list_elem_of_In, in_concat in Hlast as (changes & ? & ?).
    exists changes. by rewrite !list_elem_of_In.
  - unfold Consolidation.collect_changes. by rewrite !foldl_app.
Qed.

(** ** The frame of the updates *)

Lemma rename_frame (R : PyDict.t string string) (v : string) :
  v ∉ PyDict.keys R → Spec.rename R v = v.
Proof.
  unfold Spec.rename, PyDict.keys.
  induction R as [|[old new] R IH]; csimpl; [done|].
  intros [Hne Hnin]%not_elem_of_cons. rewrite decide_False by done. by apply IH.
Qed.

Lemma rename_range (R : PyDict.t string string) (v : string) :
  Spec.rename R v = v ∨ Spec.rename R v ∈ PyDict.values R.
Proof.
  unfold Spec.rename, PyDict.values. revert v.
  induction R as [|[old new] R IH]; intros v; csimpl; [by left|].
  destruct (decide (v = old)) as [->|Hne].
  - right. destruct (IH new) as [->|Hin]; apply elem_of_cons; auto.
  - destruct (IH v) as [->|Hin]; [by left|]. right. apply elem_of_cons; auto.
Qed.

(** X4: the [UPDATE]s of a pass keep the number of rows, their names and
    their other columns; a [NULL] cell stays [NULL], a cell that is no
    old name of the changes keeps its value, and a cell that changes
    takes one of the new names. *)
Theorem apply_changes_frame (c : Table.column) (R : PyDict.t string string)
    (t : Table.table) (i : nat) (r : Table.row) :
  t !! i = Some r →
  length (Consolidation.apply_changes c R t) = length t
  ∧ ∃ r', Consolidation.apply_changes c R t !! i = Some r'
      ∧ Table.name_extracted r' = Table.name_extracted r
      ∧ (∀ c', c' ≠ c → Table.get c' r' = Table.get c' r)
      ∧ (Table.get c r = None → Table.get c r' = None)
      ∧ (∀ v, Table.get c r = Some v → v ∉ PyDict.keys R → Table.get c r' = Some v)
      ∧ (∀ v, Table.get c r = Some v →
           Table.get c r' = Some v
           ∨ ∃ new, Table.get c r' = Some new ∧ new ∈ PyDict.values R).
Proof.
  intros Hi. rewrite apply_changes_rows, length_fmap. split; [done|].
  rewrite list_lookup_fmap, Hi. simpl. eexists. split; [done|].
  rewrite name_extracted_set, get_set. split_and!.
  - done.
  - intros c' Hne. by apply get_set_ne.
  - by intros ->.
  - intros v -> Hv. simpl. by rewrite rename_frame.
  - intros v ->. simpl. destruct (rename_range R v) as [->|Hin]; [by left|].
    right. by eexists.
Qed.

Lemma apply_changes_frame_witness :
  let t := [Table.mkRow "Bill" (Some "William Gates") None None;
            Table.mkRow "x" None None None] in
  length (Consolidation.apply_changes Table.F2 [("William Gates", "Bill Gates")] t)
  = length t.
Proof.
  intros t.
  apply (proj1 (apply_changes_frame Table.F2 [("William Gates", "Bill Gates")] t 1
                  (Table.mkRow "x" None None None) eq_refl)).
Defined.

(** ** The first pass *)

Section first_pass.
Import Consolidation.

Lemma merge_step_get (cm d : PyDict.t string (list string)) (c : string) :
  NoDup (PyDict.keys d) →
  PyDict.get
    (foldl (λ acc cv,
              match PyDict.get acc cv.1 with
              | Some old => PyDict.set acc cv.1 (old ++ cv.2)
              | None => PyDict.set acc cv.1 cv.2
              end) cm d) c
  = match PyDict.get d c with
    | Some variants => Some (default [] (PyDict.get cm c) ++ variants)
    | None => PyDict.get cm c
    end.
Proof.
  unfold PyDict.keys. revert cm.
  induction d as [|[k vs] d IH]; intros cm Hnd; csimpl; [done|].
  apply NoDup_cons in Hnd as [Hnin Hnd]. rewrite IH by done.
  assert (PyDict.get
            match PyDict.get cm k with
            | Some old => PyDict.set cm k (old ++ vs)
            | None => PyDict.set cm k vs
            end c
          = if decide (k = c) then Some (default [] (PyDict.get cm k) ++ vs)
            else PyDict.get cm c) as ->.
  { destruct (PyDict.get cm k); by rewrite pydict_get_set. }
  destruct (decide (k = c)) as [->|Hne].
  - simpl in Hnin. apply pydict_get_None in Hnin. by rewrite Hnin.
  - done.
Qed.

Lemma merge_result_get (cm : PyDict.t string (list string)) (result : grouping)
    (c : string) :
  PyDict.get (merge_result cm result) c
  = match PyDict.get (PyDict.update [] result) c with
    | Some variants => Some (default [] (PyDict.get cm c) ++ variants)
    | None => PyDict.get cm c
    end.
Proof.
  unfold merge_result. apply merge_step_get, pydict_update_NoDup. constructor.
Qed.

Lemma merge_results_get (cm : PyDict.t string (list string))
    (results : list grouping) (c : string) :
  default [] (PyDict.get (foldl merge_result cm results) c)
  = default [] (PyDict.get cm c)
    ++ concat ((λ r, default [] (PyDict.get (PyDict.update [] r) c)) <$> results)
  ∧ (is_Some (PyDict.get (foldl merge_result cm results) c)
     ↔ is_Some (PyDict.get cm c)
       ∨ ∃ r, r ∈ results ∧ is_Some (PyDict.get (PyDict.update [] r) c)).
Proof.
  revert cm. induction results as [|r results IH]; intros cm; csimpl.
  - rewrite app_nil_r. split; [done|]. split; [by left|].
    intros [?|(r & []%elem_of_nil & _)]. done.
  - destruct (IH (merge_result cm r)) as [-> ->]. rewrite merge_result_get.
    setoid_rewrite elem_of_cons.
    destruct (PyDict.get (PyDict.update [] r) c) as [vs|] eqn:Hr; simpl.
    + split; [by rewrite app_assoc|]. split; [|by left; eexists].
      intros _. right. exists r. split; [by left|]. by rewrite Hr.
    + split; [done|]. split.
      * intros [?|(r' & ? & ?)]; [by left|]. right. exists r'. auto.
      * intros [?|(r' & [->|?] & Hs)]; [by left| |right; eauto].
        rewrite Hr in Hs. by destruct Hs.
Qed.

(** X5: merging the answers of the first pass concatenates: a canonical
    name ends with the variants that every answer listed under it, in the
    order of the batches, and it is a key of [consolidation_map] exactly
    when one answer has it as a key. *)
Theorem build_consolidation_map_concat (results : list grouping) (c : string) :
  default [] (PyDict.get (build_consolidation_map results) c)
  = concat ((λ r, default [] (PyDict.get (PyDict.update [] r) c)) <$> results)
  ∧ (is_Some (PyDict.get (build_consolidation_map results) c)
     ↔ ∃ r, r ∈ results ∧ is_Some (PyDict.get (PyDict.update [] r) c)).
Proof.
  unfold build_consolidation_map.
  destruct (merge_results_get [] results c) as [-> ->]. simpl. split; [done|].
  split; [|by right]. intros [[? [=]]|?]. done.
Qed.

Lemma insert_variants_lookup (m : gmap string string) (c : string)
    (vs : list string) (v : string) :
  foldl (λ m' variant, <[variant := c]> m') m vs !! v
  = if decide (v ∈ vs) then Some c else m !! v.
Proof.
  revert m. induction vs as [|v' vs IH]; intros m; cbn [foldl].
  - destruct (decide (v ∈ [])) as [Hin|_]; [by apply elem_of_nil in Hin|done].
  - rewrite IH. destruct (decide (v ∈ vs)) as [Hin|Hnin].
    + rewrite decide_True; [done|]. apply elem_of_cons. by right.
    + destruct (decide (v' = v)) as [->|Hne].
      * rewrite lookup_insert_eq, decide_True; [done|]. apply elem_of_cons. by left.
      * rewrite lookup_insert_ne by done. rewrite decide_False; [done|].
        rewrite elem_of_cons. naive_solver.
Qed.

Lemma reverse_mapping_snoc (cm : PyDict.t string (list string)) (c : string)
    (vs : list string) (v : string) :
  reverse_mapping (cm ++ [(c, vs)]) !! v
  = if decide (v ∈ vs) then Some c else reverse_mapping cm !! v.
Proof. unfold reverse_mapping. rewrite foldl_snoc. apply insert_variants_lookup. Qed.

(** X6: [variant_to_canonical] sends a name to a canonical name that
    lists it, every listed name is sent somewhere, and when several
    entries list a name the last entry of [consolidation_map] wins. *)
Theorem reverse_mapping_spec (cm : PyDict.t string (list string)) (v : string) :
  (∀ c, reverse_mapping cm !! v = Some c → ∃ vs, (c, vs) ∈ cm ∧ v ∈ vs)
  ∧ ((∃ c vs, (c, vs) ∈ cm ∧ v ∈ vs) → is_Some (reverse_mapping cm !! v))
  ∧ (∀ cm1 c vs cm2,
       cm = cm1 ++ (c, vs) :: cm2 → v ∈ vs →
       (∀ c' vs', (c', vs') ∈ cm2 → v ∉ vs') →
       reverse_mapping cm !! v = Some c).
Proof.
  split_and!.
  - induction cm as [|[c' vs'] cm IH] using rev_ind; intros c.
    + unfold reverse_mapping. simpl. by rewrite lookup_empty.
    + rewrite reverse_mapping_snoc. destruct (decide (v ∈ vs')) as [Hin|Hnin].
      * intros [= <-]. exists vs'. split; [|done]. set_solver.
      * intros (vs & ? & ?)%IH. exists vs. split; [|done]. set_solver.
  - induction cm as [|[c' vs'] cm IH] using rev_ind.
    + intros (c & vs & []%elem_of_nil & _).
    + intros (c & vs & [Hin|Hin]%elem_of_app & Hv); rewrite reverse_mapping_snoc.
      * destruct (decide (v ∈ vs')); [by eexists|]. apply IH; eauto.
      * apply list_elem_of_singleton in Hin as [= <- <-].
        rewrite decide_True by done. by eexists.
  - intros cm1 c vs cm2 -> Hv Hlater.
    induction cm2 as [|[c' vs'] cm2 IH] using rev_ind.
    + by rewrite reverse_mapping_snoc, decide_True.
    + rewrite app_comm_cons, app_assoc, reverse_mapping_snoc.
      rewrite decide_False by (apply (Hlater c'); set_solver).
      apply IH. intros c'' vs'' Hin. apply (Hlater c''). set_solver.
Qed.

Lemma reverse_mapping_spec_witness :
  reverse_mapping [("Bill Clinton", ["Clinton"; "B. Clinton"]);
                   ("Hillary Clinton", ["Clinton"]); ("None", ["Bill"])]
    !! "Clinton" = Some "Hillary Clinton".
Proof.
  apply (proj2 (proj2 (reverse_mapping_spec
           [("Bill Clinton", ["Clinton"; "B. Clinton"]);
            ("Hillary Clinton", ["Clinton"]); ("None", ["Bill"])] "Clinton"))
         [("Bill Clinton", ["Clinton"; "B. Clinton"])] "Hillary Clinton" ["Clinton"]
         [("None", ["Bill"])] eq_refl).
  - compute_done.
  - intros c' vs' Hin. apply list_elem_of_singleton in Hin as [= -> ->].
    compute_done.
Defined.

(** X7: when the model has returned at least one group, the first pass
    keeps the rows, their names and their later columns, and gives
    every row a canonical name: a canonical name of [consolidation_map]
    that lists the raw name, or the raw name itself when none does. *)
Theorem first_pass_outcome (results : list grouping) (t : Table.table)
    (i : nat) (r : Table.row) :
  build_consolidation_map results ≠ [] → t !! i = Some r →
  length (run_consolidation results t) = length t
  ∧ ∃ r', run_consolidation results t !! i = Some r'
      ∧ Table.name_extracted r' = Table.name_extracted r
      ∧ Table.canonical_F2c r' = Table.canonical_F2c r
      ∧ Table.canonical_F2d r' = Table.canonical_F2d r
      ∧ ((Table.canonical_F2 r' = Some (Table.name_extracted r)
          ∧ ∀ c vs, (c, vs) ∈ build_consolidation_map results →
                    Table.name_extracted r ∉ vs)
         ∨ (∃ c vs, Table.canonical_F2 r' = Some c
                    ∧ (c, vs) ∈ build_consolidation_map results
                    ∧ Table.name_extracted r ∈ vs)).
Proof.
  intros Hne Hi. rewrite run_consolidation_written by done.
  rewrite length_fmap, list_lookup_fmap, Hi. split; [done|]. simpl.
  eexists. split; [done|]. split_and!; try done. simpl.
  destruct (reverse_mapping_spec (build_consolidation_map results)
              (Table.name_extracted r)) as (Hsound & Hcomplete & _).
  destruct (reverse_mapping (build_consolidation_map results)
              !! Table.name_extracted r) as [c|] eqn:Hc; simpl.
  - right. destruct (Hsound c eq_refl) as (vs & ? & ?). by exists c, vs.
  - left. split; [done|]. intros c vs Hin Hv.
    destruct Hcomplete as [? [=]]. by exists c, vs.
Qed.

Lemma first_pass_outcome_witness :
  let results := [[("Ghislaine Maxwell", ["Maxwell"; "G. Maxwell"])]] in
  let t := [Table.mkRow "Maxwell" None None None; Table.mkRow "Alice" None None None] in
  length (run_consolidation results t) = length t.
Proof.
  intros results t.
  apply (proj1 (first_pass_outcome results t 0 (Table.mkRow "Maxwell" None None None)
                  ltac:(vm_compute; discriminate) eq_refl)).
Defined.
End first_pass.

(** ** Last-name matches *)

Section lastname_matches.
Import Consolidation.
#[local] Arguments PyStr.strip : simpl never.
#[local] Arguments PyStr.split : simpl never.
#[local] Arguments PyStr.lower : simpl never.
#[local] Arguments last_name : simpl never.

Lemma classify_fold (names : list string) (st : list string * list string) :
  foldl classify st names
  = (st.1 ++ (PyStr.strip
                <$> List.filter (λ n, length (PyStr.split (PyStr.strip n)) =? 1) names),
     st.2 ++ (PyStr.strip
                <$> List.filter (λ n, 2 <=? length (PyStr.split (PyStr.strip n))) names)).
Proof.
  revert st. induction names as [|n names IH]; intros [s m].
  { simpl. by rewrite !app_nil_r. }
  cbn [foldl List.filter]. rewrite IH. unfold classify. cbn [fst snd].
  destruct (length (PyStr.split (PyStr.strip n))) as [|[|k]] eqn:Hlen; simpl.
  - done.
  - by rewrite <- app_assoc.
  - by rewrite <- app_assoc.
Qed.

Section one_single.
Variable multi_words : list string.

Lemma match_single_get (matches : PyDict.t string (list string))
    (single k : string) :
  PyDict.get (match_single multi_words matches single) k
  = if decide (single = k) then
      match List.filter (λ multi, bool_decide (PyStr.lower single = last_name multi))
              multi_words with
      | [] => PyDict.get matches single
      | hits => Some (default [] (PyDict.get matches single) ++ hits)
      end
    else PyDict.get matches k.
Proof.
  unfold match_single. revert matches.
  induction multi_words as [|multi M IH]; intros matches; cbn [foldl List.filter].
  - by destruct (decide (single = k)) as [->|].
  - rewrite IH. case_bool_decide as Hcond.
    + rewrite !pydict_get_set. destruct (decide (single = k)) as [->|Hne]; [|done].
      rewrite decide_True by done. simpl.
      destruct (List.filter _ M); simpl; by rewrite <- ?app_assoc.
    + done.
Qed.

Lemma match_single_NoDup (matches : PyDict.t string (list string)) (single : string) :
  NoDup (PyDict.keys matches) →
  NoDup (PyDict.keys (match_single multi_words matches single)).
Proof.
  unfold match_single. revert matches.
  induction multi_words as [|multi M IH]; intros matches Hnd; cbn [foldl]; [done|].
  apply IH. case_bool_decide; [by apply pydict_set_NoDup|done].
Qed.

Lemma match_singles_spec (single_words : list string) :
  let matches := foldl (match_single multi_words) [] single_words in
  NoDup (PyDict.keys matches)
  ∧ (∀ single fulls, PyDict.get matches single = Some fulls →
       fulls ≠ [] ∧ single ∈ single_words
       ∧ ∀ full, full ∈ fulls →
           full ∈ multi_words ∧ PyStr.lower single = last_name full)
  ∧ (∀ single full, single ∈ single_words → full ∈ multi_words →
       PyStr.lower single = last_name full →
       ∃ fulls, PyDict.get matches single = Some fulls ∧ full ∈ fulls).
Proof.
  induction single_words as [|s S IH] using rev_ind.
  { simpl. split_and!; [constructor|done|]. by intros ? ? ?%elem_of_nil. }
  destruct IH as (Hnd & Hsound & Hcomplete). rewrite foldl_snoc.
  set (acc := foldl (match_single multi_words) [] S) in *.
  set (hits := List.filter (λ multi, bool_decide (PyStr.lower s = last_name multi))
                 multi_words).
  assert (∀ full, full ∈ hits ↔ full ∈ multi_words ∧ PyStr.lower s = last_name full)
    as Hhits.
  { intros full. unfold hits.
    by rewrite list_elem_of_In, List.filter_In, <- list_elem_of_In, bool_decide_eq_true. }
  split_and!.
  - by apply match_single_NoDup.
  - intros single fulls. rewrite match_single_get.
    destruct (decide (s = single)) as [<-|Hne].
    + fold hits. destruct hits as [|h hits'] eqn:Hh.
      * intros Hget. destruct (Hsound s fulls Hget) as (? & ? & ?).
        split_and!; [done|set_solver|done].
      * intros [= <-]. split_and!; [by destruct (default [] _)|set_solver|].
        intros full [Hin|Hin]%elem_of_app; [|by apply Hhits].
        destruct (PyDict.get acc s) as [old|] eqn:Hold; simpl in Hin;
          [|by apply elem_of_nil in Hin].
        by apply (Hsound s old Hold).
    + intros Hget. destruct (Hsound single fulls Hget) as (? & ? & ?).
      split_and!; [done|set_solver|done].
  - intros single full [Hin|Hin]%elem_of_app Hfull Hcond.
    + destruct (Hcomplete single full Hin Hfull Hcond) as (fulls & Hget & Hf).
      rewrite match_single_get. destruct (decide (s = single)) as [<-|Hne]; [|eauto].
      fold hits. destruct hits as [|h hits'] eqn:Hh; [eauto|].
      rewrite Hget. eexists. split; [done|]. set_solver.
    + apply list_elem_of_singleton in Hin as ->.
      rewrite match_single_get, decide_True by done. fold hits.
      assert (full ∈ hits) as Hfh by by apply Hhits.
      destruct hits as [|h hits'] eqn:Hh; [by apply elem_of_nil in Hfh|].
      eexists. split; [done|]. set_solver.
Qed.
End one_single.

(** X8: [find_lastname_matches] has one entry per single-word name with a
    match; the entry lists full names of the input (two words or more,
    stripped) whose last word is the single word up to case, never an
    empty list, and every such pair of input names is found. *)
Theorem find_lastname_matches_spec (names : list string) :
  let matches := find_lastname_matches names in
  NoDup (PyDict.keys matches)
  ∧ (∀ single fulls, (single, fulls) ∈ matches →
       fulls ≠ []
       ∧ (∃ n, n ∈ names ∧ single = PyStr.strip n)
       ∧ length (PyStr.split single) = 1
       ∧ ∀ full, full ∈ fulls →
           (∃ n, n ∈ names ∧ full = PyStr.strip n)
           ∧ 2 ≤ length (PyStr.split full)
           ∧ PyStr.lower single = last_name full)
  ∧ (∀ n1 n2, n1 ∈ names → n2 ∈ names →
       length (PyStr.split (PyStr.strip n1)) = 1 →
       2 ≤ length (PyStr.split (PyStr.strip n2)) →
       PyStr.lower (PyStr.strip n1) = last_name (PyStr.strip n2) →
       ∃ fulls, PyDict.get matches (PyStr.strip n1) = Some fulls
                ∧ PyStr.strip n2 ∈ fulls).
Proof.
  unfold find_lastname_matches. rewrite classify_fold. cbn [fst snd app].
  set (S := PyStr.strip
              <$> List.filter (λ n, length (PyStr.split (PyStr.strip n)) =? 1) names).
  set (M := PyStr.strip
              <$> List.filter (λ n, 2 <=? length (PyStr.split (PyStr.strip n))) names).
  assert (∀ x, x ∈ S ↔ ∃ n, n ∈ names ∧ x = PyStr.strip n
                       ∧ length (PyStr.split x) = 1) as HS.
  { intros x. unfold S. rewrite list_elem_of_fmap. split.
    - intros (n & -> & Hn). apply list_elem_of_In, List.filter_In in Hn as [Hn Hl].
      apply Nat.eqb_eq in Hl. exists n. by rewrite list_elem_of_In.
    - intros (n & Hn & -> & Hl). exists n. split; [done|].
      apply list_elem_of_In, List.filter_In. rewrite <- list_elem_of_In.
      by rewrite Nat.eqb_eq. }
  assert (∀ x, x ∈ M ↔ ∃ n, n ∈ names ∧ x = PyStr.strip n
                       ∧ 2 ≤ length (PyStr.split x)) as HM.
  { intros x. unfold M. rewrite list_elem_of_fmap. split.
    - intros (n & -> & Hn). apply list_elem_of_In, List.filter_In in Hn as [Hn Hl].
      apply Nat.leb_le in Hl. exists n. by rewrite list_elem_of_In.
    - intros (n & Hn & -> & Hl). exists n. split; [done|].
      apply list_elem_of_In, List.filter_In. rewrite <- list_elem_of_In.
      by rewrite Nat.leb_le. }
  destruct (match_singles_spec M S) as (Hnd & Hsound & Hcomplete).
  split_and!.
  - done.
  - intros single fulls Hin. apply pydict_get_Some in Hin; [|done].
    destruct (Hsound single fulls Hin) as (Hne & HinS & Hfulls).
    apply HS in HinS as (n & Hn & -> & Hl).
    split_and!; [done|by exists n|done|].
    intros full Hf. destruct (Hfulls full Hf) as [(n' & ? & -> & ?)%HM ?].
    split_and!; [by exists n'|done|done].
  - intros n1 n2 Hn1 Hn2 Hl1 Hl2 Hcond. apply Hcomplete; [| |done].
    + apply HS. by exists n1.
    + apply HM. by exists n2.
Qed.

Lemma find_lastname_matches_spec_witness :
  let names := ["Clinton"; "Bill Clinton"; "Bill"; "Hillary CLINTON"] in
  ∃ fulls, PyDict.get (find_lastname_matches names) (PyStr.strip "Clinton")
           = Some fulls
           ∧ PyStr.strip "Hillary CLINTON" ∈ fulls.
Proof.
  intros names.
  apply (proj2 (proj2 (find_lastname_matches_spec names))
           "Clinton" "Hillary CLINTON"); compute_done.
Defined.
End lastname_matches.

(** ** The text of an answer *)

Section json_text.
Import Consolidation.

Lemma chars_of_chars' (l : list ascii) : PyStr.chars (PyStr.of_chars l) = l.
Proof. apply list_ascii_of_string_of_list_ascii. Qed.

Lemma drop_while_app_stop (p : ascii → bool) (l r : list ascii) (x : ascii) :
  p x = false →
  PyStr.drop_while p (l ++ x :: r) = PyStr.drop_while p l ++ x :: r.
Proof.
  intros Hx. induction l as [|y l IH]; simpl; [by rewrite Hx|].
  by destruct (p y).
Qed.

Lemma drop_while_suffix (p : ascii → bool) (l : list ascii) (c : ascii) :
  c ∈ PyStr.drop_while p l → c ∈ l.
Proof.
  induction l as [|y l IH]; simpl; [done|].
  destruct (p y); [|done]. intros ?%IH. apply elem_of_cons. by right.
Qed.

(** Stripping leaves what lies between two characters that stay. *)
Lemma strip_where_between (p : ascii → bool) (pre mid post : list ascii)
    (x y : ascii) :
  p x = false → p y = false →
  PyStr.strip_where p (PyStr.of_chars (pre ++ x :: mid ++ y :: post))
  = PyStr.of_chars (PyStr.drop_while p pre ++ x :: mid
                      ++ y :: rev (PyStr.drop_while p (rev post))).
Proof.
  intros Hx Hy. unfold PyStr.strip_where. rewrite chars_of_chars'. f_equal.
  replace (pre ++ x :: mid ++ y :: post) with ((pre ++ x :: mid) ++ y :: post)
    by by rewrite <- app_assoc.
  rewrite rev_app_distr. simpl. rewrite <- app_assoc. simpl.
  rewrite drop_while_app_stop by done.
  rewrite rev_app_distr. simpl. rewrite rev_involutive, <- !app_assoc. simpl.
  by rewrite drop_while_app_stop by done.
Qed.

Lemma find_from_app (c : ascii) (i : Z) (l r : list ascii) :
  c ∉ l → PyStr.find_from c i (l ++ c :: r) = (i + Z.of_nat (length l))%Z.
Proof.
  revert i. induction l as [|y l IH]; intros i Hnin; simpl.
  - rewrite Ascii.eqb_refl. lia.
  - apply not_elem_of_cons in Hnin as [Hne Hnin].
    rewrite (proj2 (Ascii.eqb_neq y c)) by done. rewrite IH by done. lia.
Qed.

Lemma find_from_absent (c : ascii) (i : Z) (l : list ascii) :
  c ∉ l → PyStr.find_from c i l = (-1)%Z.
Proof.
  revert i. induction l as [|y l IH]; intros i Hnin; simpl; [done|].
  apply not_elem_of_cons in Hnin as [Hne Hnin].
  rewrite (proj2 (Ascii.eqb_neq y c)) by done. by apply IH.
Qed.

Lemma rfind_from_absent (c : ascii) (i best : Z) (l : list ascii) :
  c ∉ l → PyStr.rfind_from c i best l = best.
Proof.
  revert i. induction l as [|y l IH]; intros i Hnin; simpl; [done|].
  apply not_elem_of_cons in Hnin as [Hne Hnin].
  rewrite (proj2 (Ascii.eqb_neq y c)) by done. by apply IH.
Qed.

Lemma rfind_from_app (c : ascii) (i best : Z) (l r : list ascii) :
  c ∉ r → PyStr.rfind_from c i best (l ++ c :: r) = (i + Z.of_nat (length l))%Z.
Proof.
  intros Hr. revert i best. induction l as [|y l IH]; intros i best; simpl.
  - rewrite Ascii.eqb_refl, rfind_from_absent by done. lia.
  - rewrite IH. lia.
Qed.

Lemma substring_of_chars (a b c : list ascii) :
  String.substring (length a) (length b) (PyStr.of_chars (a ++ b ++ c))
  = PyStr.of_chars b.
Proof.
  induction a as [|x a IH]; simpl; [|done].
  revert c. induction b as [|y b IHb]; intros c; simpl.
  - by destruct (PyStr.of_chars c).
  - f_equal. apply IHb.
Qed.

(** X9: the text given to [json.loads] in the third and fourth pass is the
    span from the first opening brace of the answer to its last closing
    brace, whatever surrounds it; an answer without an opening brace is
    only stripped. *)
Theorem json_text_span (pre body post : list ascii) (text : string) :
  ("{"%char ∉ pre → "}"%char ∉ post →
   json_text (PyStr.of_chars (pre ++ "{"%char :: body ++ "}"%char :: post))
   = PyStr.of_chars ("{"%char :: body ++ ["}"%char]))
  ∧ ("{"%char ∉ PyStr.chars text → json_text text = PyStr.strip text).
Proof.
  split.
  - intros Hpre Hpost. unfold json_text, PyStr.strip.
    rewrite strip_where_between by done.
    set (pre' := PyStr.drop_while PyStr.is_space pre).
    set (post' := rev (PyStr.drop_while PyStr.is_space (rev post))).
    assert ("{"%char ∉ pre') as Hpre'.
    { intros Hin. by apply Hpre, (drop_while_suffix PyStr.is_space). }
    assert ("}"%char ∉ post') as Hpost'.
    { intros Hin. apply Hpost. unfold post' in Hin.
      apply list_elem_of_In, in_rev, list_elem_of_In, drop_while_suffix in Hin.
      by apply list_elem_of_In, in_rev, list_elem_of_In. }
    assert (PyStr.find "{" (PyStr.of_chars
              (pre' ++ "{"%char :: body ++ "}"%char :: post'))
            = Z.of_nat (length pre')) as ->.
    { unfold PyStr.find. rewrite chars_of_chars', find_from_app by done. lia. }
    assert (PyStr.rfind "}" (PyStr.of_chars
              (pre' ++ "{"%char :: body ++ "}"%char :: post'))
            = Z.of_nat (length pre' + S (length body))) as ->.
    { unfold PyStr.rfind. rewrite chars_of_chars'.
      replace (pre' ++ "{"%char :: body ++ "}"%char :: post')
        with ((pre' ++ "{"%char :: body) ++ "}"%char :: post')
        by by rewrite <- app_assoc.
      rewrite rfind_from_app by done. rewrite length_app. simpl length. lia. }
    rewrite (proj2 (Z.leb_le _ _)), (proj2 (Z.ltb_lt _ _)) by lia.
    cbn [andb]. unfold PyStr.slice.
    replace (Z.to_nat (Z.of_nat (length pre'))) with (length pre') by lia.
    replace (Z.to_nat _) with (length ("{"%char :: body ++ ["}"%char]))
      by (simpl length; rewrite length_app; simpl length; lia).
    replace (pre' ++ "{"%char :: body ++ "}"%char :: post')
      with (pre' ++ ("{"%char :: body ++ ["}"%char]) ++ post')
      by (simpl; by rewrite <- app_assoc).
    apply substring_of_chars.
  - intros Hnin. unfold json_text.
    assert (PyStr.find "{" (PyStr.strip text) = (-1)%Z) as ->; [|done].
    unfold PyStr.find. apply find_from_absent.
    unfold PyStr.strip, PyStr.strip_where. rewrite chars_of_chars'.
    intros Hin. apply Hnin.
    apply drop_while_suffix, list_elem_of_In, in_rev, list_elem_of_In in Hin.
    by apply drop_while_suffix, list_elem_of_In, in_rev, list_elem_of_In in Hin.
Qed.

Lemma json_text_span_witness :
  json_text "Here you are:  {'a': 'b'}  Done." = "{'a': 'b'}"
  ∧ json_text "  no object here " = "no object here".
Proof.
  split.
  - apply (proj1 (json_text_span (PyStr.chars "Here you are:  ")
                    (PyStr.chars "'a': 'b'") (PyStr.chars "  Done.") EmptyString));
      vm_compute; set_solver.
  - apply (proj2 (json_text_span [] [] [] "  no object here ")).
    vm_compute. set_solver.
Defined.
End json_text.

(** ** The keys and the counts of [create_unique_names.py] *)

Section unique_names.
Import Corpus Inv.

Lemma drop_while_no_lead (p : ascii → bool) (l : list ascii) :
  no_lead p (PyStr.drop_while p l).
Proof.
  induction l as [|x l IH]; simpl; [done|].
  by destruct (p x) eqn:Hx.
Qed.

Lemma drop_while_fixed (p : ascii → bool) (l : list ascii) :
  no_lead p l → PyStr.drop_while p l = l.
Proof. destruct l as [|x l]; simpl; [done|]. by intros ->. Qed.

Lemma no_lead_rev_drop_while (p : ascii → bool) (l : list ascii) :
  no_lead p (rev l) → no_lead p (rev (PyStr.drop_while p l)).
Proof.
  induction l as [|x l IH]; simpl; [done|].
  destruct (p x) eqn:Hx; [|done].
  intros Hlead. apply IH. destruct (rev l) as [|y r]; simpl in *; [congruence|done].
Qed.

Lemma strip_where_idempotent (p : ascii → bool) (s : string) :
  PyStr.strip_where p (PyStr.strip_where p s) = PyStr.strip_where p s.
Proof.
  unfold PyStr.strip_where. rewrite chars_of_chars'.
  set (l := PyStr.drop_while p (rev (PyStr.chars s))).
  f_equal.
  assert (no_lead p (rev (rev l))) as Hl.
  { rewrite rev_involutive. apply drop_while_no_lead. }
  rewrite (drop_while_fixed p (rev (PyStr.drop_while p (rev l))))
    by by apply no_lead_rev_drop_while.
  rewrite rev_involutive. apply drop_while_fixed, drop_while_no_lead.
Qed.

Lemma strip_idempotent (s : string) : PyStr.strip (PyStr.strip s) = PyStr.strip s.
Proof. apply strip_where_idempotent. Qed.

Lemma truthy_ne (s : string) : PyStr.truthy s = true ↔ s ≠ "".
Proof. destruct s; simpl; split; congruence. Qed.

Lemma size_list_to_set_le (l : list string) :
  size (list_to_set (C := gset string) l) ≤ length l.
Proof.
  induction l as [|x l IH].
  - rewrite list_to_set_nil, size_empty. simpl. lia.
  - rewrite list_to_set_cons, size_union_alt, size_singleton.
    assert (size (list_to_set (C := gset string) l ∖ {[x]})
            ≤ size (list_to_set (C := gset string) l)) as Hle
      by (apply subseteq_size; set_solver).
    simpl. lia.
Qed.

Lemma add_name_key_ok (thread : string) (m : gmap string (gset string))
    (raw : string) :
  key_ok m → key_ok (CreateUniqueNames.add_name thread m raw).
Proof.
  intros Hm. unfold CreateUniqueNames.add_name.
  destruct (PyStr.truthy raw && PyStr.truthy (PyStr.strip raw)) eqn:Hraw; [|done].
  apply andb_true_iff in Hraw as [_ Hstrip%truthy_ne].
  intros name threads. rewrite lookup_insert_Some.
  intros [[<- <-]|[_ Hlook]]; [|by apply Hm].
  split_and!; [done|apply strip_idempotent|set_solver].
Qed.

Lemma name_threads_key_ok (rows : list email) :
  key_ok (CreateUniqueNames.name_threads rows).
Proof.
  unfold CreateUniqueNames.name_threads.
  induction rows as [|row rows IH] using rev_ind; [done|].
  rewrite foldl_snoc. unfold CreateUniqueNames.add_row at 1.
  destruct (names_mentioned row) as [names|]; [|done].
  generalize dependent (foldl CreateUniqueNames.add_row ∅ rows). intros m Hm.
  induction names as [|raw names IHn] using rev_ind; [done|].
  rewrite foldl_snoc. by apply add_name_key_ok.
Qed.

(** X10: every key of [name_threads] is a non-empty name that [strip]
    leaves unchanged, its set of threads is not empty and holds only
    [thread_id]s of rows that list the name, and its count lies between 1
    and the number of rows; a name that is no key has the count 0. *)
Theorem name_threads_keys (rows : list Corpus.email) (name : string) :
  (∀ threads, CreateUniqueNames.name_threads rows !! name = Some threads →
     name ≠ "" ∧ PyStr.strip name = name
     ∧ (∀ th, th ∈ threads →
          ∃ row, row ∈ rows ∧ Corpus.thread_id row = th
                 ∧ Spec.mentions_raw name row = true)
     ∧ CreateUniqueNames.name_counts rows name = size threads
     ∧ 1 ≤ size threads ≤ length rows)
  ∧ (CreateUniqueNames.name_threads rows !! name = None →
     CreateUniqueNames.name_counts rows name = 0).
Proof.
  split.
  - intros threads Hlook.
    destruct (name_threads_key_ok rows name threads Hlook) as (Hne & Hstrip & Hths).
    pose proof (name_threads_lookup rows name) as Heq. rewrite Hlook in Heq.
    simpl in Heq. split_and!; [done|done| | | |].
    + intros th. rewrite Heq. unfold Spec.threads_where.
      rewrite elem_of_list_to_set, list_elem_of_fmap.
      intros (row & -> & Hrow). apply list_elem_of_In, filter_In in Hrow as [Hin HP].
      exists row. by rewrite list_elem_of_In.
    + unfold CreateUniqueNames.name_counts. by rewrite Hlook.
    + assert (size threads ≠ 0); [|lia].
      apply size_non_empty_iff. by intros ?%leibniz_equiv.
    + rewrite Heq. unfold Spec.threads_where.
      etrans; [apply size_list_to_set_le|]. rewrite length_fmap.
      apply filter_length_le.
  - intros Hlook. unfold CreateUniqueNames.name_counts. by rewrite Hlook.
Qed.

Lemma name_threads_keys_witness :
  let rows := [mkEmail "t1" None (Some ["  Ann "; "Ann"; " "]);
               mkEmail "t2" None (Some ["Ann"])] in
  CreateUniqueNames.name_threads rows !! "Ann" = Some {["t1"; "t2"]}
  ∧ PyStr.strip "Ann" = "Ann"
  ∧ CreateUniqueNames.name_counts rows "Ann" = 2
  ∧ CreateUniqueNames.name_counts rows " " = 0.
Proof.
  intros rows.
  assert (CreateUniqueNames.name_threads rows !! "Ann" = Some {["t1"; "t2"]})
    as Hlook by (vm_compute; reflexivity).
  destruct (proj1 (name_threads_keys rows "Ann") _ Hlook) as (_ & Hs & _ & Hc & _).
  split_and!; [exact Hlook|exact Hs| |].
  - rewrite Hc. vm_compute. reflexivity.
  - apply (proj2 (name_threads_keys rows " ")). vm_compute. reflexivity.
Defined.
End unique_names.

(** ** The table written by [create_unique_names.py] *)

Section unique_names_table.
Import Corpus UniqueNamesTable.

(** X11: when the table exists, the loop of [UPDATE] statements over the
    counted names, in whatever order the dictionary gives them, amounts to
    one pass over the rows: a row whose name was counted gets the new
    count, every other row keeps its old value, no row is added or
    removed, and the name and the canonical columns of every row are
    kept. *)
Theorem main_updates_in_place (t : list counted_row) (rows : list Corpus.email) :
  main (Some t) rows
  = (λ r, match CreateUniqueNames.name_threads rows
                  !! Table.name_extracted (base r) with
          | Some threads => mkCounted (base r) (Some (size threads))
          | None => r
          end) <$> t.
Proof.
  unfold main.
  pose proof (map_fold_weak_ind
    (λ (res : list counted_row) (m : gmap string (gset string)),
       res = (λ r, match m !! Table.name_extracted (base r) with
                   | Some threads => mkCounted (base r) (Some (size threads))
                   | None => r
                   end) <$> t)
    (λ name threads t, update_occurrences name (size threads) t) t) as Hind.
  apply Hind; clear Hind.
  - symmetry. etrans; [|apply list_fmap_id]. apply list_fmap_ext.
    intros i r _. by rewrite lookup_empty.
  - intros name threads m res Hnone ->. unfold update_occurrences.
    rewrite <- list_fmap_compose. apply list_fmap_ext. intros i r _. simpl.
    destruct (decide (Table.name_extracted (base r) = name)) as [Heq|Hne].
    + rewrite Heq, Hnone, lookup_insert_eq. simpl. rewrite Heq.
      by rewrite decide_True by done.
    + rewrite lookup_insert_ne by done.
      destruct (m !! Table.name_extracted (base r)); simpl;
        by rewrite decide_False by done.
Qed.

(** X12: when the table does not exist, it is created with one row for
    every counted name and no other, in strictly ascending order of the
    names (so that no name has two rows), each with its count, which is at
    least 1. *)
Theorem main_creates_sorted (rows : list Corpus.email) :
  let t := main None rows in
  StronglySorted PyStr.lt ((λ r, Table.name_extracted (base r)) <$> t)
  ∧ (∀ name, name ∈ (λ r, Table.name_extracted (base r)) <$> t
             ↔ is_Some (CreateUniqueNames.name_threads rows !! name))
  ∧ (∀ r, r ∈ t →
       occurrences r
       = Some (CreateUniqueNames.name_counts rows (Table.name_extracted (base r)))
       ∧ 1 ≤ CreateUniqueNames.name_counts rows (Table.name_extracted (base r))
       ∧ Table.canonical_F2 (base r) = None
       ∧ Table.canonical_F2c (base r) = None
       ∧ Table.canonical_F2d (base r) = None).
Proof.
  intros t. unfold t, main.
  set (names := BuildNetwork.sorted (dom (CreateUniqueNames.name_threads rows))).
  rewrite <- list_fmap_compose.
  assert ((λ r, Table.name_extracted (base r))
            ∘ (λ name, mkCounted (Table.mkRow name None None None)
                         (Some (CreateUniqueNames.name_counts rows name)))
          = id) as -> by done.
  rewrite list_fmap_id. split_and!.
  - apply sorted_lt.
  - intros name. unfold names. by rewrite sorted_elem_of, elem_of_dom.
  - intros r (name & -> & Hin)%list_elem_of_fmap. simpl.
    unfold names in Hin. rewrite sorted_elem_of, elem_of_dom in Hin.
    destruct Hin as [threads Hlook].
    destruct (name_threads_key_ok rows name threads Hlook) as (_ & _ & Hths).
    assert (CreateUniqueNames.name_counts rows name = size threads) as Hc.
    { unfold CreateUniqueNames.name_counts. by rewrite Hlook. }
    assert (size threads ≠ 0) as Hpos.
    { apply size_non_empty_iff. by intros ?%leibniz_equiv. }
    split_and!; [done|lia|done..].
Qed.
End unique_names_table.

(** ** The mapping read by [build_network.py] *)

Section name_mapping.
Import Corpus Table BuildNetwork.

Lemma find_snoc {A} (P : A → bool) (l : list A) (x : A) :
  List.find P (l ++ [x])
  = match List.find P l with
    | Some y => Some y
    | None => if P x then Some x else None
    end.
Proof.
  induction l as [|y l IH]; simpl; [done|]. by destruct (P y).
Qed.

Lemma find_absent {A} (P : A → bool) (l : list A) :
  (∀ x, x ∈ l → P x = false) → List.find P l = None.
Proof.
  induction l as [|y l IH]; intros Hall; simpl; [done|].
  rewrite (Hall y) by (apply elem_of_cons; auto).
  apply IH. intros x Hx. apply Hall, elem_of_cons. auto.
Qed.

Lemma find_rev_unique (raw : string) (t : table) :
  NoDup (name_extracted <$> t) →
  List.find (λ r, bool_decide (name_extracted r = raw)) (rev t)
  = List.find (λ r, bool_decide (name_extracted r = raw)) t.
Proof.
  induction t as [|r t IH]; [done|]. csimpl.
  intros [Hnin Hnd]%NoDup_cons. rewrite find_snoc, IH by done.
  case_bool_decide as Hr; [|by destruct (List.find _ t)].
  rewrite find_absent; [done|]. intros x Hx. apply bool_decide_eq_false.
  intros Hxr. apply Hnin, list_elem_of_fmap. exists x. split; congruence.
Qed.

Lemma load_name_mapping_rev (t : table) (raw : string) :
  load_name_mapping t !! raw = generation F2d (rev t) raw.
Proof.
  unfold load_name_mapping, generation.
  induction t as [|r t IH] using rev_ind; [done|].
  rewrite foldl_snoc, rev_app_distr. simpl.
  case_bool_decide as Hr.
  - by rewrite Hr, lookup_insert_eq.
  - by rewrite lookup_insert_ne.
Qed.

End name_mapping.

(** ** Occurrences and weights in [build_network.py] *)

Section weights.
Import Corpus BuildNetwork.

Lemma incr_pos {K} `{Countable K} (k : K) (c : gmap K nat) :
  (∀ k' n, c !! k' = Some n → 1 ≤ n) →
  ∀ k' n, incr k c !! k' = Some n → 1 ≤ n.
Proof.
  intros Hc k' n. unfold incr. rewrite lookup_insert_Some.
  intros [[_ <-]|[_ Hlook]]; [lia|by eapply Hc].
Qed.

Lemma count_pos {K} `{Countable K} (c : gmap K nat) (k : K) :
  (∀ k' n, c !! k' = Some n → 1 ≤ n) →
  is_Some (c !! k) ↔ 1 ≤ count c k.
Proof.
  intros Hc. unfold count. destruct (c !! k) as [n|] eqn:Hk; simpl.
  - split; [intros _; by eapply Hc|by eexists].
  - split; [by intros [? ?]|lia].
Qed.

Lemma set_fold_incr_pos (counts : gmap string nat) (s : gset string) :
  (∀ k n, counts !! k = Some n → 1 ≤ n) →
  ∀ k n, set_fold incr counts s !! k = Some n → 1 ≤ n.
Proof.
  intros Hc.
  pose proof (set_fold_ind_L
    (λ (r : gmap string nat) (_ : gset string), ∀ k n, r !! k = Some n → 1 ≤ n)
    incr counts) as Hind.
  apply Hind; clear Hind; [done|].
  intros x X r _ IH. by apply incr_pos.
Qed.

Lemma person_counts_pos (m : gmap string (option string)) (emails : list email) :
  ∀ k n, person_counts m emails !! k = Some n → 1 ≤ n.
Proof.
  unfold person_counts.
  induction emails as [|e emails IH] using rev_ind; [by intros k n|].
  rewrite foldl_snoc. by apply set_fold_incr_pos.
Qed.

Lemma elem_of_valid_persons (m : gmap string (option string))
    (min_occurrences : nat) (emails : list email) (p : string) :
  p ∈ valid_persons m min_occurrences emails
  ↔ 1 ≤ count (person_counts m emails) p
    ∧ min_occurrences ≤ count (person_counts m emails) p.
Proof.
  unfold valid_persons. rewrite elem_of_dom. unfold is_Some.
  setoid_rewrite map_lookup_filter_Some. simpl.
  rewrite <- count_pos by apply person_counts_pos. unfold count.
  split.
  - intros (n & Hlook & Hle). rewrite Hlook. simpl. split; [by eexists|done].
  - intros [[n Hlook] Hle]. rewrite Hlook in Hle. by exists n.
Qed.

(** X15: a person passes the occurrence filter exactly when the number of
    e-mails whose set of persons holds it is at least the threshold, and at
    least 1: with the threshold 0 a name that no e-mail mentions is still
    no valid person. *)
Theorem valid_persons_spec (name_mapping : gmap string (option string))
    (min_occurrences : nat) (emails : list Corpus.email) (p : string) :
  let n := length (List.filter
                     (λ e, bool_decide (p ∈ BuildNetwork.persons_of name_mapping e))
                     emails) in
  BuildNetwork.count (BuildNetwork.person_counts name_mapping emails) p = n
  ∧ (p ∈ BuildNetwork.valid_persons name_mapping min_occurrences emails
     ↔ 1 ≤ n ∧ min_occurrences ≤ n)
  ∧ (is_Some (BuildNetwork.person_counts name_mapping emails !! p) ↔ 1 ≤ n).
Proof.
  intros n. unfold n. rewrite <- person_counts_rows. split_and!; [done| |].
  - apply elem_of_valid_persons.
  - apply count_pos, person_counts_pos.
Qed.

Lemma combinations2_elem {A} (l : list A) (a b : A) :
  (a, b) ∈ combinations2 l → a ∈ l ∧ b ∈ l.
Proof.
  induction l as [|x l IH]; simpl; [by intros ?%elem_of_nil|].
  rewrite elem_of_app, list_elem_of_fmap.
  intros [(y & [= -> ->] & Hy)|[Ha Hb]%IH].
  - split; apply elem_of_cons; auto.
  - split; apply elem_of_cons; auto.
Qed.

Lemma StronglySorted_lt_NoDup (l : list string) :
  StronglySorted PyStr.lt l → NoDup l.
Proof.
  induction 1 as [|x l Hsorted IH Hall]; [constructor|].
  apply NoDup_cons. split; [|done]. intros Hin.
  rewrite Forall_forall in Hall. by apply (str_lt_irrefl x), Hall.
Qed.

Lemma combinations2_sorted_iff (l : list string) (a b : string) :
  StronglySorted PyStr.lt l →
  (a, b) ∈ combinations2 l ↔ a ∈ l ∧ b ∈ l ∧ PyStr.lt a b.
Proof.
  intros Hsorted. split.
  - intros Hin. destruct (combinations2_elem _ _ _ Hin) as [Ha Hb].
    split_and!; [done..|]. by eapply (combinations2_sorted PyStr.lt).
  - induction Hsorted as [|x l Hsorted IH Hall]; simpl.
    + by intros [?%elem_of_nil _].
    + rewrite Forall_forall in Hall.
      intros (Ha & Hb & Hlt). rewrite elem_of_app, list_elem_of_fmap.
      apply elem_of_cons in Ha as [->|Ha].
      * left. exists b. split; [done|].
        apply elem_of_cons in Hb as [->|Hb]; [|done].
        by apply str_lt_irrefl in Hlt.
      * right. apply IH. split_and!; [done| |done].
        apply elem_of_cons in Hb as [->|Hb]; [|done].
        exfalso. by apply (str_lt_asym a x), Hall.
Qed.

Lemma combinations2_NoDup {A} (l : list A) : NoDup l → NoDup (combinations2 l).
Proof.
  induction 1 as [|x l Hnin Hnd IH]; simpl; [constructor|].
  apply NoDup_app. split_and!; [| |done].
  - apply NoDup_fmap_2; [|done]. by intros y z [= ->].
  - intros [a b] (y & [= -> ->] & Hy)%list_elem_of_fmap Hin.
    by apply combinations2_elem in Hin as [? _].
Qed.

Lemma filter_eq_NoDup {A} `{EqDecision A} (l : list A) (k : A) :
  NoDup l →
  length (List.filter (λ p, bool_decide (p = k)) l) = if decide (k ∈ l) then 1 else 0.
Proof.
  induction 1 as [|x l Hnin Hnd IH]; cbn [List.filter].
  - by rewrite decide_False by apply not_elem_of_nil.
  - case_bool_decide as Hx.
    + subst x. cbn [length]. rewrite IH, decide_False by done.
      by rewrite decide_True by (apply elem_of_cons; by left).
    + rewrite IH. destruct (decide (k ∈ l)).
      * by rewrite decide_True by (apply elem_of_cons; by right).
      * rewrite decide_False; [done|]. intros [->|?]%elem_of_cons; done.
Qed.

Lemma add_pairs_count (excerpt : string) (ps : list (string * string))
    (st : edge_state) (k : string * string) :
  count (edges (foldl (add_pair excerpt) st ps)) k
  = count (edges st) k + length (List.filter (λ p, bool_decide (p = k)) ps).
Proof.
  revert st. induction ps as [|p ps IH]; intros st; cbn [foldl List.filter].
  { simpl. lia. }
  rewrite IH. unfold add_pair. cbn [edges]. rewrite count_incr.
  case_bool_decide as Hp.
  - rewrite decide_True by done. subst. cbn [length]. lia.
  - rewrite decide_False by done. lia.
Qed.

Lemma add_email_count (valid : gset string) (st : edge_state)
    (item : string * option string * gset string) (a b : string) :
  count (edges (add_email valid st item)) (a, b)
  = count (edges st) (a, b)
    + (if decide (PyStr.lt a b ∧ (a ∈ valid ∧ b ∈ valid)
                  ∧ a ∈ item.2 ∧ b ∈ item.2) then 1 else 0).
Proof.
  unfold add_email. rewrite add_pairs_count. f_equal.
  rewrite filter_eq_NoDup
    by apply combinations2_NoDup, StronglySorted_lt_NoDup, sorted_lt.
  apply decide_ext. rewrite combinations2_sorted_iff by apply sorted_lt.
  rewrite !sorted_elem_of, !elem_of_filter. tauto.
Qed.

Lemma edges_count_from (valid : gset string) (st : edge_state)
    (items : list (string * option string * gset string)) (a b : string) :
  count (edges (foldl (add_email valid) st items)) (a, b)
  = count (edges st) (a, b)
    + (if decide (PyStr.lt a b ∧ a ∈ valid ∧ b ∈ valid)
       then length (List.filter (λ item, bool_decide (a ∈ item.2 ∧ b ∈ item.2)) items)
       else 0).
Proof.
  revert st. induction items as [|item items IH]; intros st; simpl.
  { destruct (decide _); simpl; lia. }
  rewrite IH, add_email_count.
  destruct (decide (PyStr.lt a b ∧ a ∈ valid ∧ b ∈ valid)) as [Hv|Hv].
  - case_bool_decide as Hi.
    + rewrite decide_True by tauto. simpl. lia.
    + rewrite decide_False by tauto. lia.
  - rewrite decide_False by tauto. lia.
Qed.

Lemma add_pairs_pos (excerpt : string) (ps : list (string * string))
    (st : edge_state) :
  (∀ k n, edges st !! k = Some n → 1 ≤ n) →
  ∀ k n, edges (foldl (add_pair excerpt) st ps) !! k = Some n → 1 ≤ n.
Proof.
  revert st. induction ps as [|p ps IH]; intros st Hst; simpl; [done|].
  apply IH. unfold add_pair. simpl. by apply incr_pos.
Qed.

Lemma edges_pos_from (valid : gset string) (st : edge_state)
    (items : list (string * option string * gset string)) :
  (∀ k n, edges st !! k = Some n → 1 ≤ n) →
  ∀ k n, edges (foldl (add_email valid) st items) !! k = Some n → 1 ≤ n.
Proof.
  revert st. induction items as [|item items IH]; intros st Hst; simpl; [done|].
  apply IH. unfold add_email. by apply add_pairs_pos.
Qed.

Lemma build_edges_pos (m : gmap string (option string)) (min_occurrences : nat)
    (emails : list email) :
  ∀ k n, edges (build_edges m min_occurrences emails) !! k = Some n → 1 ≤ n.
Proof. unfold build_edges. apply edges_pos_from. by intros k n. Qed.

Lemma build_edges_count (m : gmap string (option string)) (min_occurrences : nat)
    (emails : list email) (a b : string) :
  count (edges (build_edges m min_occurrences emails)) (a, b)
  = if decide (PyStr.lt a b ∧ a ∈ valid_persons m min_occurrences emails
               ∧ b ∈ valid_persons m min_occurrences emails)
    then length (List.filter
                   (λ e, bool_decide (a ∈ persons_of m e ∧ b ∈ persons_of m e))
                   emails)
    else 0.
Proof.
  assert (∀ l : list email,
            length (List.filter
                      (λ item : string * option string * gset string,
                         bool_decide (a ∈ item.2 ∧ b ∈ item.2))
                      (email_persons m l))
            = length (List.filter
                        (λ e, bool_decide (a ∈ persons_of m e ∧ b ∈ persons_of m e))
                        l)) as Hlen.
  { intros l. unfold email_persons. induction l as [|e l IH]; [done|]. csimpl.
    case_bool_decide; simpl; by rewrite IH. }
  unfold build_edges. rewrite edges_count_from, Hlen. cbn [edges].
  unfold count at 1. by rewrite lookup_empty.
Qed.

Lemma build_edges_is_Some (m : gmap string (option string))
    (min_occurrences : nat) (emails : list email) (a b : string) :
  is_Some (edges (build_edges m min_occurrences emails) !! (a, b))
  ↔ PyStr.lt a b ∧ a ∈ valid_persons m min_occurrences emails
    ∧ b ∈ valid_persons m min_occurrences emails
    ∧ 1 ≤ length (List.filter
                    (λ e, bool_decide (a ∈ persons_of m e ∧ b ∈ persons_of m e))
                    emails).
Proof.
  rewrite count_pos by apply build_edges_pos. rewrite build_edges_count.
  destruct (decide _) as [Hv|Hv]; [tauto|]. split; [lia|tauto].
Qed.

(** X16: the weight of a pair in the edge counter is the number of e-mails
    whose set of persons holds both names, when the pair is increasing and
    both names pass the occurrence filter, and 0 otherwise; the pair is a
    key of the counter exactly when this number is not 0, so that both
    ends of a key are valid persons that some e-mail mentions together. *)
Theorem edge_weight_is_cooccurrence (name_mapping : gmap string (option string))
    (min_occurrences : nat) (emails : list Corpus.email) (a b : string) :
  let es := BuildNetwork.edges
              (BuildNetwork.build_edges name_mapping min_occurrences emails) in
  let valid := BuildNetwork.valid_persons name_mapping min_occurrences emails in
  let together :=
    length (List.filter
              (λ e, bool_decide (a ∈ BuildNetwork.persons_of name_mapping e
                                 ∧ b ∈ BuildNetwork.persons_of name_mapping e))
              emails) in
  BuildNetwork.count es (a, b)
  = (if decide (PyStr.lt a b ∧ a ∈ valid ∧ b ∈ valid) then together else 0)
  ∧ (is_Some (es !! (a, b))
     ↔ PyStr.lt a b ∧ a ∈ valid ∧ b ∈ valid ∧ 1 ≤ together)
  ∧ together ≤ length emails.
Proof.
  intros es valid together. split_and!.
  - apply build_edges_count.
  - apply build_edges_is_Some.
  - apply filter_length_le.
Qed.
End weights.

(** ** The nodes of the graph *)

Section graph_nodes.
Import Corpus BuildNetwork.

Lemma graph_of_edges_nodes (min_edge_weight : nat)
    (es : gmap (string * string) nat) (n : string) :
  n ∈ nodes (graph_of_edges min_edge_weight es)
  ↔ ∃ k w, es !! k = Some w ∧ min_edge_weight ≤ w ∧ (n = k.1 ∨ n = k.2).
Proof.
  revert n. unfold graph_of_edges.
  pose proof (map_fold_weak_ind
    (λ (G : graph) (m : gmap (string * string) nat),
       ∀ n, n ∈ nodes G
            ↔ ∃ k w, m !! k = Some w ∧ min_edge_weight ≤ w ∧ (n = k.1 ∨ n = k.2))
    (λ p w G, if min_edge_weight <=? w then add_edge p.1 p.2 w G else G)
    empty_graph) as Hind.
  apply Hind; clear Hind.
  - intros n. simpl. split; [set_solver|].
    intros (k & w & Hk & _). by rewrite lookup_empty in Hk.
  - intros k0 w0 m G Hnone IH n.
    assert (n ∈ nodes (if min_edge_weight <=? w0 then add_edge k0.1 k0.2 w0 G else G)
            ↔ (min_edge_weight ≤ w0 ∧ (n = k0.1 ∨ n = k0.2)) ∨ n ∈ nodes G) as ->.
    { destruct (Nat.leb_spec min_edge_weight w0); simpl; [set_solver|].
      split; [auto|]. intros [[? _]|?]; [lia|done]. }
    rewrite IH. split.
    + intros [[Hle Hn]|(k & w & Hk & Hle & Hn)].
      * exists k0, w0. by rewrite lookup_insert_eq.
      * exists k, w. rewrite lookup_insert_ne; [done|]. intros ->. congruence.
    + intros (k & w & Hk & Hle & Hn).
      apply lookup_insert_Some in Hk as [[<- <-]|[_ Hk]]; [by left|].
      right. by exists k, w.
Qed.

Lemma weight_degree (G : graph) (n m : string) (w : nat) :
  weight G n m = Some w → degree G n ≠ 0.
Proof.
  unfold weight, degree. intros Hw.
  assert (size (neighbours G n) ≠ 0); [|lia].
  apply map_size_ne_0_lookup. exists m. by eexists.
Qed.

Lemma graph_of_edges_isolates (min_edge_weight : nat)
    (es : gmap (string * string) nat) :
  (∀ k, is_Some (es !! k) → PyStr.lt k.1 k.2) →
  isolates (graph_of_edges min_edge_weight es) = ∅.
Proof.
  intros Hkeys. apply set_eq. intros n. split; [|set_solver].
  unfold isolates. rewrite elem_of_filter, graph_of_edges_nodes.
  intros [Hdeg (k & w & Hk & Hle & Hn)]. exfalso.
  assert (weight (graph_of_edges min_edge_weight es) k.1 k.2 = Some w) as Hw.
  { rewrite graph_of_edges_weight by (try apply Hkeys; by eauto).
    destruct k as [a b]. simpl. rewrite Hk. simpl.
    by rewrite (proj2 (Nat.leb_le _ _)). }
  destruct Hn as [->| ->].
  - by apply weight_degree in Hw.
  - rewrite graph_of_edges_symmetric in Hw. by apply weight_degree in Hw.
Qed.

Lemma remove_nodes_from_empty (G : graph) : remove_nodes_from ∅ G = G.
Proof.
  destruct G as [ns a]. unfold remove_nodes_from. simpl. f_equal; [set_solver|].
  rewrite map_filter_id by (intros; set_solver).
  etrans; [|apply map_fmap_id]. apply map_fmap_ext. intros i nb _.
  apply map_filter_id. intros; set_solver.
Qed.

Lemma valid_person_consolidated (m : gmap string (option string))
    (min_occurrences : nat) (emails : list email) (p : string) :
  p ∈ valid_persons m min_occurrences emails →
  p ≠ "" ∧ p ≠ "None" ∧ (p ∉ EXCLUDED_NAMES)
  ∧ ∃ e raw names, e ∈ emails ∧ names_mentioned e = Some names ∧ raw ∈ names
                   ∧ (raw ∉ EXCLUDED_NAMES) ∧ m !! raw = Some (Some p).
Proof.
  intros [Hpos _]%elem_of_valid_persons. rewrite person_counts_rows in Hpos.
  destruct (List.filter _ emails) as [|e l] eqn:Hfilter; [simpl in Hpos; lia|].
  assert (In e (List.filter
                  (λ e, bool_decide (p ∈ persons_of m e)) emails)) as Hin
    by (rewrite Hfilter; by left).
  apply filter_In in Hin as [Hin Hp%bool_decide_eq_true].
  unfold persons_of in Hp. destruct (names_mentioned e) as [names|] eqn:Hnames;
    [|set_solver].
  apply elem_of_fold_add_person in Hp as [?|(Hne & raw & Hraw & Hcons)];
    [set_solver|].
  apply consolidate_name_Some in Hcons as (Hm & _ & Hnone & Hex & Hexraw).
  split_and!; [done..|]. exists e, raw, names. by rewrite list_elem_of_In.
Qed.

Lemma build_graph_graph_of_edges (m : gmap string (option string))
    (min_occurrences min_edge_weight : nat) (emails : list email) :
  build_graph m min_occurrences min_edge_weight emails
  = graph_of_edges min_edge_weight (edges (build_edges m min_occurrences emails)).
Proof.
  unfold build_graph. rewrite graph_of_edges_isolates.
  - apply remove_nodes_from_empty.
  - intros k. apply build_edges_keys.
Qed.

Lemma build_graph_node_valid (m : gmap string (option string))
    (min_occurrences min_edge_weight : nat) (emails : list email) (n : string) :
  n ∈ nodes (build_graph m min_occurrences min_edge_weight emails) →
  n ∈ valid_persons m min_occurrences emails.
Proof.
  rewrite build_graph_graph_of_edges, graph_of_edges_nodes.
  intros ([a b] & w' & Hk & _ & Hends).
  assert (is_Some (edges (build_edges m min_occurrences emails) !! (a, b)))
    as Hsome by by eexists.
  apply build_edges_is_Some in Hsome.
  simpl in Hends. destruct Hends as [->| ->]; tauto.
Qed.

Lemma build_graph_node_degree (m : gmap string (option string))
    (min_occurrences min_edge_weight : nat) (emails : list email) (n : string) :
  n ∈ nodes (build_graph m min_occurrences min_edge_weight emails) →
  1 ≤ degree (build_graph m min_occurrences min_edge_weight emails) n.
Proof.
  rewrite build_graph_graph_of_edges. intros Hn.
  destruct (decide (degree (graph_of_edges min_edge_weight
                              (edges (build_edges m min_occurrences emails))) n = 0))
    as [Hzero|Hpos]; [|lia].
  assert (n ∈ isolates (graph_of_edges min_edge_weight
                          (edges (build_edges m min_occurrences emails)))) as Hiso
    by (unfold isolates; by rewrite elem_of_filter).
  rewrite graph_of_edges_isolates in Hiso; [set_solver|].
  intros k. apply build_edges_keys.
Qed.

(** X17: every node of the graph built from the edge counter has an edge,
    so that removing the isolated nodes removes nothing and the graph
    returned is the graph of the edges; its nodes are exactly the ends of
    the pairs whose weight reaches the threshold, each has a degree of at
    least 1, and each is a valid person: a non-empty canonical name other
    than ["None"], outside [EXCLUDED_NAMES], that the mapping gives to a
    raw name of some e-mail. *)
Theorem graph_nodes_have_edges (name_mapping : gmap string (option string))
    (min_occurrences min_edge_weight : nat) (emails : list Corpus.email) :
  let es := BuildNetwork.edges
              (BuildNetwork.build_edges name_mapping min_occurrences emails) in
  let G := BuildNetwork.build_graph name_mapping min_occurrences min_edge_weight
             emails in
  BuildNetwork.isolates (BuildNetwork.graph_of_edges min_edge_weight es) = ∅
  ∧ G = BuildNetwork.graph_of_edges min_edge_weight es
  ∧ ∀ n, (n ∈ BuildNetwork.nodes G
          ↔ ∃ n' w, BuildNetwork.weight G n n' = Some w)
         ∧ (n ∈ BuildNetwork.nodes G →
            1 ≤ BuildNetwork.degree G n
            ∧ BuildNetwork.degree G n = size (BuildNetwork.neighbours G n)
            ∧ n ∈ BuildNetwork.valid_persons name_mapping min_occurrences emails
            ∧ n ≠ "" ∧ n ≠ "None" ∧ (n ∉ BuildNetwork.EXCLUDED_NAMES)
            ∧ ∃ e raw names,
                e ∈ emails ∧ Corpus.names_mentioned e = Some names ∧ raw ∈ names
                ∧ name_mapping !! raw = Some (Some n)).
Proof.
  intros es G.
  assert (∀ k, is_Some (es !! k) → PyStr.lt k.1 k.2) as Hkeys.
  { intros k. apply build_edges_keys. }
  assert (isolates (graph_of_edges min_edge_weight es) = ∅) as Hiso
    by by apply graph_of_edges_isolates.
  assert (G = graph_of_edges min_edge_weight es) as HG.
  { unfold G, build_graph. fold es. rewrite Hiso. apply remove_nodes_from_empty. }
  split_and!; [done..|]. intros n. rewrite HG.
  assert (n ∈ nodes (graph_of_edges min_edge_weight es)
          ↔ ∃ n' w, weight (graph_of_edges min_edge_weight es) n n' = Some w)
    as Hnodes.
  { rewrite graph_of_edges_nodes. split.
    - intros ([a b] & w & Hk & Hle & Hn).
      assert (weight (graph_of_edges min_edge_weight es) a b = Some w) as Hw.
      { rewrite graph_of_edges_weight by (try apply (Hkeys (a, b)); by eauto).
        rewrite Hk. simpl. by rewrite (proj2 (Nat.leb_le _ _)). }
      simpl in Hn. destruct Hn as [->| ->]; [by eauto|].
      rewrite graph_of_edges_symmetric in Hw. by eauto.
    - intros (n' & w & Hw).
      assert (n ≠ n') as Hne.
      { intros <-. by rewrite graph_of_edges_no_loop in Hw. }
      assert (∀ a b, PyStr.lt a b →
                weight (graph_of_edges min_edge_weight es) a b = Some w →
                es !! (a, b) = Some w ∧ min_edge_weight ≤ w) as Hread.
      { intros a b Hlt. rewrite graph_of_edges_weight by done.
        destruct (es !! (a, b)) as [w'|]; simpl; [|done].
        destruct (Nat.leb_spec min_edge_weight w'); [|done].
        intros [= ->]. done. }
      destruct (String_as_OT.compare n n') as [Hlt|Heq|Hgt]; [|done|].
      + apply str_lt_iff in Hlt. destruct (Hread _ _ Hlt Hw) as [Hk Hle].
        exists (n, n'), w. auto.
      + apply str_lt_iff in Hgt. rewrite graph_of_edges_symmetric in Hw.
        destruct (Hread _ _ Hgt Hw) as [Hk Hle]. exists (n', n), w. auto. }
  split; [done|]. intros Hn.
  pose proof Hn as (n' & w & Hw)%Hnodes.
  assert (n ∉ dom (neighbours (graph_of_edges min_edge_weight es) n)) as Hloop.
  { rewrite elem_of_dom. intros [w' Hw'].
    pose proof (graph_of_edges_no_loop min_edge_weight es n Hkeys) as Hno.
    unfold weight in Hno. congruence. }
  assert (n ∈ valid_persons name_mapping min_occurrences emails) as Hvalid.
  { apply graph_of_edges_nodes in Hn as ([a b] & w' & Hk & _ & Hends).
    assert (is_Some (es !! (a, b))) as Hsome by by eexists.
    apply build_edges_is_Some in Hsome.
    simpl in Hends. destruct Hends as [->| ->]; tauto. }
  destruct (valid_person_consolidated _ _ _ _ Hvalid)
    as (H1 & H2 & H3 & e & raw & names & He & Hnames & Hraw & _ & Hm).
  split_and!; [| |done..|by eauto 10].
  - pose proof (weight_degree _ _ _ _ Hw). lia.
  - unfold degree. rewrite bool_decide_eq_false_2 by done. lia.
Qed.
End graph_nodes.

(** ** The mapping on a table with and without the fourth generation *)

Section read_name_mapping.
Import Table Corpus BuildNetwork.

#[local] Arguments PyStr.truthy : simpl never.

Lemma read_name_mapping_rev (has_F2d : bool) (t : table) (raw : string) :
  read_name_mapping has_F2d t !! raw
  = select has_F2d F2d
      <$> List.find (λ r, bool_decide (name_extracted r = raw)) (rev t).
Proof.
  unfold read_name_mapping.
  induction t as [|r t IH] using rev_ind; [done|].
  rewrite foldl_snoc, rev_app_distr. simpl.
  case_bool_decide as Hr.
  - by rewrite Hr, lookup_insert_eq.
  - by rewrite lookup_insert_ne.
Qed.

Lemma read_name_mapping_has (t : table) :
  read_name_mapping true t = load_name_mapping t.
Proof. reflexivity. Qed.

Lemma read_name_mapping_is_Some (has_F2d : bool) (t : table) (raw : string) :
  is_Some (read_name_mapping has_F2d t !! raw) ↔ raw ∈ name_extracted <$> t.
Proof.
  rewrite read_name_mapping_rev, fmap_is_Some. split.
  - intros [r Hr]. apply find_some in Hr as [Hin Hr%bool_decide_eq_true].
    apply list_elem_of_fmap. exists r. split; [done|].
    by apply list_elem_of_In, in_rev.
  - intros (r & -> & Hin)%list_elem_of_fmap.
    destruct (List.find _ (rev t)) eqn:Hfind; [by eexists|].
    apply list_elem_of_In, in_rev in Hin.
    apply (find_none _ _ Hfind r) in Hin.
    by apply bool_decide_eq_false in Hin.
Qed.

(** Without the column every name of the table is bound to the name of
    the column. *)
Lemma read_name_mapping_missing (t : table) (raw : string) :
  read_name_mapping false t !! raw
  = if bool_decide (raw ∈ name_extracted <$> t)
    then Some (Some (column_name F2d)) else None.
Proof.
  pose proof (read_name_mapping_is_Some false t raw) as Hsome.
  rewrite read_name_mapping_rev in *.
  destruct (List.find _ (rev t)) as [r|]; simpl in *.
  - rewrite bool_decide_eq_true_2; [done|]. apply Hsome. by eexists.
  - rewrite bool_decide_eq_false_2; [done|]. intros Hin%Hsome. by destruct Hin.
Qed.

(** With the column, and nothing written to it, every name of the table
    is bound to [NULL]. *)
Lemma read_name_mapping_null (t : table) (raw : string) (v : option string) :
  (∀ r, r ∈ t → canonical_F2d r = None) →
  read_name_mapping true t !! raw = Some v → v = None.
Proof.
  intros Hnull. rewrite read_name_mapping_rev.
  destruct (List.find _ (rev t)) as [r|] eqn:Hfind; [|done].
  apply find_some in Hfind as [Hin%in_rev%list_elem_of_In _].
  simpl. rewrite (Hnull r Hin). congruence.
Qed.

Lemma column_name_kept :
  column_name F2d ≠ "" ∧ column_name F2d ≠ "None"
  ∧ column_name F2d ∉ EXCLUDED_NAMES.
Proof.
  split_and!; [discriminate..|].
  apply (bool_decide_eq_false_1 (column_name F2d ∈ EXCLUDED_NAMES)).
  vm_compute. reflexivity.
Qed.

Lemma consolidate_name_missing (t : table) (raw p : string) :
  consolidate_name (read_name_mapping false t) raw = Some p
  ↔ p = column_name F2d ∧ raw ∈ name_extracted <$> t
    ∧ raw ≠ "" ∧ raw ∉ EXCLUDED_NAMES.
Proof.
  rewrite consolidate_name_iff, read_name_mapping_missing.
  destruct column_name_kept as (_ & Hnone & Hex).
  split.
  - intros (Ht & Hraw & Hm & _ & _). case_bool_decide as Hin; [|done].
    split_and!; [congruence|done| |done]. intros ->. done.
  - intros (-> & Hin & Hne & Hraw).
    rewrite bool_decide_eq_true_2 by done.
    split_and!; [by destruct raw|done..].
Qed.

Lemma persons_of_read (has_F2d : bool) (t : table) (e : email) (p : string) :
  (has_F2d = true → ∀ r, r ∈ t → canonical_F2d r = None) →
  p ∈ persons_of (read_name_mapping has_F2d t) e
  ↔ has_F2d = false ∧ p = column_name F2d
    ∧ ∃ names raw, names_mentioned e = Some names ∧ raw ∈ names
        ∧ raw ∈ name_extracted <$> t ∧ raw ≠ "" ∧ raw ∉ EXCLUDED_NAMES.
Proof.
  intros Hnull. unfold persons_of.
  destruct (names_mentioned e) as [names|].
  - rewrite elem_of_fold_add_person. split.
    + intros [[]%elem_of_empty|(Hne & raw & Hin & Hc)].
      destruct has_F2d.
      * apply consolidate_name_iff in Hc as (_ & _ & Hm & _).
        by apply (read_name_mapping_null _ _ _ (Hnull eq_refl)) in Hm.
      * apply consolidate_name_missing in Hc as (-> & Ht & Hraw & Hex).
        split_and!; [done..|]. by exists names, raw.
    + intros (-> & -> & names' & raw & [= <-] & Hin & Ht & Hraw & Hex).
      right. split; [apply column_name_kept|].
      exists raw. split; [done|]. by apply consolidate_name_missing.
  - split; [intros []%elem_of_empty|].
    by intros (_ & _ & names & raw & [=] & _).
Qed.

Lemma build_edges_read (has_F2d : bool) (t : table) (min_occurrences : nat)
    (emails : list email) :
  (has_F2d = true → ∀ r, r ∈ t → canonical_F2d r = None) →
  edges (build_edges (read_name_mapping has_F2d t) min_occurrences emails) = ∅.
Proof.
  intros Hnull. apply map_empty. intros [a b].
  apply eq_None_not_Some. intros (Hlt & _ & _ & Hlen)%build_edges_is_Some.
  destruct (List.filter _ emails) as [|e l] eqn:Hf; [simpl in Hlen; lia|].
  assert (In e (List.filter
                  (λ e, bool_decide
                          (a ∈ persons_of (read_name_mapping has_F2d t) e
                           ∧ b ∈ persons_of (read_name_mapping has_F2d t) e))
                  emails)) as Hin by (rewrite Hf; by left).
  apply filter_In in Hin as [_ [Ha Hb]%bool_decide_eq_true].
  apply persons_of_read in Ha as (_ & -> & _); [|done].
  apply persons_of_read in Hb as (_ & -> & _); [|done].
  by apply str_lt_irrefl in Hlt.
Qed.

(** X13: the mapping that [build_network.py] reads binds exactly the raw
    names of the table.  On a table that has the column
    [canonical_name [F2d]] it binds a name to the fourth generation of its
    last row, which is its one row when the names are distinct; a name
    whose fourth generation is [NULL] is dropped by [consolidate_name].
    On a table that does not have the column, which is the table
    [run_pipeline.py] hands to the builder, every name of the table is
    bound to the text [canonical_name [F2d]], and [consolidate_name] gives
    that text for every non-empty name of the table outside the exclusion
    set. *)
Theorem load_name_mapping_generation (has_F2d : bool) (t : Table.table)
    (raw : string) :
  let m := BuildNetwork.read_name_mapping has_F2d t in
  (is_Some (m !! raw) ↔ raw ∈ Table.name_extracted <$> t)
  ∧ (has_F2d = true →
     m = BuildNetwork.load_name_mapping t
     ∧ m !! raw = Table.generation Table.F2d (rev t) raw
     ∧ (NoDup (Table.name_extracted <$> t) →
        m !! raw = Table.generation Table.F2d t raw
        ∧ ∀ r, r ∈ t → Table.name_extracted r = raw →
            BuildNetwork.mapping_get m raw = Table.canonical_F2d r
            ∧ (Table.canonical_F2d r = None →
               BuildNetwork.consolidate_name m raw = None)))
  ∧ (has_F2d = false →
     (raw ∈ Table.name_extracted <$> t →
      m !! raw = Some (Some "canonical_name [F2d]"))
     ∧ (raw ∉ Table.name_extracted <$> t → m !! raw = None)
     ∧ ∀ p, BuildNetwork.consolidate_name m raw = Some p
            ↔ p = "canonical_name [F2d]" ∧ raw ∈ Table.name_extracted <$> t
              ∧ raw ≠ "" ∧ raw ∉ BuildNetwork.EXCLUDED_NAMES).
Proof.
  intros m. split; [apply read_name_mapping_is_Some|]. split.
  - intros ->. subst m. rewrite read_name_mapping_has.
    split; [done|]. split; [apply load_name_mapping_rev|].
    intros Hnd.
    assert (load_name_mapping t !! raw = generation F2d t raw) as Hgen.
    { rewrite load_name_mapping_rev. unfold generation.
      by rewrite find_rev_unique. }
    split; [done|]. intros r Hin Hname.
    assert (mapping_get (load_name_mapping t) raw = canonical_F2d r) as Hget.
    { unfold mapping_get. rewrite Hgen. unfold generation.
      destruct (List.find _ t) as [r'|] eqn:Hfind.
      - apply find_some in Hfind as [Hin' Hr'%bool_decide_eq_true]. simpl.
        f_equal. apply list_elem_of_In in Hin'.
        apply list_elem_of_lookup in Hin as [i Hi].
        apply list_elem_of_lookup in Hin' as [j Hj].
        assert (i = j) as ->; [|congruence].
        apply (NoDup_lookup _ i j raw Hnd);
          rewrite list_lookup_fmap; [rewrite Hi|rewrite Hj]; simpl; congruence.
      - apply list_elem_of_In in Hin.
        apply (find_none _ _ Hfind r) in Hin. simpl in Hin.
        by apply bool_decide_eq_false in Hin. }
    split; [done|]. intros Hnull. unfold consolidate_name.
    rewrite Hget, Hnull. by destruct (negb (PyStr.truthy raw)).
  - intros ->. subst m. split.
    { intros Hin. rewrite read_name_mapping_missing.
      by rewrite bool_decide_eq_true_2. }
    split.
    { intros Hin. rewrite read_name_mapping_missing.
      by rewrite bool_decide_eq_false_2. }
    intros p. apply consolidate_name_missing.
Qed.

Lemma load_name_mapping_generation_witness :
  let t := [mkRow "Bill" (Some "Bill Clinton") None (Some "Bill Clinton");
            mkRow "xx" (Some "xx") None None] in
  (read_name_mapping true t !! "Bill" = generation F2d t "Bill"
   ∧ mapping_get (read_name_mapping true t) "xx" = None
   ∧ consolidate_name (read_name_mapping true t) "xx" = None)
  ∧ (read_name_mapping false t !! "Bill" = Some (Some "canonical_name [F2d]")
     ∧ consolidate_name (read_name_mapping false t) "xx"
       = Some "canonical_name [F2d]").
Proof.
  intros t.
  assert (NoDup (name_extracted <$> t)) as Hnd
    by (vm_compute; apply NoDup_ListNoDup; repeat constructor; simpl;
        intuition discriminate).
  assert ("Bill" ∈ name_extracted <$> t) as HBill
    by (apply elem_of_cons; by left).
  assert ("xx" ∈ name_extracted <$> t) as Hxx
    by (apply elem_of_cons; right; apply elem_of_cons; by left).
  destruct (load_name_mapping_generation true t "Bill")
    as (_ & Htrue & _).
  destruct (Htrue eq_refl) as (_ & _ & Hd). destruct (Hd Hnd) as [H1 _].
  destruct (load_name_mapping_generation true t "xx") as (_ & Htrue' & _).
  destruct (Htrue' eq_refl) as (_ & _ & Hd'). destruct (Hd' Hnd) as [_ H2].
  destruct (H2 (mkRow "xx" (Some "xx") None None)) as [H3 H4];
    [apply elem_of_cons; right; apply elem_of_cons; by left|reflexivity|].
  destruct (load_name_mapping_generation false t "Bill") as (_ & _ & Hfalse).
  destruct (Hfalse eq_refl) as (H5 & _ & _).
  destruct (load_name_mapping_generation false t "xx") as (_ & _ & Hfalse').
  destruct (Hfalse' eq_refl) as (_ & _ & H6).
  split.
  - split; [exact H1|]. split; [exact H3|]. apply H4. reflexivity.
  - split; [exact (H5 HBill)|]. apply H6.
    split; [reflexivity|]. split; [exact Hxx|]. split; [discriminate|].
    apply (bool_decide_eq_false_1 ("xx" ∈ EXCLUDED_NAMES)).
    vm_compute. reflexivity.
Defined.

(** X14: [build_network.py] on a table that the fourth pass has not
    filled finds no entity of the table.  When the column
    [canonical_name [F2d]] is there and holds [NULL] in every row, no
    e-mail has a person and nothing is counted.  When the column is not
    there, which is the table [run_pipeline.py] hands to the builder, the
    one person an e-mail can have is the text [canonical_name [F2d]], and
    it has it exactly when it lists a non-empty name of the table outside
    the exclusion set; that text is then the only key of the counter.  In
    both cases there is no pair, so no edge is counted and the graph is
    empty, whatever the thresholds. *)
Theorem network_needs_fourth_generation (has_F2d : bool) (t : Table.table)
    (min_occurrences min_edge_weight : nat) (emails : list Corpus.email) :
  (has_F2d = true → ∀ r, r ∈ t → Table.canonical_F2d r = None) →
  let m := BuildNetwork.read_name_mapping has_F2d t in
  (∀ e p, p ∈ BuildNetwork.persons_of m e
          ↔ has_F2d = false ∧ p = "canonical_name [F2d]"
            ∧ ∃ names raw, Corpus.names_mentioned e = Some names ∧ raw ∈ names
                ∧ raw ∈ Table.name_extracted <$> t
                ∧ raw ≠ "" ∧ raw ∉ BuildNetwork.EXCLUDED_NAMES)
  ∧ (has_F2d = true → BuildNetwork.person_counts m emails = ∅)
  ∧ (∀ p, is_Some (BuildNetwork.person_counts m emails !! p) →
          has_F2d = false ∧ p = "canonical_name [F2d]")
  ∧ BuildNetwork.count (BuildNetwork.person_counts m emails)
      "canonical_name [F2d]"
    = length (List.filter
                (λ e, bool_decide ("canonical_name [F2d]"
                                   ∈ BuildNetwork.persons_of m e)) emails)
  ∧ BuildNetwork.edges (BuildNetwork.build_edges m min_occurrences emails) = ∅
  ∧ BuildNetwork.build_graph m min_occurrences min_edge_weight emails
    = BuildNetwork.empty_graph.
Proof.
  intros Hnull m.
  assert (∀ p, is_Some (person_counts m emails !! p) →
               has_F2d = false ∧ p = "canonical_name [F2d]") as Hkeys.
  { intros p Hp. apply count_pos in Hp; [|apply person_counts_pos].
    rewrite person_counts_rows in Hp.
    destruct (List.filter _ emails) as [|e l] eqn:Hf; [simpl in Hp; lia|].
    assert (In e (List.filter (λ e, bool_decide (p ∈ persons_of m e)) emails))
      as Hin by (rewrite Hf; by left).
    apply filter_In in Hin as [_ He%bool_decide_eq_true].
    apply persons_of_read in He as (? & ? & _); done. }
  split; [intros e p; by apply persons_of_read|].
  split.
  { intros Htrue. apply map_empty. intros p. apply eq_None_not_Some.
    intros [Hfalse _]%Hkeys. congruence. }
  split; [exact Hkeys|].
  split; [apply person_counts_rows|].
  assert (edges (build_edges m min_occurrences emails) = ∅) as Hedges
    by by apply build_edges_read.
  split; [exact Hedges|].
  rewrite build_graph_graph_of_edges, Hedges. reflexivity.
Qed.

Lemma network_needs_fourth_generation_witness :
  let t := [mkRow "Bill" (Some "Bill Clinton") (Some "Bill Clinton") None;
            mkRow "Clinton" (Some "Bill Clinton") (Some "Bill Clinton") None;
            mkRow "Ghislaine" (Some "Ghislaine Maxwell") None None] in
  let emails := [mkEmail "1" None (Some ["Bill"; "Ghislaine"]);
                 mkEmail "2" None (Some ["Clinton"; "Ghislaine"]);
                 mkEmail "3" None (Some ["Jeffrey"; "nobody"])] in
  (person_counts (read_name_mapping true t) emails = ∅
   ∧ build_graph (read_name_mapping true t) 1 1 emails = empty_graph)
  ∧ (person_counts (read_name_mapping false t) emails
     = {["canonical_name [F2d]" := 2]}
     ∧ build_graph (read_name_mapping false t) 1 1 emails = empty_graph).
Proof.
  intros t emails.
  assert (∀ r, r ∈ t → canonical_F2d r = None) as Hnull.
  { intros r Hr. repeat (apply elem_of_cons in Hr as [->|Hr]; [reflexivity|]).
    by apply elem_of_nil in Hr. }
  destruct (network_needs_fourth_generation true t 1 1 emails (λ _, Hnull))
    as (_ & H1 & _ & _ & _ & H2).
  destruct (network_needs_fourth_generation false t 1 1 emails
              (λ H : false = true, False_ind _ (Bool.diff_false_true H)))
    as (_ & _ & _ & _ & _ & H3).
  split; [exact (conj (H1 eq_refl) H2)|].
  split; [vm_compute; reflexivity|exact H3].
Defined.
End read_name_mapping.

(** ** The examples of an edge and the two tables *)

Section examples.
Import Corpus BuildNetwork Inv.

Lemma length_of_chars (l : list ascii) : String.length (PyStr.of_chars l) = length l.
Proof. induction l as [|c l IH]; simpl; [done|]. by rewrite IH. Qed.

Lemma length_chars (s : string) : length (PyStr.chars s) = String.length s.
Proof. induction s as [|c s IH]; simpl; [done|]. by rewrite IH. Qed.

Lemma substring_length_le (n m : nat) (s : string) :
  String.length (String.substring n m s) ≤ m.
Proof.
  revert n m. induction s as [|c s IH]; intros [|n] [|m]; simpl; try lia.
  - specialize (IH 0 m). lia.
  - apply (IH n 0).
  - apply (IH n (S m)).
Qed.

Lemma excerpt_of_ok (body : option string) :
  String.length (excerpt_of body) ≤ 80
  ∧ ("010"%char ∉ PyStr.chars (excerpt_of body)).
Proof.
  unfold excerpt_of. split.
  - rewrite length_of_chars, length_fmap, length_chars.
    apply substring_length_le.
  - rewrite chars_of_chars'. intros (c & Hc & _)%list_elem_of_fmap.
    destruct (Ascii.eqb_spec c "010"%char) as [Heq|Hne]; congruence.
Qed.

Lemma add_pair_examples_ok (Q : string → Prop) (excerpt : string)
    (st : edge_state) (p : string * string) :
  (PyStr.truthy excerpt = true → Q excerpt) →
  examples_ok Q st → examples_ok Q (add_pair excerpt st p).
Proof.
  intros HQ Hst q l. unfold add_pair. cbn [edges edge_examples].
  rewrite count_incr.
  destruct (PyStr.truthy excerpt
            && (length (default [] (edge_examples st !! p)) <? 3)) eqn:Hcond.
  - apply andb_true_iff in Hcond as [Htrue Hlen%Nat.ltb_lt].
    rewrite lookup_insert_Some. intros [[<- <-]|[Hne Hlook]].
    + rewrite decide_True by done.
      assert (length (default [] (edge_examples st !! p))
              ≤ count (edges st) p
              ∧ ∀ x, x ∈ default [] (edge_examples st !! p) → x ≠ "" ∧ Q x)
        as [Hcount Hall].
      { destruct (edge_examples st !! p) as [old|] eqn:Hold; simpl.
        - destruct (Hst p old Hold) as (_ & _ & ? & ?). done.
        - split; [lia|]. by intros x ?%elem_of_nil. }
      split_and!.
      * by destruct (default [] (edge_examples st !! p)).
      * rewrite length_app. simpl. lia.
      * rewrite length_app. simpl. lia.
      * intros x [Hx| ->%list_elem_of_singleton]%elem_of_app; [by apply Hall|].
        split; [|by apply HQ]. by apply truthy_ne.
    + rewrite decide_False by done. by apply Hst.
  - intros Hlook. destruct (Hst q l Hlook) as (? & ? & ? & ?).
    split_and!; [done..| |done]. destruct (decide (p = q)); [subst; lia|done].
Qed.

Lemma add_pairs_examples_ok (Q : string → Prop) (excerpt : string)
    (ps : list (string * string)) (st : edge_state) :
  (PyStr.truthy excerpt = true → Q excerpt) →
  examples_ok Q st → examples_ok Q (foldl (add_pair excerpt) st ps).
Proof.
  intros HQ. revert st. induction ps as [|p ps IH]; intros st Hst; simpl; [done|].
  by apply IH, add_pair_examples_ok.
Qed.

Lemma edges_examples_from (Q : string → Prop) (valid : gset string)
    (items : list (string * option string * gset string)) (st : edge_state) :
  (∀ item, item ∈ items → Q (excerpt_of item.1.2)) →
  examples_ok Q st → examples_ok Q (foldl (add_email valid) st items).
Proof.
  revert st. induction items as [|item items IH]; intros st HQ Hst; simpl; [done|].
  apply IH.
  - intros item' Hin. apply HQ, elem_of_cons. by right.
  - unfold add_email. apply add_pairs_examples_ok; [|done].
    intros _. apply HQ, elem_of_cons. by left.
Qed.

(** X18: every pair keeps at most three examples, never more than its
    weight and never none once the entry exists; each example is the
    excerpt of the body of one of the e-mails, is not empty, has at most
    80 characters and holds no line feed. *)
Theorem edge_examples_bounded (name_mapping : gmap string (option string))
    (min_occurrences : nat) (emails : list Corpus.email)
    (p : string * string) (l : list string) :
  let st := BuildNetwork.build_edges name_mapping min_occurrences emails in
  BuildNetwork.edge_examples st !! p = Some l →
  l ≠ [] ∧ length l ≤ 3
  ∧ length l ≤ BuildNetwork.count (BuildNetwork.edges st) p
  ∧ ∀ x, x ∈ l →
      x ≠ "" ∧ String.length x ≤ 80 ∧ ("010"%char ∉ PyStr.chars x)
      ∧ ∃ e, e ∈ emails ∧ x = BuildNetwork.excerpt_of (Corpus.body e).
Proof.
  intros st Hlook.
  assert (examples_ok
            (λ x, String.length x ≤ 80 ∧ ("010"%char ∉ PyStr.chars x)
                  ∧ ∃ e, e ∈ emails ∧ x = excerpt_of (body e)) st) as Hok.
  { unfold st, build_edges. apply edges_examples_from.
    - intros item (e & -> & He)%list_elem_of_fmap. simpl.
      destruct (excerpt_of_ok (body e)) as [H1 H2]. split_and!; [done..|].
      by exists e.
    - intros q l'. simpl. by rewrite lookup_empty. }
  destruct (Hok p l Hlook) as (H1 & H2 & H3 & H4).
  split_and!; [done..|]. intros x Hx. destruct (H4 x Hx) as (? & ? & ? & ?).
  done.
Qed.

Lemma edge_examples_bounded_witness :
  let emails := [mkEmail "t1" (Some "Dinner on Friday") (Some ["Ann"; "Bob"])] in
  let st := build_edges {["Ann" := Some "Ann"; "Bob" := Some "Bob"]} 1 emails in
  edge_examples st !! ("Ann", "Bob") = Some ["Dinner on Friday"]
  ∧ length ["Dinner on Friday"] ≤ count (edges st) ("Ann", "Bob").
Proof.
  intros emails st.
  assert (edge_examples st !! ("Ann", "Bob") = Some ["Dinner on Friday"])
    as Hlook by (vm_compute; reflexivity).
  split; [exact Hlook|].
  exact (proj1 (proj2 (proj2 (edge_examples_bounded _ 1 emails _ _ Hlook)))).
Defined.
End examples.

Section tables.
Import Corpus BuildNetwork.

Lemma lookup_node_rows (counts : gmap string nat) (G : graph) (n : string)
    (occ deg : nat) :
  node_rows counts G !! n = Some (occ, deg)
  ↔ n ∈ nodes G ∧ occ = count counts n ∧ deg = degree G n.
Proof.
  unfold node_rows. rewrite lookup_set_to_map by (by intros y y' _ _ [= ->]).
  split.
  - intros (y & Hy & [= -> -> ->]). done.
  - intros (Hn & -> & ->). by exists n.
Qed.

Lemma lookup_edge_rows (G : graph) (st : edge_state) (p : string * string)
    (w : nat) (ex : string) :
  edge_rows G st !! p = Some (w, ex)
  ↔ edges st !! p = Some w ∧ p.1 ∈ nodes G ∧ p.2 ∈ nodes G
    ∧ ex = String.concat " | " (default [] (edge_examples st !! p)).
Proof.
  unfold edge_rows. rewrite map_lookup_imap.
  destruct (edges st !! p) as [w'|]; simpl; [|naive_solver].
  case_bool_decide as Hn; [|naive_solver].
  split; [intros [= -> ->]; tauto|]. intros ([= ->] & _ & _ & ->). done.
Qed.

(** X19: the two tables written from a graph that has a node.  The node
    table has one row for every node, with the number of e-mails that
    mention it, which is at least the occurrence threshold, and its
    degree, which is at least 1.  Every edge of the graph has a row in the edge table, under its
    increasing pair and with its weight; with the edge threshold of the
    script, which lets every counted pair through, the rows of the edge
    table are exactly the edges of the graph. *)
Theorem network_tables (name_mapping : gmap string (option string))
    (min_occurrences min_edge_weight : nat) (emails : list Corpus.email) :
  let st := BuildNetwork.build_edges name_mapping min_occurrences emails in
  let G := BuildNetwork.build_graph name_mapping min_occurrences min_edge_weight
             emails in
  let counts := BuildNetwork.person_counts name_mapping emails in
  (∀ n occ deg,
     BuildNetwork.node_rows counts G !! n = Some (occ, deg)
     ↔ n ∈ BuildNetwork.nodes G ∧ occ = BuildNetwork.count counts n
       ∧ deg = BuildNetwork.degree G n)
  ∧ (∀ n occ deg,
       BuildNetwork.node_rows counts G !! n = Some (occ, deg) →
       min_occurrences ≤ occ ∧ 1 ≤ occ ∧ 1 ≤ deg)
  ∧ (∀ a b w, PyStr.lt a b → BuildNetwork.weight G a b = Some w →
       ∃ ex, BuildNetwork.edge_rows G st !! (a, b) = Some (w, ex))
  ∧ (∀ a b w ex, BuildNetwork.edge_rows G st !! (a, b) = Some (w, ex) →
       PyStr.lt a b ∧ 1 ≤ w
       ∧ BuildNetwork.edges st !! (a, b) = Some w
       ∧ BuildNetwork.edge_rows G st !! (b, a) = None)
  ∧ (min_edge_weight ≤ 1 →
     ∀ a b w ex, BuildNetwork.edge_rows G st !! (a, b) = Some (w, ex) →
       BuildNetwork.weight G a b = Some w).
Proof.
  intros st G counts.
  assert (∀ k, is_Some (edges st !! k) → PyStr.lt k.1 k.2) as Hkeys.
  { intros k. apply build_edges_keys. }
  assert (G = graph_of_edges min_edge_weight (edges st)) as HG
    by apply build_graph_graph_of_edges.
  assert (∀ n, n ∈ nodes G →
            n ∈ valid_persons name_mapping min_occurrences emails
            ∧ 1 ≤ degree G n) as Hnode.
  { intros n Hn. split; [by eapply build_graph_node_valid|].
    by apply build_graph_node_degree. }
  clearbody G. subst G.
  split_and!.
  - intros n occ deg. apply lookup_node_rows.
  - intros n occ deg (Hn & -> & ->)%lookup_node_rows.
    destruct (Hnode n Hn) as [Hvalid Hdeg].
    apply elem_of_valid_persons in Hvalid as [H1 Hmin]. done.
  - intros a b w Hlt Hw. eexists. apply lookup_edge_rows. simpl.
    rewrite graph_of_edges_weight in Hw by done.
    destruct (edges st !! (a, b)) as [w'|] eqn:Hk; simpl in Hw; [|done].
    destruct (Nat.leb_spec min_edge_weight w'); [|done].
    injection Hw as ->. split_and!; [done| | |done].
    + apply graph_of_edges_nodes. exists (a, b), w. auto.
    + apply graph_of_edges_nodes. exists (a, b), w. auto.
  - intros a b w ex (Hk & _)%lookup_edge_rows.
    assert (PyStr.lt a b) as Hlt by (apply (Hkeys (a, b)); by eexists).
    split_and!; [done| |done|].
    + by apply (build_edges_pos name_mapping min_occurrences emails (a, b)).
    + destruct (edge_rows _ st !! (b, a)) as [[w' ex']|] eqn:Hrow; [|done].
      apply lookup_edge_rows in Hrow as [Hk' _].
      assert (PyStr.lt b a) as Hlt' by (apply (Hkeys (b, a)); by eexists).
      by apply str_lt_asym in Hlt.
  - intros Hmin a b w ex (Hk & _)%lookup_edge_rows.
    assert (PyStr.lt a b) as Hlt by (apply (Hkeys (a, b)); by eexists).
    assert (1 ≤ w)
      by by apply (build_edges_pos name_mapping min_occurrences emails (a, b)).
    rewrite graph_of_edges_weight by done. rewrite Hk. simpl.
    by rewrite (proj2 (Nat.leb_le _ _)) by lia.
Qed.

Lemma network_tables_witness :
  let m : gmap string (option string) := {["Ann" := Some "Ann"; "Bob" := Some "Bob"]} in
  let emails := [mkEmail "t1" (Some "a") (Some ["Ann"; "Bob"]);
                 mkEmail "t2" (Some "b") (Some ["Bob"; "Ann"]);
                 mkEmail "t3" None (Some ["Ann"; "Bob"]);
                 mkEmail "t4" (Some "d") (Some ["Ann"; "Bob"])] in
  edge_rows (main m emails) (build_edges m 4 emails) !! ("Ann", "Bob")
  = Some (4, "a | b | d")
  ∧ weight (main m emails) "Ann" "Bob" = Some 4.
Proof.
  intros m emails.
  assert (edge_rows (main m emails) (build_edges m 4 emails) !! ("Ann", "Bob")
          = Some (4, "a | b | d")) as Hrow by (vm_compute; reflexivity).
  split; [exact Hrow|].
  apply (proj2 (proj2 (proj2 (proj2 (network_tables m 4 1 emails))))
           (le_n 1) "Ann" "Bob" 4 "a | b | d" Hrow).
Defined.
End tables.

(** ** [enrich_network_tables.py] *)

Section enrich.
Import Corpus Table EnrichNetwork.

Lemma elem_of_variants_of (canonical_name : string) (t : table) (v : string) :
  v ∈ variants_of canonical_name t
  ↔ ∃ r, r ∈ t ∧ name_extracted r = v ∧ canonical_F2d r = Some canonical_name.
Proof.
  unfold variants_of. rewrite list_elem_of_fmap. split.
  - intros (r & -> & Hr). apply list_elem_of_In, filter_In in Hr as [Hin Hr].
    exists r. apply bool_decide_eq_true in Hr. by rewrite list_elem_of_In.
  - intros (r & Hin & <- & Hr). exists r. split; [done|].
    apply list_elem_of_In, filter_In. rewrite <- list_elem_of_In.
    by rewrite bool_decide_eq_true.
Qed.

Lemma elem_of_fold_add_thread (variants : list string) (s : gset string)
    (emails : list email) (th : string) :
  th ∈ foldl (add_thread variants) s emails
  ↔ th ∈ s
    ∨ ∃ e names v, e ∈ emails ∧ thread_id e = th ∧ names_mentioned e = Some names
                   ∧ v ∈ variants ∧ v ∈ names.
Proof.
  revert s. induction emails as [|e emails IH]; intros s; cbn [foldl].
  { split; [by left|]. intros [?|(e & ? & ? & []%elem_of_nil & _)]. done. }
  rewrite IH. unfold add_thread.
  assert (th ∈ match names_mentioned e with
               | Some names =>
                   if existsb (λ v, bool_decide (v ∈ names)) variants
                   then {[thread_id e]} ∪ s else s
               | None => s
               end
          ↔ th ∈ s ∨ (thread_id e = th
                      ∧ ∃ names v, names_mentioned e = Some names
                                   ∧ v ∈ variants ∧ v ∈ names)) as ->.
  { destruct (names_mentioned e) as [names|]; [|naive_solver].
    destruct (existsb _ variants) eqn:Hex.
    - apply existsb_exists in Hex as (v & Hv%list_elem_of_In & Hin%bool_decide_eq_true).
      rewrite elem_of_union, elem_of_singleton. naive_solver.
    - split; [by left|]. intros [?|(_ & names' & v & [= <-] & Hv & Hin)]; [done|].
      assert (existsb (λ v, bool_decide (v ∈ names)) variants = true) as Htrue.
      { apply existsb_exists. exists v. rewrite <- list_elem_of_In.
        by rewrite bool_decide_eq_true. }
      congruence. }
  split.
  - intros [[?|(<- & names & v & ? & ? & ?)]|(e' & names & v & ? & ?)].
    + by left.
    + right. exists e, names, v. split; [apply elem_of_cons; by left|done].
    + right. exists e', names, v. split; [apply elem_of_cons; by right|done].
  - intros [?|(e' & names & v & [->|?]%elem_of_cons & ? & ? & ?)].
    + left. by left.
    + left. right. split; [done|]. by exists names, v.
    + right. by exists e', names, v.
Qed.

Lemma fold_add_thread_subseteq (variants : list string) (s : gset string)
    (emails : list email) :
  foldl (add_thread variants) s emails ⊆ s ∪ list_to_set (thread_id <$> emails).
Proof.
  intros th. rewrite elem_of_fold_add_thread, elem_of_union, elem_of_list_to_set.
  intros [?|(e & _ & _ & He & <- & _)]; [by left|right].
  apply list_elem_of_fmap. by exists e.
Qed.

(** X20: the discussions of a person are the [thread_id]s of the e-mails
    whose list of names holds, as written, a raw name that the table gives
    this canonical name in its fourth generation; they come in strictly
    ascending order, hence without repetition, and there are at most as
    many as e-mails.  A canonical name that no row carries has none. *)
Theorem get_discussion_ids_spec (canonical_name : string) (t : Table.table)
    (emails : list Corpus.email) :
  let ids := EnrichNetwork.get_discussion_ids_for_person canonical_name t emails in
  StronglySorted PyStr.lt ids
  ∧ length ids ≤ length emails
  ∧ ∀ th, th ∈ ids
          ↔ ∃ e names r,
              e ∈ emails ∧ Corpus.thread_id e = th
              ∧ Corpus.names_mentioned e = Some names
              ∧ r ∈ t ∧ Table.canonical_F2d r = Some canonical_name
              ∧ Table.name_extracted r ∈ names.
Proof.
  intros ids. unfold ids, get_discussion_ids_for_person.
  destruct (variants_of canonical_name t) as [|v0 vs] eqn:Hvariants.
  - split_and!; [constructor|simpl; lia|]. intros th. split; [by intros ?%elem_of_nil|].
    intros (e & names & r & _ & _ & _ & Hr & Hcanon & _).
    assert (name_extracted r ∈ variants_of canonical_name t) as Hin
      by (apply elem_of_variants_of; by exists r).
    rewrite Hvariants in Hin. by apply elem_of_nil in Hin.
  - rewrite <- Hvariants. split_and!.
    + apply sorted_lt.
    + unfold BuildNetwork.sorted. rewrite merge_sort_Permutation.
      change (size (foldl (add_thread (variants_of canonical_name t)) ∅ emails)
              ≤ length emails).
      etrans; [apply subseteq_size, fold_add_thread_subseteq|].
      rewrite union_empty_l_L. etrans; [apply size_list_to_set_le|].
      by rewrite length_fmap.
    + intros th. rewrite sorted_elem_of, elem_of_fold_add_thread. split.
      * intros [?|(e & names & v & He & Hth & Hnames & Hv & Hin)]; [set_solver|].
        apply elem_of_variants_of in Hv as (r & Hr & <- & Hcanon).
        by exists e, names, r.
      * intros (e & names & r & He & Hth & Hnames & Hr & Hcanon & Hin). right.
        exists e, names, (name_extracted r). split_and!; [done..| |done].
        apply elem_of_variants_of. by exists r.
Qed.
End enrich.

(** ** The earlier builder *)

Section legacy.
Import BuildNetwork.
Variable name_mapping : gmap string string.
Variable exclude : gset string.
Variables (min_occurrences min_edge_weight : nat).

#[local] Arguments PyStr.strip : simpl never.
#[local] Arguments PyStr.strip_where : simpl never.
#[local] Arguments PyStr.before : simpl never.
#[local] Arguments PyStr.contains : simpl never.

Lemma legacy_consolidate_mapped (name m : string) :
  name ≠ "" → name_mapping !! name = Some m →
  LegacyNetwork.consolidate_name name_mapping name
  = if bool_decide (m = "GARBAGE") then None else Some m.
Proof.
  intros Hne Hm. unfold LegacyNetwork.consolidate_name.
  apply truthy_ne in Hne. rewrite Hne. cbn [negb List.find].
  rewrite bool_decide_eq_true_2 by by eexists. by rewrite Hm.
Qed.

Lemma legacy_consolidate_Some (name p : string) :
  LegacyNetwork.consolidate_name name_mapping name = Some p →
  name ≠ ""
  ∧ ((∃ variant, name_mapping !! variant = Some p ∧ p ≠ "GARBAGE")
     ∨ (name_mapping !! name = None ∧ p ≠ "")).
Proof.
  unfold LegacyNetwork.consolidate_name.
  destruct (PyStr.truthy name) eqn:Hname; [|done]. cbn [negb].
  apply truthy_ne in Hname.
  destruct (List.find _ _) as [variant|] eqn:Hfind; intros Hres.
  - split; [done|]. left. exists variant.
    destruct (name_mapping !! variant) as [m|]; [|done].
    case_bool_decide as Hg; [done|]. injection Hres as <-. by split.
  - split; [done|]. right. split.
    + destruct (name_mapping !! name) as [m|] eqn:Hm; [|done].
      cbn [List.find] in Hfind.
      by rewrite bool_decide_eq_true_2 in Hfind by (rewrite Hm; by eexists).
    + destruct (PyStr.truthy _) eqn:Hc; [|done].
      apply truthy_ne in Hc. congruence.
Qed.

Lemma elem_of_legacy_persons_of (disc : LegacyNetwork.discussion) (p : string) :
  p ∈ LegacyNetwork.persons_of name_mapping disc
  ↔ p ≠ "" ∧ ∃ raw, raw ∈ LegacyNetwork.mentioned disc
                    ∧ LegacyNetwork.consolidate_name name_mapping raw = Some p.
Proof.
  unfold LegacyNetwork.persons_of.
  generalize (LegacyNetwork.mentioned disc). intros l.
  induction l as [|raw l IH] using rev_ind.
  { simpl. split; [set_solver|]. by intros (_ & raw & ?%elem_of_nil & _). }
  rewrite foldl_snoc. setoid_rewrite elem_of_app.
  setoid_rewrite list_elem_of_singleton.
  destruct (LegacyNetwork.consolidate_name name_mapping raw) as [c|] eqn:Hc.
  - destruct (PyStr.truthy c) eqn:Htrue.
    + apply truthy_ne in Htrue. rewrite elem_of_union, elem_of_singleton, IH.
      naive_solver.
    + assert (c = "") as -> by by destruct c. rewrite IH. naive_solver.
  - rewrite IH. naive_solver.
Qed.

Lemma legacy_valid_persons_of (valid : gset string)
    (disc : LegacyNetwork.discussion) :
  LegacyNetwork.valid_persons_of name_mapping valid disc
  = filter (λ p, p ∈ valid) (LegacyNetwork.persons_of name_mapping disc).
Proof.
  unfold LegacyNetwork.valid_persons_of, LegacyNetwork.persons_of.
  generalize (LegacyNetwork.mentioned disc). intros l.
  induction l as [|raw l IH] using rev_ind; [set_solver|].
  rewrite !foldl_snoc, IH.
  destruct (LegacyNetwork.consolidate_name name_mapping raw) as [c|]; [|done].
  destruct (PyStr.truthy c); simpl; [|done].
  case_bool_decide; set_solver.
Qed.

Lemma legacy_person_counts_rows (data : list LegacyNetwork.discussion) (p : string) :
  count (LegacyNetwork.person_counts name_mapping data) p
  = length (List.filter
              (λ d, bool_decide (p ∈ LegacyNetwork.persons_of name_mapping d)) data).
Proof.
  unfold LegacyNetwork.person_counts.
  induction data as [|d data IH] using rev_ind; [done|].
  rewrite foldl_snoc, count_set_fold_incr, IH, List.filter_app, length_app.
  cbn [List.filter]. case_bool_decide.
  - by rewrite decide_True.
  - by rewrite decide_False.
Qed.

Lemma legacy_person_counts_pos (data : list LegacyNetwork.discussion) :
  ∀ k n, LegacyNetwork.person_counts name_mapping data !! k = Some n → 1 ≤ n.
Proof.
  unfold LegacyNetwork.person_counts.
  induction data as [|d data IH] using rev_ind; [by intros k n|].
  rewrite foldl_snoc. by apply set_fold_incr_pos.
Qed.

Lemma elem_of_legacy_valid_persons (data : list LegacyNetwork.discussion)
    (p : string) :
  p ∈ LegacyNetwork.valid_persons name_mapping exclude min_occurrences data
  ↔ 1 ≤ count (LegacyNetwork.person_counts name_mapping data) p
    ∧ min_occurrences ≤ count (LegacyNetwork.person_counts name_mapping data) p
    ∧ (p ∉ exclude) ∧ 2 < String.length p.
Proof.
  unfold LegacyNetwork.valid_persons. rewrite elem_of_dom. unfold is_Some.
  setoid_rewrite map_lookup_filter_Some. simpl.
  rewrite <- count_pos by apply legacy_person_counts_pos. unfold count.
  split.
  - intros (n & Hlook & Hle & ? & ?). rewrite Hlook. simpl.
    split_and!; [by eexists|done..].
  - intros ([n Hlook] & Hle & ? & ?). rewrite Hlook in Hle. by exists n.
Qed.

Lemma legacy_add_discussion_count (valid : gset string) (st : edge_state)
    (disc : LegacyNetwork.discussion) (a b : string) :
  count (edges (LegacyNetwork.add_discussion name_mapping valid st disc)) (a, b)
  = count (edges st) (a, b)
    + (if decide (PyStr.lt a b ∧ (a ∈ valid ∧ b ∈ valid)
                  ∧ a ∈ LegacyNetwork.persons_of name_mapping disc
                  ∧ b ∈ LegacyNetwork.persons_of name_mapping disc)
       then 1 else 0).
Proof.
  unfold LegacyNetwork.add_discussion. rewrite add_pairs_count. f_equal.
  rewrite filter_eq_NoDup
    by apply combinations2_NoDup, StronglySorted_lt_NoDup, sorted_lt.
  apply decide_ext. rewrite combinations2_sorted_iff by apply sorted_lt.
  rewrite !sorted_elem_of, legacy_valid_persons_of, !elem_of_filter. tauto.
Qed.

Lemma legacy_edges_count_from (valid : gset string) (st : edge_state)
    (data : list LegacyNetwork.discussion) (a b : string) :
  count (edges (foldl (LegacyNetwork.add_discussion name_mapping valid) st data))
        (a, b)
  = count (edges st) (a, b)
    + (if decide (PyStr.lt a b ∧ a ∈ valid ∧ b ∈ valid)
       then length (List.filter
                      (λ d, bool_decide
                              (a ∈ LegacyNetwork.persons_of name_mapping d
                               ∧ b ∈ LegacyNetwork.persons_of name_mapping d)) data)
       else 0).
Proof.
  revert st. induction data as [|d data IH]; intros st; cbn [foldl List.filter].
  { destruct (decide _); simpl; lia. }
  rewrite IH, legacy_add_discussion_count.
  destruct (decide (PyStr.lt a b ∧ a ∈ valid ∧ b ∈ valid)) as [Hv|Hv].
  - case_bool_decide as Hi.
    + rewrite decide_True by tauto. cbn [length]. lia.
    + rewrite decide_False by tauto. lia.
  - rewrite decide_False by tauto. lia.
Qed.

Lemma legacy_edges_pos_from (valid : gset string) (st : edge_state)
    (data : list LegacyNetwork.discussion) :
  (∀ k n, edges st !! k = Some n → 1 ≤ n) →
  ∀ k n, edges (foldl (LegacyNetwork.add_discussion name_mapping valid) st data)
           !! k = Some n → 1 ≤ n.
Proof.
  revert st. induction data as [|d data IH]; intros st Hst; cbn [foldl]; [done|].
  apply IH. unfold LegacyNetwork.add_discussion. by apply add_pairs_pos.
Qed.

Lemma legacy_build_edges_is_Some (data : list LegacyNetwork.discussion)
    (a b : string) :
  let valid := LegacyNetwork.valid_persons name_mapping exclude min_occurrences
                 data in
  is_Some (edges (LegacyNetwork.build_edges name_mapping exclude min_occurrences
                    data) !! (a, b))
  ↔ PyStr.lt a b ∧ a ∈ valid ∧ b ∈ valid
    ∧ 1 ≤ length (List.filter
                    (λ d, bool_decide
                            (a ∈ LegacyNetwork.persons_of name_mapping d
                             ∧ b ∈ LegacyNetwork.persons_of name_mapping d)) data).
Proof.
  intros valid. unfold LegacyNetwork.build_edges. fold valid.
  rewrite count_pos by (apply legacy_edges_pos_from; by intros k n).
  rewrite legacy_edges_count_from. cbn [edges]. unfold count at 1.
  rewrite lookup_empty. cbn [default Nat.add].
  destruct (decide _) as [Hv|Hv]; [tauto|]. split; [lia|tauto].
Qed.
End legacy.

(** X21: how the earlier builder reads a name.  A non-empty name that the
    matching table holds becomes its entry, or nothing when the entry is
    [GARBAGE]; the result of [consolidate_name] is never an entry
    [GARBAGE], and when it is no entry of the table the name itself is not
    in the table.  The persons of a discussion are the non-empty results
    over its senders, receivers and people mentioned, and the second loop
    finds the same persons again, restricted to the valid ones. *)
Theorem legacy_consolidate_name_spec (name_mapping : gmap string string)
    (valid : gset string) (disc : LegacyNetwork.discussion) :
  (∀ name m, name ≠ "" → name_mapping !! name = Some m →
     LegacyNetwork.consolidate_name name_mapping name
     = if bool_decide (m = "GARBAGE") then None else Some m)
  ∧ (∀ name p, LegacyNetwork.consolidate_name name_mapping name = Some p →
       name ≠ ""
       ∧ ((∃ variant, name_mapping !! variant = Some p ∧ p ≠ "GARBAGE")
          ∨ (name_mapping !! name = None ∧ p ≠ "")))
  ∧ (∀ p, p ∈ LegacyNetwork.persons_of name_mapping disc
          ↔ p ≠ ""
            ∧ ∃ raw, raw ∈ LegacyNetwork.senders disc
                             ++ LegacyNetwork.receivers disc
                             ++ LegacyNetwork.people_mentioned disc
                     ∧ LegacyNetwork.consolidate_name name_mapping raw = Some p)
  ∧ LegacyNetwork.valid_persons_of name_mapping valid disc
    = filter (λ p, p ∈ valid) (LegacyNetwork.persons_of name_mapping disc).
Proof.
  split_and!.
  - intros name m. apply legacy_consolidate_mapped.
  - intros name p. apply legacy_consolidate_Some.
  - intros p. apply elem_of_legacy_persons_of.
  - apply legacy_valid_persons_of.
Qed.

Lemma legacy_consolidate_name_spec_witness :
  let m : gmap string string := {["J. Doe" := "John Doe"; "asdf" := "GARBAGE"]} in
  LegacyNetwork.consolidate_name m "J. Doe" = Some "John Doe"
  ∧ LegacyNetwork.consolidate_name m "asdf" = None.
Proof.
  intros m. split.
  - apply (proj1 (legacy_consolidate_name_spec m ∅
                    (LegacyNetwork.mkDiscussion [] [] [] "")) "J. Doe" "John Doe");
      [discriminate|vm_compute; reflexivity].
  - apply (proj1 (legacy_consolidate_name_spec m ∅
                    (LegacyNetwork.mkDiscussion [] [] [] "")) "asdf" "GARBAGE");
      [discriminate|vm_compute; reflexivity].
Defined.

(** X22: the counts, the filter and the weights of the earlier builder.
    The count of a person is the number of discussions that have it; a
    person is valid when this count reaches the threshold and the name is
    not excluded and longer than two characters; the weight of an
    increasing pair of valid persons is the number of discussions that
    have both, and no other pair is a key; the graph is the graph of the
    edges, from which the removal of isolated nodes takes nothing. *)
Theorem legacy_network_spec (name_mapping : gmap string string)
    (exclude : gset string) (min_occurrences min_edge_weight : nat)
    (data : list LegacyNetwork.discussion) (a b : string) :
  let counts := LegacyNetwork.person_counts name_mapping data in
  let valid := LegacyNetwork.valid_persons name_mapping exclude min_occurrences
                 data in
  let es := BuildNetwork.edges
              (LegacyNetwork.build_edges name_mapping exclude min_occurrences data) in
  let together :=
    length (List.filter
              (λ d, bool_decide (a ∈ LegacyNetwork.persons_of name_mapping d
                                 ∧ b ∈ LegacyNetwork.persons_of name_mapping d))
              data) in
  BuildNetwork.count counts a
  = length (List.filter
              (λ d, bool_decide (a ∈ LegacyNetwork.persons_of name_mapping d)) data)
  ∧ (a ∈ valid
     ↔ 1 ≤ BuildNetwork.count counts a ∧ min_occurrences ≤ BuildNetwork.count counts a
       ∧ (a ∉ exclude) ∧ 2 < String.length a)
  ∧ BuildNetwork.count es (a, b)
    = (if decide (PyStr.lt a b ∧ a ∈ valid ∧ b ∈ valid) then together else 0)
  ∧ (is_Some (es !! (a, b))
     ↔ PyStr.lt a b ∧ a ∈ valid ∧ b ∈ valid ∧ 1 ≤ together)
  ∧ LegacyNetwork.build_graph name_mapping exclude min_occurrences min_edge_weight
      data
    = BuildNetwork.graph_of_edges min_edge_weight es.
Proof.
  intros counts valid es together. split_and!.
  - apply legacy_person_counts_rows.
  - apply elem_of_legacy_valid_persons.
  - unfold es, LegacyNetwork.build_edges. fold valid.
    rewrite legacy_edges_count_from. cbn [BuildNetwork.edges].
    unfold BuildNetwork.count at 1. by rewrite lookup_empty.
  - apply legacy_build_edges_is_Some.
  - unfold LegacyNetwork.build_graph. fold es.
    rewrite graph_of_edges_isolates; [apply remove_nodes_from_empty|].
    intros [x y] Hk. by apply legacy_build_edges_is_Some in Hk as [? _].
Qed.

(** ** The suffix matcher *)

Section suffix_matcher.
Import CandidateMatcher.

#[local] Arguments normalize_name : simpl never.

Lemma NoDup_list_filter {A} (P : A → bool) (l : list A) :
  NoDup l → NoDup (List.filter P l).
Proof.
  intros Hnd. rewrite <- (list_fmap_id (List.filter P l)).
  apply NoDup_fmap_filter. by rewrite list_fmap_id.
Qed.

Lemma sublist_list_filter {A} (P : A → bool) (l : list A) :
  List.filter P l `sublist_of` l.
Proof.
  induction l as [|x l IH]; simpl; [constructor|].
  destruct (P x); by constructor.
Qed.

Lemma concat_values_NoDup {K A} (key : A → K) (P : list A → bool)
    (d : list (K * list A)) :
  NoDup d.*1 →
  (∀ k v, (k, v) ∈ d → NoDup v ∧ ∀ x, x ∈ v → key x = k) →
  NoDup (concat (List.filter P d.*2)).
Proof.
  induction d as [|[k v] d IH]; csimpl; [constructor|].
  intros [Hnin Hnd]%NoDup_cons Hd.
  assert (NoDup (concat (List.filter P d.*2))) as Hrest.
  { apply IH; [done|]. intros k' v' Hin. apply Hd, elem_of_cons. by right. }
  destruct (P v); [|done]. simpl. apply NoDup_app.
  destruct (Hd k v) as [Hv Hkey]; [apply elem_of_cons; by left|].
  split_and!; [done| |done].
  intros x Hx Hin. apply list_elem_of_In, in_concat in Hin as (v' & Hv' & Hxv').
  apply filter_In in Hv' as [Hv' _].
  apply list_elem_of_In, list_elem_of_fmap in Hv' as ([k' v''] & -> & Hin').
  destruct (Hd k' v'') as [_ Hkey']; [apply elem_of_cons; by right|].
  apply Hnin, list_elem_of_fmap. exists (k', v''). split; [|done]. simpl.
  rewrite <- (Hkey x Hx). apply Hkey'. by apply list_elem_of_In.
Qed.

Lemma suffix_groups_NoDup (names : list string) :
  NoDup names → NoDup (concat (find_suffix_duplicates names)).
Proof.
  intros Hnd. unfold find_suffix_duplicates, PyDict.values.
  apply (concat_values_NoDup normalize_name).
  - apply normalized_groups_NoDup.
  - intros k v Hin. apply pydict_get_Some in Hin; [|apply normalized_groups_NoDup].
    rewrite normalized_groups_get in Hin.
    assert (v = Spec.with_normal_form k names) as ->
      by (destruct (Spec.with_normal_form k names); congruence).
    split; [by apply NoDup_list_filter|].
    intros x Hx. by apply elem_of_with_normal_form in Hx as [_ ?].
Qed.

(** X23: on distinct names, as [SELECT DISTINCT] gives them, the groups of
    [find_suffix_duplicates] are pairwise disjoint and each name occurs at
    most once among them; a group keeps its names in the order of the
    input; and two different names are in one group exactly when they have
    the same normal form. *)
Theorem suffix_groups_partition (names : list string) :
  NoDup names →
  let groups := CandidateMatcher.find_suffix_duplicates names in
  NoDup (concat groups)
  ∧ (∀ i j g h, groups !! i = Some g → groups !! j = Some h → i ≠ j →
       ∀ n, n ∈ g → n ∉ h)
  ∧ (∀ g, g ∈ groups → g `sublist_of` names)
  ∧ (∀ a b, a ∈ names → b ∈ names → a ≠ b →
       CandidateMatcher.normalize_name a = CandidateMatcher.normalize_name b
       ↔ ∃ g, g ∈ groups ∧ a ∈ g ∧ b ∈ g).
Proof.
  intros Hnd groups.
  assert (NoDup (concat groups)) as Hcat by by apply suffix_groups_NoDup.
  split_and!.
  - done.
  - intros i j g h. by apply NoDup_concat_disjoint.
  - intros g (_ & norm & ->)%elem_of_find_suffix_duplicates.
    apply sublist_list_filter.
  - intros a b Ha Hb Hab. split.
    + intros Heq. exists (Spec.with_normal_form (normalize_name a) names).
      assert (a ∈ Spec.with_normal_form (normalize_name a) names) as Hina
        by by apply elem_of_with_normal_form.
      assert (b ∈ Spec.with_normal_form (normalize_name a) names) as Hinb
        by by apply elem_of_with_normal_form.
      split_and!; [|done..]. apply elem_of_find_suffix_duplicates.
      split; [|by eexists].
      apply (submseteq_length [a; b]). apply NoDup_submseteq.
      * apply NoDup_cons. split; [by intros ->%list_elem_of_singleton|].
        apply NoDup_singleton.
      * intros x [->|Hx]%elem_of_cons; [done|].
        by apply list_elem_of_singleton in Hx as ->.
    + intros (g & (_ & norm & ->)%elem_of_find_suffix_duplicates & Hina & Hinb).
      apply elem_of_with_normal_form in Hina as [_ ->].
      by apply elem_of_with_normal_form in Hinb as [_ ->].
Qed.

Lemma suffix_groups_partition_witness :
  let names := ["Landon Thomas"; "Ann Lee"; "Landon Thomas Jr."; "Ann Lee, PhD"] in
  find_suffix_duplicates names
  = [["Landon Thomas"; "Landon Thomas Jr."]; ["Ann Lee"; "Ann Lee, PhD"]]
  ∧ NoDup (concat (find_suffix_duplicates names)).
Proof.
  intros names. split; [vm_compute; reflexivity|].
  apply (suffix_groups_partition names).
  apply NoDup_ListNoDup. repeat constructor; simpl; intuition discriminate.
Defined.

(** *** The normal form *)

Lemma lower_char_not_upper (c : ascii) : PyStr.is_upper (PyStr.lower_char c) = false.
Proof. destruct c as [[] [] [] [] [] [] [] []]; vm_compute; reflexivity. Qed.

Lemma lower_char_idempotent (c : ascii) :
  PyStr.lower_char (PyStr.lower_char c) = PyStr.lower_char c.
Proof.
  unfold PyStr.lower_char at 1. by rewrite lower_char_not_upper.
Qed.

Lemma chars_lower (s : string) :
  PyStr.chars (PyStr.lower s) = PyStr.lower_char <$> PyStr.chars s.
Proof. induction s as [|c s IH]; csimpl; [done|]. by rewrite <- IH. Qed.

Lemma lower_idempotent (s : string) : PyStr.lower (PyStr.lower s) = PyStr.lower s.
Proof.
  induction s as [|c s IH]; simpl; [done|].
  by rewrite lower_char_idempotent, IH.
Qed.

Lemma chars_substring (n m : nat) (s : string) (c : ascii) :
  c ∈ PyStr.chars (String.substring n m s) → c ∈ PyStr.chars s.
Proof.
  revert n m. induction s as [|c' s IH]; intros [|n] [|m]; simpl;
    try by intros ?%elem_of_nil.
  - intros [->|Hin]%elem_of_cons; apply elem_of_cons; [by left|right].
    by apply (IH 0 m).
  - intros Hin. apply elem_of_cons. right. by apply (IH n 0).
  - intros Hin. apply elem_of_cons. right. by apply (IH n (S m)).
Qed.

Lemma chars_strip (s : string) (c : ascii) :
  c ∈ PyStr.chars (PyStr.strip s) → c ∈ PyStr.chars s.
Proof.
  unfold PyStr.strip, PyStr.strip_where. rewrite chars_of_chars'.
  intros Hin.
  apply drop_while_suffix, list_elem_of_In, in_rev, list_elem_of_In in Hin.
  by apply drop_while_suffix, list_elem_of_In, in_rev, list_elem_of_In in Hin.
Qed.

Lemma chars_strip_suffixes (l : list string) (s : string) (c : ascii) :
  c ∈ PyStr.chars
        (foldl (λ name suffix,
                  if PyStr.endswith name suffix
                  then PyStr.drop_last (String.length suffix) name
                  else name) s l) →
  c ∈ PyStr.chars s.
Proof.
  revert s. induction l as [|suffix l IH]; intros s; cbn [foldl]; [done|].
  intros Hin%IH. destruct (PyStr.endswith s suffix); [|done].
  by apply chars_substring in Hin.
Qed.

Lemma normalize_name_eq (name : string) :
  normalize_name name
  = PyStr.strip
      (PyStr.remove_punctuation
         (foldl (λ name suffix,
                   if PyStr.endswith name suffix
                   then PyStr.drop_last (String.length suffix) name
                   else name) (PyStr.strip (PyStr.lower name)) suffixes)).
Proof. reflexivity. Qed.

(** X24: the normal form of a name is made of word characters and white
    space only, without a capital letter, and is left unchanged by
    [strip]; it does not depend on the case of the name. *)
Theorem normalize_name_shape (name : string) :
  (∀ c, c ∈ PyStr.chars (CandidateMatcher.normalize_name name) →
     (PyStr.is_word c || PyStr.is_space c) = true ∧ PyStr.is_upper c = false)
  ∧ PyStr.strip (CandidateMatcher.normalize_name name)
    = CandidateMatcher.normalize_name name
  ∧ CandidateMatcher.normalize_name (PyStr.lower name)
    = CandidateMatcher.normalize_name name.
Proof.
  rewrite !normalize_name_eq.
  generalize suffixes. intros l. split_and!.
  - intros c Hin. apply chars_strip in Hin.
    unfold PyStr.remove_punctuation in Hin. rewrite chars_of_chars' in Hin.
    apply list_elem_of_In, filter_In in Hin as [Hin Hword].
    split; [exact Hword|].
    apply list_elem_of_In, chars_strip_suffixes, chars_strip in Hin.
    rewrite chars_lower in Hin.
    apply list_elem_of_fmap in Hin as (c' & -> & _). apply lower_char_not_upper.
  - apply strip_idempotent.
  - by rewrite lower_idempotent.
Qed.
End suffix_matcher.

(** ** The groups of the suffix matcher *)

(** C9: [find_suffix_duplicates] groups the names by their normal form:
    every group is made of all the names of one normal form and has at
    least two, and two different names of one normal form are in one
    group.  The normal form is lower-case, trimmed and free of
    punctuation (only word characters and white space are left), does not
    depend on the case of the name, and has each suffix of the fixed list
    removed from the end of "Landon Thomas".  Whenever the input holds
    "Landon Thomas", "Landon Thomas Jr." and "Landon Smith Jr.", whose
    normal forms are [landon thomas], [landon thomas] and [landon smith],
    one group holds the first two, and no group holds "Landon Smith Jr."
    together with either of them. *)
Theorem suffix_groups_landon_thomas (names : list string) :
  "Landon Thomas" ∈ names → "Landon Thomas Jr." ∈ names →
  "Landon Smith Jr." ∈ names →
  (∀ group, group ∈ CandidateMatcher.find_suffix_duplicates names →
     2 ≤ length group
     ∧ ∃ norm, ∀ n, n ∈ group ↔ (n ∈ names ∧ CandidateMatcher.normalize_name n = norm))
  ∧ (∃ group, group ∈ CandidateMatcher.find_suffix_duplicates names
              ∧ "Landon Thomas" ∈ group ∧ "Landon Thomas Jr." ∈ group)
  ∧ (∀ group, group ∈ CandidateMatcher.find_suffix_duplicates names →
       "Landon Smith Jr." ∈ group →
       ("Landon Thomas" ∉ group) ∧ ("Landon Thomas Jr." ∉ group))
  ∧ (∀ a b, a ∈ names → b ∈ names → a ≠ b →
       CandidateMatcher.normalize_name a = CandidateMatcher.normalize_name b →
       ∃ group, group ∈ CandidateMatcher.find_suffix_duplicates names
                ∧ a ∈ group ∧ b ∈ group)
  ∧ (CandidateMatcher.normalize_name "Landon Thomas" = "landon thomas"
     ∧ CandidateMatcher.normalize_name "Landon Thomas Jr." = "landon thomas"
     ∧ CandidateMatcher.normalize_name "Landon Smith Jr." = "landon smith"
     ∧ CandidateMatcher.normalize_name "  Thomas, Landon; ESQ. " = "thomas landon")
  ∧ Forall (λ suffix,
              CandidateMatcher.normalize_name ("Landon Thomas" +:+ suffix)
              = "landon thomas")
      [" jr."; " jr"; " sr."; " sr"; " iii"; " ii"; " iv"; " esq."; " esq";
       " phd"; " md"]
  ∧ (∀ name c, c ∈ PyStr.chars (CandidateMatcher.normalize_name name) →
       (PyStr.is_word c || PyStr.is_space c) = true ∧ PyStr.is_upper c = false)
  ∧ (∀ name, PyStr.strip (CandidateMatcher.normalize_name name)
             = CandidateMatcher.normalize_name name)
  ∧ (∀ name, CandidateMatcher.normalize_name (PyStr.lower name)
             = CandidateMatcher.normalize_name name).
Proof.
  intros H1 H2 H3.
  assert (CandidateMatcher.normalize_name "Landon Thomas" = "landon thomas")
    as Hn1 by (vm_compute; reflexivity).
  assert (CandidateMatcher.normalize_name "Landon Thomas Jr." = "landon thomas")
    as Hn2 by (vm_compute; reflexivity).
  assert (CandidateMatcher.normalize_name "Landon Smith Jr." = "landon smith")
    as Hn3 by (vm_compute; reflexivity).
  assert (∀ a b, a ∈ names → b ∈ names → a ≠ b →
            CandidateMatcher.normalize_name a = CandidateMatcher.normalize_name b →
            ∃ group, group ∈ CandidateMatcher.find_suffix_duplicates names
                     ∧ a ∈ group ∧ b ∈ group) as Hpair.
  { intros a b Ha Hb Hab Heq.
    exists (Spec.with_normal_form (CandidateMatcher.normalize_name a) names).
    assert (a ∈ Spec.with_normal_form (CandidateMatcher.normalize_name a) names)
      as Hina by (apply elem_of_with_normal_form; split; [exact Ha|reflexivity]).
    assert (b ∈ Spec.with_normal_form (CandidateMatcher.normalize_name a) names)
      as Hinb
      by (apply elem_of_with_normal_form; split; [exact Hb|symmetry; exact Heq]).
    split_and!; [|exact Hina|exact Hinb]. apply elem_of_find_suffix_duplicates.
    split; [|eexists; reflexivity].
    apply (submseteq_length [a; b]). apply NoDup_submseteq.
    - apply NoDup_cons. split; [|apply NoDup_singleton].
      intros Hin%list_elem_of_singleton. exact (Hab Hin).
    - intros x [->|Hx]%elem_of_cons; [exact Hina|].
      apply list_elem_of_singleton in Hx as ->. exact Hinb. }
  split.
  { intros group (Hlen & norm & ->)%elem_of_find_suffix_duplicates.
    split; [exact Hlen|]. exists norm. intros n. apply elem_of_with_normal_form. }
  split.
  { apply Hpair; [exact H1|exact H2|discriminate|]. rewrite Hn1, Hn2. reflexivity. }
  split.
  { intros group (Hlen & norm & ->)%elem_of_find_suffix_duplicates.
    rewrite !elem_of_with_normal_form. intros [_ <-].
    rewrite Hn1, Hn2, Hn3. split; intros [_ Heq]; discriminate Heq. }
  split; [exact Hpair|].
  split.
  { split; [exact Hn1|]. split; [exact Hn2|]. split; [exact Hn3|].
    vm_compute. reflexivity. }
  split.
  { repeat (apply Forall_cons; split; [vm_compute; reflexivity|]).
    apply Forall_nil_2. }
  split.
  { intros name c Hin. rewrite normalize_name_eq in Hin.
    revert Hin. generalize CandidateMatcher.suffixes. intros l Hin.
    apply chars_strip in Hin.
    unfold PyStr.remove_punctuation in Hin. rewrite chars_of_chars' in Hin.
    apply list_elem_of_In, filter_In in Hin as [Hin Hword].
    split; [exact Hword|].
    apply list_elem_of_In, chars_strip_suffixes, chars_strip in Hin.
    rewrite chars_lower in Hin.
    apply list_elem_of_fmap in Hin as (c' & -> & _). apply lower_char_not_upper. }
  split.
  { intros name. rewrite normalize_name_eq. apply strip_idempotent. }
  intros name. rewrite !normalize_name_eq. rewrite lower_idempotent.
  reflexivity.
Qed.

Lemma suffix_groups_landon_thomas_witness :
  let names := ["Landon Smith Jr."; "Landon Thomas"; "Bill Gates";
                "Landon Thomas Jr."] in
  (∃ group, group ∈ CandidateMatcher.find_suffix_duplicates names
            ∧ "Landon Thomas" ∈ group ∧ "Landon Thomas Jr." ∈ group)
  ∧ (∀ group, group ∈ CandidateMatcher.find_suffix_duplicates names →
       "Landon Smith Jr." ∈ group →
       ("Landon Thomas" ∉ group) ∧ ("Landon Thomas Jr." ∉ group)).
Proof.
  intros names.
  destruct (suffix_groups_landon_thomas names
              ltac:(compute_done) ltac:(compute_done) ltac:(compute_done))
    as (_ & Hsame & Hapart & _).
  exact (conj Hsame Hapart).
Defined.

(** ** The token matcher finds what there is to find *)

Section token_complete.
Import CandidateMatcher Inv.
#[local] Arguments tokenize_name : simpl never.
Variable iter : gset string → list string.
Hypothesis iter_perm : ∀ s, iter s ≡ₚ elements s.

Lemma foldl_inv {A B} (P : A → Prop) (f : A → B → A) (l : list B) (a : A) :
  P a → (∀ a b, b ∈ l → P a → P (f a b)) → P (foldl f a l).
Proof.
  revert a. induction l as [|b l IH]; intros a Ha Hstep; simpl; [done|].
  apply IH.
  - apply Hstep; [apply elem_of_cons; by left|done].
  - intros a' b' Hb'. apply Hstep, elem_of_cons. by right.
Qed.

Lemma foldl_reach {A B} (Q : A → Prop) (f : A → B → A) (l : list B) (b : B) (a : A) :
  b ∈ l → (∀ a, Q (f a b)) → (∀ a b', Q a → Q (f a b')) → Q (foldl f a l).
Proof.
  intros Hb Hhit Hkeep. revert a.
  induction l as [|b' l IH]; intros a; [by apply elem_of_nil in Hb|].
  simpl. apply elem_of_cons in Hb as [<-|Hb].
  - apply foldl_inv; [apply Hhit|]. intros a' b' _. apply Hkeep.
  - by apply IH.
Qed.

Lemma length_iter (s : gset string) : length (iter s) = size s.
Proof. by rewrite iter_perm. Qed.

(** *** The index *)

Lemma build_index_get (names : list string) (n : string) :
  n ∈ names → (build_index iter names).1 !! n = Some (tokenize_name n).
Proof.
  unfold build_index. induction names as [|name names IH] using rev_ind.
  { by intros ?%elem_of_nil. }
  rewrite foldl_snoc. unfold index_name at 1. cbn [fst].
  intros Hin. destruct (decide (name = n)) as [->|Hne].
  - by rewrite lookup_insert_eq.
  - rewrite lookup_insert_ne by done. apply IH.
    apply elem_of_app in Hin as [?|Hin]; [done|].
    apply list_elem_of_singleton in Hin. congruence.
Qed.

Lemma index_tokens_lookup (name : string) (toks : list string)
    (ttn : gmap string (gset string)) (t : string) :
  default ∅
    (foldl (λ token_to_names token,
              <[token := {[name]} ∪ default ∅ (token_to_names !! token)]>
                token_to_names) ttn toks !! t)
  = default ∅ (ttn !! t) ∪ (if decide (t ∈ toks) then {[name]} else ∅).
Proof.
  revert ttn. induction toks as [|token toks IH]; intros ttn; cbn [foldl].
  { rewrite decide_False by apply not_elem_of_nil. by rewrite union_empty_r_L. }
  rewrite IH. destruct (decide (token = t)) as [->|Hne].
  - rewrite lookup_insert_eq. cbn [default].
    rewrite (decide_True (P := t ∈ t :: toks)) by (apply elem_of_cons; by left).
    destruct (decide (t ∈ toks)); set_solver.
  - rewrite lookup_insert_ne by done.
    destruct (decide (t ∈ toks)) as [Hin|Hnin].
    + by rewrite decide_True by (apply elem_of_cons; by right).
    + rewrite decide_False; [done|].
      intros [?|?]%elem_of_cons; [congruence|done].
Qed.

Lemma build_index_names (names : list string) (t n : string) :
  n ∈ default ∅ ((build_index iter names).2 !! t)
  ↔ n ∈ names ∧ t ∈ tokenize_name n.
Proof.
  unfold build_index. induction names as [|name names IH] using rev_ind.
  { simpl. rewrite lookup_empty. simpl. split; [set_solver|].
    by intros [?%elem_of_nil _]. }
  rewrite foldl_snoc. unfold index_name at 1. cbn [snd].
  rewrite index_tokens_lookup, elem_of_union, IH, elem_of_app,
    list_elem_of_singleton.
  destruct (decide (t ∈ iter (tokenize_name name))) as [Hin|Hnin].
  - rewrite elem_of_iter in Hin by done. rewrite elem_of_singleton.
    split; [|tauto]. intros [?| ->]; [tauto|]. auto.
  - rewrite elem_of_iter in Hnin by done. split; [set_solver|].
    intros [[?| ->] Ht]; [by left|done].
Qed.

(** *** The groups *)

Lemma pydict_set_ne {K V} `{EqDecision K} (d : PyDict.t K V) (k : K) (v : V) :
  PyDict.set d k v ≠ [].
Proof. destruct d as [|[k0 v0] d]; simpl; [done|]. by destruct (decide (k0 = k)). Qed.

Lemma group_add_get (pg : groups_dict) (key key' : gset string) (name : string) :
  PyDict.get (group_add pg key name) key'
  = if decide (key = key') then Some ({[name]} ∪ default ∅ (PyDict.get pg key))
    else PyDict.get pg key'.
Proof. unfold group_add. apply pydict_get_set. Qed.

Lemma group_add_NoDup (pg : groups_dict) (key : gset string) (name : string) :
  NoDup (PyDict.keys pg) → NoDup (PyDict.keys (group_add pg key name)).
Proof. apply pydict_set_NoDup. Qed.

Lemma size_two (a b : string) (s : gset string) :
  a ≠ b → a ∈ s → b ∈ s → 2 ≤ size s.
Proof.
  intros Hab Ha Hb.
  assert (size ({[a]} ∪ {[b]} : gset string) = 2) as <-.
  { rewrite size_union by set_solver. by rewrite !size_singleton. }
  apply subseteq_size. set_solver.
Qed.

Lemma group_add_pair_ok (names : list string) (pg : groups_dict)
    (key : gset string) (n1 n2 : string) :
  NoDup (PyDict.keys pg) → groups_ok names pg →
  n1 ∈ names → n2 ∈ names → n1 ≠ n2 →
  groups_ok names (group_add (group_add pg key n1) key n2).
Proof.
  intros Hnd Hpg H1 H2 Hne key' grp Hin.
  apply pydict_get_Some in Hin; [|by do 2 apply group_add_NoDup].
  rewrite !group_add_get in Hin.
  rewrite (decide_True (P := key = key)) in Hin by done.
  destruct (decide (key = key')) as [<-|Hkey].
  - injection Hin as <-. cbn [default]. split.
    + apply (size_two n1 n2); [done|set_solver..].
    + intros n [->%elem_of_singleton|[->%elem_of_singleton|Hn]%elem_of_union]%elem_of_union;
        [done..|].
      destruct (PyDict.get pg key) as [old|] eqn:Hget; simpl in Hn; [|set_solver].
      apply pydict_get_elem_of in Hget. by apply (Hpg _ _ Hget).
  - apply pydict_get_elem_of in Hin. by apply (Hpg key' grp).
Qed.

Lemma leb_false_ne (a b : string) : String.leb b a = false → a ≠ b.
Proof.
  intros Hleb ->. assert (PyStr.le b b) as Hle by (apply str_le_iff; by left).
  unfold PyStr.le in Hle. congruence.
Qed.

Lemma leb_true_true (a b : string) :
  String.leb a b = true → String.leb b a = true → a = b.
Proof.
  intros Hab Hba.
  destruct (proj1 (str_le_iff a b) Hab) as [->|Hlt]; [done|].
  destruct (proj1 (str_le_iff b a) Hba) as [->|Hlt']; [done|].
  by apply str_lt_asym in Hlt.
Qed.

Section scan.
Variable names : list string.
Variable name_tokens token_to_names : gmap string (gset string).
Hypothesis token_to_names_ok :
  ∀ token n, n ∈ default ∅ (token_to_names !! token) → n ∈ names.

(** The three facts carried through the loops. *)
Lemma consider_pair_ok (name1 : string) (st : pairs_state) (name2 : string) :
  name1 ∈ names → name2 ∈ names →
  NoDup (PyDict.keys (potential_groups st))
  ∧ groups_ok names (potential_groups st) ∧ pairs_ok name_tokens st →
  let st' := consider_pair name_tokens name1 (default ∅ (name_tokens !! name1))
               st name2 in
  NoDup (PyDict.keys (potential_groups st'))
  ∧ groups_ok names (potential_groups st') ∧ pairs_ok name_tokens st'.
Proof.
  intros H1 H2 (Hnd & Hok & Hpairs). unfold consider_pair.
  destruct (String.leb name2 name1) eqn:Hleb; [done|].
  apply leb_false_ne in Hleb.
  case_bool_decide as Hproc; [done|].
  destruct (2 <=? size _) eqn:Hsize.
  - cbn [potential_groups processed_pairs]. split_and!.
    + by do 2 apply group_add_NoDup.
    + by apply group_add_pair_ok.
    + intros x y _ _. apply pydict_set_ne.
  - cbn [potential_groups processed_pairs]. split_and!; [done..|].
    intros x y [Hxy%elem_of_singleton|Hxy]%elem_of_union Hshared.
    + injection Hxy as -> ->. apply Nat.leb_gt in Hsize. lia.
    + by apply (Hpairs x y).
Qed.

Lemma consider_pair_processed (name1 : string) (tokens1 : gset string)
    (st : pairs_state) (name2 : string) (p : string * string) :
  p ∈ processed_pairs st →
  p ∈ processed_pairs (consider_pair name_tokens name1 tokens1 st name2).
Proof.
  intros Hp. unfold consider_pair. destruct (String.leb name2 name1); [done|].
  case_bool_decide; [done|].
  destruct (2 <=? size _); cbn [processed_pairs]; set_solver.
Qed.

Lemma consider_pair_hit (name1 : string) (tokens1 : gset string)
    (st : pairs_state) (name2 : string) :
  String.leb name2 name1 = false →
  (name1, name2) ∈ processed_pairs (consider_pair name_tokens name1 tokens1 st name2).
Proof.
  intros Hleb. unfold consider_pair. rewrite Hleb.
  case_bool_decide; [done|].
  destruct (2 <=? size _); cbn [processed_pairs]; set_solver.
Qed.

Lemma scan_name_ok (st : pairs_state) (name1 : string) :
  name1 ∈ names →
  NoDup (PyDict.keys (potential_groups st))
  ∧ groups_ok names (potential_groups st) ∧ pairs_ok name_tokens st →
  let st' := scan_name iter name_tokens token_to_names st name1 in
  NoDup (PyDict.keys (potential_groups st'))
  ∧ groups_ok names (potential_groups st') ∧ pairs_ok name_tokens st'.
Proof.
  intros H1 Hst. unfold scan_name. destruct (size _ <? 2); [done|].
  apply (foldl_inv (λ st, NoDup (PyDict.keys (potential_groups st))
                          ∧ groups_ok names (potential_groups st)
                          ∧ pairs_ok name_tokens st)); [done|].
  intros st' token _ Hst'.
  apply (foldl_inv (λ st, NoDup (PyDict.keys (potential_groups st))
                          ∧ groups_ok names (potential_groups st)
                          ∧ pairs_ok name_tokens st)); [done|].
  intros st'' name2 Hname2 Hst''. apply consider_pair_ok; [done| |done].
  apply (token_to_names_ok token). by apply elem_of_iter in Hname2.
Qed.

Lemma scan_name_processed (st : pairs_state) (name1 : string)
    (p : string * string) :
  p ∈ processed_pairs st →
  p ∈ processed_pairs (scan_name iter name_tokens token_to_names st name1).
Proof.
  intros Hp. unfold scan_name. destruct (size _ <? 2); [done|].
  apply (foldl_inv (λ st, p ∈ processed_pairs st)); [done|].
  intros st' token _ Hst'.
  apply (foldl_inv (λ st, p ∈ processed_pairs st)); [done|].
  intros st'' name2 _ Hst''. by apply consider_pair_processed.
Qed.

Lemma scan_name_hit (st : pairs_state) (name1 name2 token : string) :
  2 ≤ size (default ∅ (name_tokens !! name1)) →
  token ∈ default ∅ (name_tokens !! name1) →
  name2 ∈ default ∅ (token_to_names !! token) →
  String.leb name2 name1 = false →
  (name1, name2)
    ∈ processed_pairs (scan_name iter name_tokens token_to_names st name1).
Proof.
  intros Hsize Htoken Hname2 Hleb. unfold scan_name.
  rewrite (proj2 (Nat.ltb_ge _ _)) by done.
  apply (foldl_reach (λ st, (name1, name2) ∈ processed_pairs st) _ _ token).
  - by apply elem_of_iter.
  - intros st'.
    apply (foldl_reach (λ st, (name1, name2) ∈ processed_pairs st) _ _ name2).
    + by apply elem_of_iter.
    + intros st''. by apply consider_pair_hit.
    + intros st'' n Hst''. by apply consider_pair_processed.
  - intros st' token' Hst'.
    apply (foldl_inv (λ st, (name1, name2) ∈ processed_pairs st)); [done|].
    intros st'' n _ Hst''. by apply consider_pair_processed.
Qed.

Lemma scan_names_ok (l : list string) (st : pairs_state) :
  (∀ n, n ∈ l → n ∈ names) →
  NoDup (PyDict.keys (potential_groups st))
  ∧ groups_ok names (potential_groups st) ∧ pairs_ok name_tokens st →
  let st' := foldl (scan_name iter name_tokens token_to_names) st l in
  NoDup (PyDict.keys (potential_groups st'))
  ∧ groups_ok names (potential_groups st') ∧ pairs_ok name_tokens st'.
Proof.
  intros Hl Hst.
  apply (foldl_inv (λ st, NoDup (PyDict.keys (potential_groups st))
                          ∧ groups_ok names (potential_groups st)
                          ∧ pairs_ok name_tokens st)); [done|].
  intros st' name1 Hname1 Hst'. apply scan_name_ok; [by apply Hl|done].
Qed.

Lemma scan_names_hit (l : list string) (st : pairs_state)
    (name1 name2 token : string) :
  name1 ∈ l →
  2 ≤ size (default ∅ (name_tokens !! name1)) →
  token ∈ default ∅ (name_tokens !! name1) →
  name2 ∈ default ∅ (token_to_names !! token) →
  String.leb name2 name1 = false →
  (name1, name2)
    ∈ processed_pairs (foldl (scan_name iter name_tokens token_to_names) st l).
Proof.
  intros Hin Hsize Htoken Hname2 Hleb.
  apply (foldl_reach (λ st, (name1, name2) ∈ processed_pairs st) _ _ name1).
  - done.
  - intros st'. by apply (scan_name_hit st' name1 name2 token).
  - intros st' n Hst'. by apply scan_name_processed.
Qed.
End scan.

(** *** The last loop *)

Lemma emit_group_keeps (st : list (list string) * gset string)
    (item : gset string * gset string) :
  st.1 ≠ [] → (emit_group iter st item).1 ≠ [].
Proof.
  intros Hst. unfold emit_group. destruct (2 <=? length _); [|done].
  cbn [fst]. by destruct st.1.
Qed.

Lemma emit_groups_nonempty (items : list (gset string * gset string)) :
  items ≠ [] → (∀ item, item ∈ items → 2 ≤ size item.2) →
  (foldl (emit_group iter) ([], ∅) items).1 ≠ [].
Proof.
  destruct items as [|item items]; [done|]. intros _ Hsize. cbn [foldl].
  apply (foldl_inv (λ st : list (list string) * gset string, st.1 ≠ [])).
  - unfold emit_group. cbn [fst snd].
    set (new_names := List.filter _ (iter item.2)).
    assert (new_names = iter item.2) as ->.
    { unfold new_names. induction (iter item.2) as [|n l IH]; [done|].
      cbn [List.filter].
      rewrite bool_decide_eq_false_2 by set_solver. cbn [negb]. by rewrite IH. }
    rewrite length_iter.
    rewrite (proj2 (Nat.leb_le _ _)) by (apply Hsize, elem_of_cons; by left).
    done.
  - intros st item' _. apply emit_group_keeps.
Qed.

Lemma potential_groups_facts (names : list string) :
  let st := foldl (scan_name iter (build_index iter names).1
                     (build_index iter names).2) (mkPairs [] ∅) names in
  groups_ok names (potential_groups st)
  ∧ ∀ a b, a ∈ names → b ∈ names → a ≠ b →
      2 ≤ size (tokenize_name a ∩ tokenize_name b) →
      potential_groups st ≠ [].
Proof.
  intros st.
  destruct (scan_names_ok names (build_index iter names).1
              (build_index iter names).2
              (λ token n Hn, proj1 (proj1 (build_index_names names token n) Hn))
              names (mkPairs [] ∅)) as (Hnd & Hok & Hpairs).
  { done. }
  { split_and!; [constructor| |].
    - by intros key grp ?%elem_of_nil.
    - intros x y Hxy. cbn [processed_pairs] in Hxy. set_solver. }
  fold st in Hnd, Hok, Hpairs. split; [done|].
  assert (∀ a b, a ∈ names → b ∈ names → String.leb b a = false →
            2 ≤ size (tokenize_name a ∩ tokenize_name b) →
            potential_groups st ≠ []) as Hordered.
  { intros a b Ha Hb Hleb Hshared.
    assert (default ∅ ((build_index iter names).1 !! a) = tokenize_name a) as Hta
      by by rewrite build_index_get.
    assert (default ∅ ((build_index iter names).1 !! b) = tokenize_name b) as Htb
      by by rewrite build_index_get.
    apply (Hpairs a b); [|by rewrite Hta, Htb].
    destruct (size_pos_elem_of (tokenize_name a ∩ tokenize_name b))
      as [token [Htokena Htokenb]%elem_of_intersection]; [lia|].
    apply (scan_names_hit names _ _
             (λ token n Hn, proj1 (proj1 (build_index_names names token n) Hn))
             names (mkPairs [] ∅) a b token).
    - done.
    - rewrite Hta. etrans; [exact Hshared|]. apply subseteq_size. set_solver.
    - by rewrite Hta.
    - by apply build_index_names.
    - done. }
  intros a b Ha Hb Hab Hshared.
  destruct (String.leb b a) eqn:Hba; [|by apply (Hordered a b)].
  apply (Hordered b a); [done..| |].
  - destruct (String.leb a b) eqn:Hab'; [|done].
    exfalso. by apply Hab, leb_true_true.
  - by rewrite (comm_L (∩)).
Qed.

Lemma find_potential_duplicates_eq (names : list string) :
  find_potential_duplicates iter names
  = (foldl (emit_group iter) ([], ∅)
       (sorted_desc (λ item, size item.2)
          (potential_groups
             (foldl (scan_name iter (build_index iter names).1
                       (build_index iter names).2) (mkPairs [] ∅) names)))).1.
Proof.
  unfold find_potential_duplicates. by destruct (build_index iter names).
Qed.
End token_complete.

(** X25: whatever the order of iteration on sets, every name of a group of
    [find_potential_duplicates] is one of the names given, with two
    normalised tokens at least; and the function returns a group as soon
    as two different names of the input have two tokens in common, and
    none when no two have. *)
Theorem token_groups_complete (iter : gset string → list string)
    (names : list string) :
  (∀ s, iter s ≡ₚ elements s) →
  let groups := CandidateMatcher.find_potential_duplicates iter names in
  (∀ g n, g ∈ groups → n ∈ g →
     n ∈ names ∧ 2 ≤ size (CandidateMatcher.tokenize_name n))
  ∧ ((∃ a b, a ∈ names ∧ b ∈ names ∧ a ≠ b
             ∧ 2 ≤ size (CandidateMatcher.tokenize_name a
                         ∩ CandidateMatcher.tokenize_name b))
     ↔ groups ≠ []).
Proof.
  intros Hiter groups.
  destruct (potential_groups_facts iter Hiter names) as [Hok Hfound].
  destruct (find_potential_duplicates_spec iter Hiter names) as [Hnd Hsound].
  fold groups in Hnd, Hsound.
  assert (∀ g n, g ∈ groups → n ∈ g → n ∈ names) as Hnames.
  { intros g n Hg Hn. unfold groups in Hg.
    rewrite find_potential_duplicates_eq in Hg.
    destruct (emit_groups_spec iter Hiter
                (CandidateMatcher.sorted_desc (λ item, size item.2)
                   (CandidateMatcher.potential_groups
                      (foldl (CandidateMatcher.scan_name iter
                                (CandidateMatcher.build_index iter names).1
                                (CandidateMatcher.build_index iter names).2)
                         (CandidateMatcher.mkPairs [] ∅) names))) [] ∅)
      as [_ Hout]; [done|constructor|].
    destruct (Hout g Hg) as [[]%elem_of_nil|(_ & [key grp] & Hitem & Hsub)].
    rewrite sorted_desc_perm in Hitem.
    apply (proj2 (Hok key grp Hitem)). by apply Hsub. }
  split_and!.
  - intros g n Hg Hn. split; [by eapply Hnames|].
    destruct (Hsound g Hg) as (_ & key & Hsize & Hkey).
    etrans; [exact Hsize|]. apply subseteq_size. by apply Hkey.
  - split.
    + intros (a & b & Ha & Hb & Hab & Hshared). unfold groups.
      rewrite find_potential_duplicates_eq.
      apply emit_groups_nonempty; [done| |].
      * intros Hnil. apply (Hfound a b Ha Hb Hab Hshared).
        pose proof (sorted_desc_perm
                      (λ item : gset string * gset string, size item.2)
                      (CandidateMatcher.potential_groups
                         (foldl (CandidateMatcher.scan_name iter
                                   (CandidateMatcher.build_index iter names).1
                                   (CandidateMatcher.build_index iter names).2)
                            (CandidateMatcher.mkPairs [] ∅) names))) as Hperm.
        rewrite Hnil in Hperm. by apply Permutation_nil in Hperm.
      * intros [key grp] Hitem. rewrite sorted_desc_perm in Hitem.
        apply (proj1 (Hok key grp Hitem)).
    + intros Hne. destruct groups as [|g rest] eqn:Hgroups; [done|].
      assert (g ∈ g :: rest) as Hg by (apply elem_of_cons; by left).
      destruct (Hsound g Hg) as (Hlen & key & Hsize & Hkey).
      destruct g as [|a [|b g']]; [simpl in Hlen; lia..|].
      exists a, b.
      assert (a ∈ a :: b :: g') as Ha by (apply elem_of_cons; by left).
      assert (b ∈ a :: b :: g') as Hb
        by (apply elem_of_cons; right; apply elem_of_cons; by left).
      split_and!.
      * by apply (Hnames _ _ Hg).
      * by apply (Hnames _ _ Hg).
      * intros ->. simpl in Hnd. apply NoDup_cons in Hnd as [Hnin _].
        apply Hnin, elem_of_cons. by left.
      * etrans; [exact Hsize|]. apply subseteq_size.
        pose proof (Hkey a Ha). pose proof (Hkey b Hb). set_solver.
Qed.

Lemma token_groups_complete_witness :
  let names := ["Landon Thomas"; "Bill Gates"; "Thomas Jr. Landon"] in
  CandidateMatcher.find_potential_duplicates elements names ≠ [].
Proof.
  intros names.
  apply (proj2 (token_groups_complete elements names (λ s, reflexivity _))).
  exists "Landon Thomas", "Thomas Jr. Landon".
  split_and!; [set_solver|set_solver|discriminate|vm_compute; lia].
Defined.

(** ** The matches sent with a batch *)

Section batch_matches.
Import Consolidation.
#[local] Arguments PyStr.strip : simpl never.
#[local] Arguments PyStr.split : simpl never.
#[local] Arguments PyStr.lower : simpl never.
#[local] Arguments last_name : simpl never.

Lemma find_lastname_matches_keys (names : list string) (single : string)
    (fulls : list string) :
  (single, fulls) ∈ find_lastname_matches names →
  ∃ n, n ∈ names ∧ single = PyStr.strip n.
Proof.
  unfold find_lastname_matches. rewrite classify_fold. cbn [fst snd app].
  set (M := PyStr.strip <$> List.filter _ names).
  set (S := PyStr.strip
              <$> List.filter (λ n, length (PyStr.split (PyStr.strip n)) =? 1) names).
  destruct (match_singles_spec M S) as (Hnd & Hsound & _).
  intros Hin. apply pydict_get_Some in Hin; [|done].
  destruct (Hsound single fulls Hin) as (_ & HinS & _).
  unfold S in HinS. apply list_elem_of_fmap in HinS as (n & -> & Hn).
  apply list_elem_of_In, List.filter_In in Hn as [Hn _].
  exists n. by rewrite list_elem_of_In.
Qed.

Lemma elem_of_batches {A} (n : nat) (l : list A) (x : A) :
  0 < n → x ∈ l → ∃ batch, batch ∈ batches n l ∧ x ∈ batch.
Proof.
  intros Hn Hx. unfold batches.
  destruct (batches_aux_spec (length l) n l Hn (le_n _)) as [Hcat _].
  rewrite <- Hcat in Hx. apply list_elem_of_In, in_concat in Hx as (b & Hb & Hx).
  exists b. by rewrite !list_elem_of_In.
Qed.

(** X26: the first pass sends, with each batch of names, the last-name
    matches whose single word is a name of the batch.  When the names are
    stripped, as the names of the table are, every match is sent with the
    batch that holds its single word, and nothing is sent that
    [find_lastname_matches] did not find. *)
Theorem lastname_matches_reach_a_batch (n : nat) (names : list string) :
  0 < n → (∀ x, x ∈ names → PyStr.strip x = x) →
  let matches := Consolidation.find_lastname_matches names in
  (∀ single fulls, (single, fulls) ∈ matches →
     ∃ batch, batch ∈ Consolidation.batches n names ∧ single ∈ batch
              ∧ (single, fulls) ∈ Consolidation.batch_matches matches batch)
  ∧ (∀ batch kv, kv ∈ Consolidation.batch_matches matches batch
                 ↔ kv ∈ matches ∧ kv.1 ∈ batch).
Proof.
  intros Hn Hstripped matches.
  assert (∀ batch kv, kv ∈ batch_matches matches batch
                      ↔ kv ∈ matches ∧ kv.1 ∈ batch) as Hfilter.
  { intros batch kv. unfold batch_matches.
    rewrite list_elem_of_In, List.filter_In, <- list_elem_of_In.
    by rewrite bool_decide_eq_true. }
  split; [|done]. intros single fulls Hin.
  destruct (find_lastname_matches_keys names single fulls Hin) as (x & Hx & ->).
  rewrite (Hstripped x Hx) in Hin |- *.
  destruct (elem_of_batches n names x Hn Hx) as (batch & Hbatch & Hxb).
  exists batch. split_and!; [done..|]. by apply Hfilter.
Qed.

Lemma lastname_matches_reach_a_batch_witness :
  ∃ batch, batch ∈ batches 2 ["Ann Lee"; "Bill Clinton"; "Clinton"]
           ∧ "Clinton" ∈ batch
           ∧ ("Clinton", ["Bill Clinton"])
               ∈ batch_matches
                   (find_lastname_matches ["Ann Lee"; "Bill Clinton"; "Clinton"])
                   batch.
Proof.
  assert (∀ x, x ∈ ["Ann Lee"; "Bill Clinton"; "Clinton"] → PyStr.strip x = x)
    as Hstripped.
  { intros x Hx.
    repeat (apply elem_of_cons in Hx as [->|Hx]; [vm_compute; reflexivity|]).
    by apply elem_of_nil in Hx. }
  destruct (lastname_matches_reach_a_batch 2 ["Ann Lee"; "Bill Clinton"; "Clinton"]
              (Nat.lt_0_succ 1) Hstripped) as [Hreach _].
  apply Hreach.
  assert (find_lastname_matches ["Ann Lee"; "Bill Clinton"; "Clinton"]
          = [("Clinton", ["Bill Clinton"])]) as -> by (vm_compute; reflexivity).
  apply elem_of_cons. by left.
Defined.
End batch_matches.

(** ** Occurrences and discussions of a node *)

Section node_discussions.
Import Corpus Table BuildNetwork EnrichNetwork.

Lemma get_discussion_ids_eq (canonical_name : string) (t : table)
    (emails : list email) :
  get_discussion_ids_for_person canonical_name t emails
  = sorted (foldl (add_thread (variants_of canonical_name t)) ∅ emails).
Proof.
  unfold get_discussion_ids_for_person.
  destruct (variants_of canonical_name t) as [|v vs] eqn:Hv; [|done].
  assert (foldl (add_thread []) ∅ emails = ∅) as ->; [|done].
  apply set_eq. intros th. rewrite elem_of_fold_add_thread.
  split; [|set_solver]. intros [?|(_ & _ & v & _ & _ & _ & []%elem_of_nil & _)].
  done.
Qed.

Lemma person_thread_listed (t : table) (emails : list email) (p : string)
    (e : email) :
  e ∈ emails → p ∈ persons_of (load_name_mapping t) e →
  thread_id e ∈ foldl (add_thread (variants_of p t)) ∅ emails.
Proof.
  intros He Hp. apply elem_of_fold_add_thread. right.
  unfold persons_of in Hp.
  destruct (names_mentioned e) as [names|] eqn:Hnames; [|set_solver].
  apply elem_of_fold_add_person in Hp as [?|(_ & raw & Hraw & Hcons)];
    [set_solver|].
  apply consolidate_name_Some in Hcons as (Hm & _).
  exists e, names, raw. split_and!; [done..| |done].
  rewrite load_name_mapping_rev in Hm. unfold generation in Hm.
  destruct (List.find _ (rev t)) as [r|] eqn:Hfind; [|done].
  apply find_some in Hfind as [Hin Hr%bool_decide_eq_true].
  injection Hm as Hm. apply elem_of_variants_of. exists r.
  split_and!; [|done..]. by apply list_elem_of_In, in_rev.
Qed.

(** X27: what the node table says of a person and what the enrichment
    adds agree in one direction.  With the mapping loaded from the table,
    every e-mail counted in the occurrences of a person has its
    [thread_id] among the discussions of that person, so that, the
    [thread_id]s being distinct, a person has at least as many discussions
    as occurrences. *)
Theorem occurrences_within_discussions (t : Table.table)
    (emails : list Corpus.email) (p : string) :
  NoDup (Corpus.thread_id <$> emails) →
  let name_mapping := BuildNetwork.load_name_mapping t in
  let ids := EnrichNetwork.get_discussion_ids_for_person p t emails in
  (∀ e, e ∈ emails → p ∈ BuildNetwork.persons_of name_mapping e →
     Corpus.thread_id e ∈ ids)
  ∧ BuildNetwork.count (BuildNetwork.person_counts name_mapping emails) p
    ≤ length ids.
Proof.
  intros Hnd name_mapping ids. unfold ids. rewrite get_discussion_ids_eq.
  split.
  - intros e He Hp. rewrite sorted_elem_of. by apply person_thread_listed.
  - rewrite person_counts_rows.
    unfold sorted. rewrite merge_sort_Permutation.
    change (length (List.filter
                      (λ e, bool_decide (p ∈ persons_of name_mapping e)) emails)
            ≤ size (foldl (add_thread (variants_of p t)) ∅ emails)).
    rewrite <- (length_fmap thread_id).
    rewrite <- (size_list_to_set (C := gset string))
      by by apply NoDup_fmap_filter.
    apply subseteq_size. intros th.
    rewrite elem_of_list_to_set, list_elem_of_fmap.
    intros (e & -> & He). apply list_elem_of_In, filter_In in He as [He Hp].
    apply bool_decide_eq_true in Hp. apply person_thread_listed; [|done].
    by apply list_elem_of_In.
Qed.

Lemma occurrences_within_discussions_witness :
  let t := [mkRow "Bill" (Some "Bill Clinton") None (Some "Bill Clinton");
            mkRow "JE" (Some "JE") None (Some "Bill Clinton")] in
  let emails := [mkEmail "t1" None (Some ["Bill"]);
                 mkEmail "t2" None (Some ["JE"])] in
  count (person_counts (load_name_mapping t) emails) "Bill Clinton" = 1
  ∧ get_discussion_ids_for_person "Bill Clinton" t emails = ["t1"; "t2"]
  ∧ count (person_counts (load_name_mapping t) emails) "Bill Clinton"
    ≤ length (get_discussion_ids_for_person "Bill Clinton" t emails).
Proof.
  intros t emails. split_and!; [vm_compute; reflexivity..|].
  apply (occurrences_within_discussions t emails "Bill Clinton").
  apply NoDup_ListNoDup. repeat constructor; simpl; intuition discriminate.
Defined.
End node_discussions.

(** ** The pipeline *)

Section pipeline.
Import Pipeline.

Lemma run_steps_spec (run_script : string → string → bool)
    (steps : list (string * string)) :
  let results := run_steps run_script steps in
  results.*1 `prefix_of` steps.*1
  ∧ (∀ i name, results !! i = Some (name, false) → S i = length results)
  ∧ (length results < length steps → ∃ name, last results = Some (name, false))
  ∧ (∀ i name ok, results !! i = Some (name, ok) →
       ∃ script, steps !! i = Some (name, script) ∧ run_script name script = ok).
Proof.
  induction steps as [|[name script] steps IH]; simpl.
  { split_and!; [done|by intros []|lia|by intros []]. }
  destruct IH as (Hprefix & Hfail & Hshort & Hran).
  destruct (run_script name script) eqn:Hrun; simpl.
  - split_and!.
    + by apply prefix_cons.
    + intros [|i] name' Hi; simpl in Hi; [by simplify_eq|].
      f_equal. by eapply Hfail.
    + intros Hlen. destruct Hshort as [name' Hlast]; [lia|]. exists name'.
      destruct (run_steps run_script steps); [done|]. by rewrite last_cons, Hlast.
    + intros [|i] name' ok Hi; simpl in Hi; [simplify_eq; by exists script|].
      by eapply Hran.
  - split_and!.
    + by apply prefix_cons, prefix_nil.
    + intros [|i] name' Hi; simpl in Hi; [done|by destruct i].
    + intros _. by exists name.
    + intros [|i] name' ok Hi; simpl in Hi;
        [simplify_eq; by exists script|by destruct i].
Qed.

(** X28: the pipeline runs its steps in the order of the list and stops
    at the first one that fails: the results are those of a prefix of the
    steps, only the last result can be a failure, and when fewer results
    than steps are there the last one is a failure.  So the network is
    built only after the extraction, the table of unique names and the
    first consolidation pass have all succeeded. *)
Theorem pipeline_stops_at_first_failure (run_script : string → string → bool) :
  let results := Pipeline.main run_script in
  results.*1 `prefix_of` Pipeline.steps.*1
  ∧ (∀ i name, results !! i = Some (name, false) → S i = length results)
  ∧ (length results < length Pipeline.steps →
     ∃ name, last results = Some (name, false))
  ∧ (∀ ok, ("Build Network", ok) ∈ results →
       run_script "F1: Name Extraction" "run_name_extraction.py" = true
       ∧ run_script "Create Unique Names" "create_unique_names.py" = true
       ∧ run_script "F2: Name Consolidation" "run_name_consolidation.py" = true).
Proof.
  intros results.
  destruct (run_steps_spec run_script steps) as (Hprefix & Hfail & Hshort & _).
  split_and!; [done..|].
  intros ok Hin. unfold results, main, steps in Hin. cbn [run_steps] in Hin.
  destruct (run_script "F1: Name Extraction" "run_name_extraction.py");
    [|set_solver].
  destruct (run_script "Create Unique Names" "create_unique_names.py");
    [|set_solver].
  destruct (run_script "F2: Name Consolidation" "run_name_consolidation.py");
    [done|set_solver].
Qed.
End pipeline.

(** ** Instances *)

Lemma collect_changes_sound_witness :
  ∃ changes, changes ∈ [[("Bill", "Bill Gates")]; []]
             ∧ ("Bill", "Bill Gates") ∈ changes.
Proof.
  apply (proj1 (proj2 (collect_changes_sound [[("Bill", "Bill Gates")]; []] []))
           "Bill" "Bill Gates").
  assert (Consolidation.collect_changes [[("Bill", "Bill Gates")]; []]
          = [("Bill", "Bill Gates")]) as -> by (vm_compute; reflexivity).
  apply elem_of_cons. by left.
Defined.

Lemma main_creates_sorted_witness :
  let rows := [Corpus.mkEmail "t1" None (Some ["Bob"; " Ann "]);
               Corpus.mkEmail "t2" None (Some ["Ann"])] in
  UniqueNamesTable.main None rows
  = [UniqueNamesTable.mkCounted (Table.mkRow "Ann" None None None) (Some 2);
     UniqueNamesTable.mkCounted (Table.mkRow "Bob" None None None) (Some 1)]
  ∧ 1 ≤ CreateUniqueNames.name_counts rows "Ann".
Proof.
  intros rows.
  assert (UniqueNamesTable.main None rows
          = [UniqueNamesTable.mkCounted (Table.mkRow "Ann" None None None) (Some 2);
             UniqueNamesTable.mkCounted (Table.mkRow "Bob" None None None) (Some 1)])
    as Hmain by (vm_compute; reflexivity).
  split; [exact Hmain|].
  refine (proj1 (proj2 (proj2 (proj2 (main_creates_sorted rows))
                          (UniqueNamesTable.mkCounted
                             (Table.mkRow "Ann" None None None) (Some 2)) _))).
  rewrite Hmain. apply elem_of_cons. by left.
Defined.

Lemma graph_nodes_have_edges_witness :
  let m : gmap string (option string) :=
    {["Ann" := Some "Ann"; "Bob" := Some "Bob"]} in
  let emails := [Corpus.mkEmail "t1" None (Some ["Ann"; "Bob"])] in
  1 ≤ BuildNetwork.degree (BuildNetwork.build_graph m 1 1 emails) "Ann".
Proof.
  intros m emails.
  destruct (proj2 (proj2 (graph_nodes_have_edges m 1 1 emails)) "Ann")
    as [Hnode Hfacts].
  refine (proj1 (Hfacts (proj2 Hnode _))).
  exists "Bob", 1. vm_compute. reflexivity.
Defined.

Lemma normalize_name_shape_witness :
  CandidateMatcher.normalize_name "Ann LEE, Jr." = "ann lee"
  ∧ PyStr.is_upper "l" = false.
Proof.
  assert (CandidateMatcher.normalize_name "Ann LEE, Jr." = "ann lee") as Hnorm
    by (vm_compute; reflexivity).
  split; [exact Hnorm|].
  refine (proj2 (proj1 (normalize_name_shape "Ann LEE, Jr.") "l"%char _)).
  rewrite Hnorm. do 4 (apply elem_of_cons; right). apply elem_of_cons. by left.
Defined.

Lemma pipeline_stops_at_first_failure_witness :
  Pipeline.main (λ _ script, negb (String.eqb script "analyze_clusters.py"))
  = [("F1: Name Extraction", true); ("Create Unique Names", true);
     ("F2: Name Consolidation", true); ("Build Network", true);
     ("F3: Relationship Description", true); ("F4: Cluster Analysis", false)]
  ∧ negb (String.eqb "create_unique_names.py" "analyze_clusters.py") = true.
Proof.
  assert (Pipeline.main (λ _ script, negb (String.eqb script "analyze_clusters.py"))
          = [("F1: Name Extraction", true); ("Create Unique Names", true);
             ("F2: Name Consolidation", true); ("Build Network", true);
             ("F3: Relationship Description", true);
             ("F4: Cluster Analysis", false)]) as Hmain
    by (vm_compute; reflexivity).
  split; [exact Hmain|].
  refine (proj1 (proj2 (proj2 (proj2 (proj2
            (pipeline_stops_at_first_failure
               (λ _ script, negb (String.eqb script "analyze_clusters.py")))))
            true _))).
  rewrite Hmain. do 3 (apply elem_of_cons; right). apply elem_of_cons. by left.
Defined.
